(** * ssmconfig: hydration of a configuration struct from a parameter store

    A shallow embedding of [ssmconfig.go] (package [ssmconfig]): the
    breadth-first field walker of [Process], the batched fetch, and the
    string decoder [processField], together with the parts of Go's [reflect],
    [strings], [strconv] and [time] packages that the code calls. *)

From Stdlib Require Import ZArith String Ascii List Lia Bool SpecFloat.
From stdpp Require Import base option list strings gmap.
From Equations Require Import Equations.

#[local] Set Warnings "-register-all".
Local Open Scope string_scope.
Local Open Scope list_scope.

(** ** Go types, as [reflect.Type] shows them *)

Module reflect.
(** [reflect.Kind]. *)
Inductive Kind : Set :=
| Invalid | Bool | Int | Int8 | Int16 | Int32 | Int64
| Uint | Uint8 | Uint16 | Uint32 | Uint64 | Uintptr
| Float32 | Float64 | Complex64 | Complex128
| Array | Chan | Func | Interface | Map | Ptr | Slice | String | Struct
| UnsafePointer.

Definition Kind_eqb (a b : Kind) : bool :=
  match a, b with
  | Invalid, Invalid | Bool, Bool | Int, Int | Int8, Int8 | Int16, Int16
  | Int32, Int32 | Int64, Int64 | Uint, Uint | Uint8, Uint8
  | Uint16, Uint16 | Uint32, Uint32 | Uint64, Uint64 | Uintptr, Uintptr
  | Float32, Float32 | Float64, Float64 | Complex64, Complex64
  | Complex128, Complex128 | Array, Array | Chan, Chan | Func, Func
  | Interface, Interface | Map, Map | Ptr, Ptr | Slice, Slice
  | String, String | Struct, Struct | UnsafePointer, UnsafePointer => true
  | _, _ => false
  end.
End reflect.

(** Types without components that the walker or the decoder look into. *)
Inductive basic : Set :=
| Tbool | Tint | Tint8 | Tint16 | Tint32 | Tint64
| Tuint | Tuint8 | Tuint16 | Tuint32 | Tuint64 | Tuintptr
| Tfloat32 | Tfloat64 | Tcomplex64 | Tcomplex128 | Tstring
| Tchan | Tfunc | Tinterface | TunsafePointer.

(** [reflect.StructField]: [Tag] is the result of [Tag.Get("ssmparam")], the
    empty string when the field has no such tag; [Exported] is
    [PkgPath == ""]; [Anonymous] marks an embedded field. *)
Record StructField (T : Type) : Type := mkField {
  Name : string;
  Tag : string;
  Exported : bool;
  Anonymous : bool;
  Type_ : T
}.
Arguments mkField {T} _ _ _ _ _.
Arguments Name {T} _.
Arguments Tag {T} _.
Arguments Exported {T} _.
Arguments Anonymous {T} _.
Arguments Type_ {T} _.

(** [TBasic] is a predeclared type and [TNamed] a defined type whose
    underlying type is predeclared, with its [PkgPath()] and [Name()]: the
    decoder asks for [time.Duration] by these, and [reflect] tells a slice of
    [uint8] from a slice of a defined type such as [type MyByte uint8] when a
    [[]byte] is assigned to it. A defined array, map, pointer, slice or
    struct type is identified with its underlying type, from which the
    package cannot tell it. *)
Inductive gotype : Type :=
| TBasic (b : basic)
| TNamed (pkg name : string) (under : basic)
| TArray (len : nat) (elem : gotype)
| TMap (key elem : gotype)
| TPtr (elem : gotype)
| TSlice (elem : gotype)
| TStruct (fields : list (StructField gotype)).

(** [time.Duration], an [int64]. *)
Definition TDuration : gotype := TNamed "time" "Duration" Tint64.

Definition basic_Kind (b : basic) : reflect.Kind :=
  match b with
  | Tbool => reflect.Bool
  | Tint => reflect.Int | Tint8 => reflect.Int8 | Tint16 => reflect.Int16
  | Tint32 => reflect.Int32 | Tint64 => reflect.Int64
  | Tuint => reflect.Uint | Tuint8 => reflect.Uint8
  | Tuint16 => reflect.Uint16 | Tuint32 => reflect.Uint32
  | Tuint64 => reflect.Uint64 | Tuintptr => reflect.Uintptr
  | Tfloat32 => reflect.Float32 | Tfloat64 => reflect.Float64
  | Tcomplex64 => reflect.Complex64 | Tcomplex128 => reflect.Complex128
  | Tstring => reflect.String
  | Tchan => reflect.Chan | Tfunc => reflect.Func
  | Tinterface => reflect.Interface
  | TunsafePointer => reflect.UnsafePointer
  end.

(** [Type.Kind()]. *)
Definition Kind (t : gotype) : reflect.Kind :=
  match t with
  | TBasic b => basic_Kind b
  | TNamed _ _ b => basic_Kind b
  | TArray _ _ => reflect.Array
  | TMap _ _ => reflect.Map
  | TPtr _ => reflect.Ptr
  | TSlice _ => reflect.Slice
  | TStruct _ => reflect.Struct
  end.

(** The fields of a struct type; [NumField] and [Field(i)] read this list. *)
Definition fields_of (t : gotype) : list (StructField gotype) :=
  match t with
  | TStruct fs => fs
  | _ => []
  end.

(** The size of a type: what the walk has left to visit is measured in it. *)
Fixpoint typ_size (t : gotype) : nat :=
  match t with
  | TBasic _ | TNamed _ _ _ => 1
  | TArray _ e | TPtr e | TSlice e => S (typ_size e)
  | TMap k e => S (typ_size k + typ_size e)
  | TStruct fs => S (list_sum (map (fun f => typ_size (Type_ f)) fs))
  end.

(** ** Go values *)

(** The content of a location. A nil slice, map or pointer is [None]; an
    empty, non-nil slice or map is [Some []]. A map is the list of its
    entries, one per key. [VOther] stands for the values of the kinds the
    package never reads or writes (complex numbers, channels, functions,
    interfaces, unsafe pointers). *)
Inductive goval : Type :=
| VBool (b : bool)
| VInt (n : Z)
| VUint (n : Z)
| VFloat (f : spec_float)
| VString (s : string)
| VArray (elems : list goval)
| VSlice (elems : option (list goval))
| VMap (entries : option (list (goval * goval)))
| VPtr (target : option goval)
| VStruct (fields : list goval)
| VOther.

Definition zero_basic (b : basic) : goval :=
  match b with
  | Tbool => VBool false
  | Tint | Tint8 | Tint16 | Tint32 | Tint64 => VInt 0
  | Tuint | Tuint8 | Tuint16 | Tuint32 | Tuint64 | Tuintptr => VUint 0
  | Tfloat32 | Tfloat64 => VFloat (S754_zero false)
  | Tstring => VString ""
  | Tcomplex64 | Tcomplex128 | Tchan | Tfunc | Tinterface
  | TunsafePointer => VOther
  end.

(** The zero value of a type: what [reflect.New(t).Elem()] and the elements
    of [reflect.MakeSlice(t, n, n)] hold. *)
Fixpoint zero (t : gotype) : goval :=
  match t with
  | TBasic b => zero_basic b
  | TNamed _ _ b => zero_basic b
  | TArray n e => VArray (repeat (zero e) n)
  | TMap _ _ => VMap None
  | TPtr _ => VPtr None
  | TSlice _ => VSlice None
  | TStruct fs => VStruct (map (fun f => zero (Type_ f)) fs)
  end.

(** A value has the shape of a type when it is a struct value with one
    field for every field of a struct type, each of the shape of its type. *)
Fixpoint shaped (t : gotype) (v : goval) {struct t} : bool :=
  match t with
  | TStruct fs =>
      match v with
      | VStruct vs =>
          (fix go (fs : list (StructField gotype)) (vs : list goval) : bool :=
             match fs, vs with
             | [], [] => true
             | f :: fs', w :: vs' => shaped (Type_ f) w && go fs' vs'
             | _, _ => false
             end) fs vs
      | _ => false
      end
  | _ => true
  end.

(** The content at a path of field indices below a struct value, and its
    replacement. *)
Fixpoint get_path (v : goval) (path : list nat) : option goval :=
  match path with
  | [] => Some v
  | i :: rest =>
      match v with
      | VStruct fs =>
          match fs !! i with
          | Some w => get_path w rest
          | None => None
          end
      | _ => None
      end
  end.

Fixpoint set_path (v : goval) (path : list nat) (new : goval) : goval :=
  match path with
  | [] => new
  | i :: rest =>
      match v with
      | VStruct fs =>
          match fs !! i with
          | Some w => VStruct (<[i := set_path w rest new]> fs)
          | None => v
          end
      | _ => v
      end
  end.

(** ** Errors *)

Module strconv_err.
(** The [Err] field of [*strconv.NumError]. *)
Inductive t : Set :=
| ErrSyntax
| ErrRange
| ErrBase (base : Z)
| ErrBitSize (bitSize : Z).
End strconv_err.

(** Go [error] values, by the call that made them: [errors.New(text)];
    [fmt.Errorf(format, arg)] with one string operand;
    [&strconv.NumError{Func, Num, Err}]; and the errors of package [time],
    [errors.New(...)] of a fixed text around the quoted operands. *)
Inductive error : Type :=
| errors_New (text : string)
| fmt_Errorf (format : string) (arg : string)
| NumError (Func : string) (Num : string) (Err : strconv_err.t)
| time_error (text : string) (operands : list string).

(** How a call ends: it returns an error or nil, or it panics. *)
Inductive outcome : Type :=
| Return (err : option error)
| Panic (text : string).

(** ** Package [strings] *)

Definition byte (c : ascii) : Z := Z.of_N (N_of_ascii c).

(** [lo <= c && c <= hi] on bytes. *)
Definition between (lo : ascii) (c : Z) (hi : ascii) : bool :=
  (byte lo <=? c)%Z && (c <=? byte hi)%Z.

Module strings.

(** [strings.HasPrefix]. *)
Fixpoint HasPrefix (s pre : string) : bool :=
  match pre, s with
  | EmptyString, _ => true
  | String p pre', String c s' => Ascii.eqb p c && HasPrefix s' pre'
  | String _ _, EmptyString => false
  end.

(** [Split] for a non-empty separator: cut at every occurrence of [sep],
    leftmost first and not overlapping. [skip] counts the bytes of a found
    separator still to pass, [cur] is the piece being read, reversed. *)
Fixpoint split_go (sep s : string) (skip : nat) (cur : string)
    : list string :=
  match s with
  | EmptyString => [String.rev cur]
  | String c s' =>
      match skip with
      | S k => split_go sep s' k cur
      | O =>
          if HasPrefix s sep
          then String.rev cur :: split_go sep s' (String.length sep - 1) ""
          else split_go sep s' 0 (String c cur)
      end
  end.

(** [strings.Split(s, sep)], for the non-empty separators the package
    uses. *)
Definition Split (s sep : string) : list string := split_go sep s 0 "".

(** The table [asciiSpace]. *)
Definition asciiSpace (c : ascii) : bool :=
  match c with
  | "009" | "010" | "011" | "012" | "013" | " " => true
  | _ => false
  end%char.

(** A white-space rune ([unicode.IsSpace]) at the head of the UTF-8 string
    [s]: the rest of the string after it. Besides the six ASCII spaces these
    are U+0085, U+00A0, U+1680, U+2000 to U+200A, U+2028, U+2029, U+202F,
    U+205F and U+3000. *)
Definition space_rune_first (s : string) : option string :=
  match s with
  | EmptyString => None
  | String c r =>
      if asciiSpace c then Some r
      else
        match s with
        | String "194" (String "133" r') => Some r'
        | String "194" (String "160" r') => Some r'
        | String "225" (String "154" (String "128" r')) => Some r'
        | String "226" (String "128" (String c3 r')) =>
            if between "128" (byte c3) "138"
               || Ascii.eqb c3 "168" || Ascii.eqb c3 "169"
               || Ascii.eqb c3 "175"
            then Some r' else None
        | String "226" (String "129" (String "159" r')) => Some r'
        | String "227" (String "128" (String "128" r')) => Some r'
        | _ => None
        end
  end%char.

(** The same at the end of the string, on the reversed string [s]. *)
Definition space_rune_last (s : string) : option string :=
  match s with
  | EmptyString => None
  | String c r =>
      if asciiSpace c then Some r
      else
        match s with
        | String "133" (String "194" r') => Some r'
        | String "160" (String "194" r') => Some r'
        | String "128" (String "154" (String "225" r')) => Some r'
        | String c3 (String "128" (String "226" r')) =>
            if between "128" (byte c3) "138"
               || Ascii.eqb c3 "168" || Ascii.eqb c3 "169"
               || Ascii.eqb c3 "175"
            then Some r' else None
        | String "159" (String "129" (String "226" r')) => Some r'
        | String "128" (String "128" (String "227" r')) => Some r'
        | _ => None
        end
  end%char.

(** Strip white-space runes off the head with [strip], at most [n] of
    them. *)
Fixpoint trim_go (strip : string -> option string) (n : nat) (s : string)
    : string :=
  match n with
  | O => s
  | S n' =>
      match strip s with
      | Some r => trim_go strip n' r
      | None => s
      end
  end.

Definition TrimLeftSpace (s : string) : string :=
  trim_go space_rune_first (String.length s) s.

Definition TrimRightSpace (s : string) : string :=
  String.rev (trim_go space_rune_last (String.length s) (String.rev s)).

(** [strings.TrimSpace]: all leading and trailing white space removed. *)
Definition TrimSpace (s : string) : string :=
  TrimRightSpace (TrimLeftSpace s).

End strings.

(** ** Package [strconv] *)

(** Conversion to [int64] and to [uint64], with Go's wrap-around. *)
Definition to_uint64 (z : Z) : Z := (z mod 2 ^ 64)%Z.
Definition to_int64 (z : Z) : Z := ((z + 2 ^ 63) mod 2 ^ 64 - 2 ^ 63)%Z.

(** [float64] arithmetic, on the IEEE 754 binary64 format. *)
Module float64.
Definition prec : Z := 53.
Definition emax : Z := 1024.
Definition of_Z (n : Z) : spec_float := binary_normalize prec emax n 0 false.
Definition mul : spec_float -> spec_float -> spec_float := SFmul prec emax.
Definition div : spec_float -> spec_float -> spec_float := SFdiv prec emax.

(** Conversion of a float that is not negative to [uint64]: the fraction
    is discarded. *)
Definition to_uint64 (x : spec_float) : Z :=
  match x with
  | S754_finite false m e =>
      match e with
      | Z0 => Zpos m
      | Zpos p => Z.shiftl (Zpos m) (Zpos p)
      | Zneg p => Z.shiftr (Zpos m) (Zpos p)
      end
  | _ => 0%Z
  end.
End float64.

Module strconv.
Import strconv_err.
Local Open Scope Z_scope.

(** [strconv.IntSize], the size in bits of [int] and [uint], on a 64-bit
    platform. *)
Definition IntSize : Z := 64.
Definition maxUint64 : Z := 2 ^ 64 - 1.

(** [lower(c)] is [c | ('x' - 'X')]. *)
Definition lower (c : Z) : Z := Z.lor c 32.

Definition syntaxError (fn str : string) : error := NumError fn str ErrSyntax.
Definition rangeError (fn str : string) : error := NumError fn str ErrRange.
Definition baseError (fn str : string) (base : Z) : error :=
  NumError fn str (ErrBase base).
Definition bitSizeError (fn str : string) (bitSize : Z) : error :=
  NumError fn str (ErrBitSize bitSize).

(** The last character seen by [underscoreOK]: ['^'] for the beginning,
    ['0'] for a digit or base prefix, ['_'] for an underscore, ['!'] for
    none of the above. *)
Inductive saw_t : Set := saw_begin | saw_digit | saw_underscore | saw_other.

Fixpoint underscoreOK_loop (hex : bool) (s : string) (saw : saw_t) : bool :=
  match s with
  | EmptyString =>
      match saw with saw_underscore => false | _ => true end
  | String c s' =>
      let b := byte c in
      if between "0" b "9" || (hex && between "a" (lower b) "f")
      then underscoreOK_loop hex s' saw_digit
      else if b =? byte "_" then
        match saw with
        | saw_digit => underscoreOK_loop hex s' saw_underscore
        | _ => false
        end
      else
        match saw with
        | saw_underscore => false
        | _ => underscoreOK_loop hex s' saw_other
        end
  end.

(** [underscoreOK] reports whether the underscores in [s] are allowed:
    only between digits, or between the base prefix and a digit. *)
Definition underscoreOK (s : string) : bool :=
  let s :=
    match s with
    | String c r =>
        if Ascii.eqb c "-" || Ascii.eqb c "+" then r else s
    | EmptyString => s
    end in
  match s with
  | String "0"%char (String c r) =>
      let l := lower (byte c) in
      if (l =? byte "b") || (l =? byte "o") || (l =? byte "x")
      then underscoreOK_loop (l =? byte "x") r saw_digit
      else underscoreOK_loop false s saw_begin
  | _ => underscoreOK_loop false s saw_begin
  end.

Definition digit_val (c : Z) : option Z :=
  if between "0" c "9" then Some (c - byte "0")
  else if between "a" (lower c) "z" then Some (lower c - byte "a" + 10)
  else None.

Inductive loop_result : Set :=
| loop_done (n : Z) (underscores : bool)
| loop_syntax
| loop_range.

(** The loop [for _, c := range []byte(s)] of [ParseUint]. *)
Fixpoint ParseUint_loop (base0 : bool) (base cutoff maxVal : Z)
    (s : string) (n : Z) (underscores : bool) : loop_result :=
  match s with
  | EmptyString => loop_done n underscores
  | String c s' =>
      let c := byte c in
      if (c =? byte "_") && base0
      then ParseUint_loop base0 base cutoff maxVal s' n true
      else
        match digit_val c with
        | None => loop_syntax
        | Some d =>
            if d >=? base then loop_syntax
            else if n >=? cutoff then loop_range
            else
              let n := n * base in
              let n1 := to_uint64 (n + d) in
              if (n1 <? n) || (n1 >? maxVal) then loop_range
              else ParseUint_loop base0 base cutoff maxVal s' n1 underscores
        end
  end.

(** The base to read [s] in and the digits left, for [base == 0]: the
    prefixes [0b], [0o], [0x], or a leading [0] for octal. *)
Definition base_prefix (s : string) : Z * string :=
  match s with
  | String "0"%char r =>
      match r with
      | String c (String _ _ as r2) =>
          let l := lower (byte c) in
          if l =? byte "b" then (2, r2)
          else if l =? byte "o" then (8, r2)
          else if l =? byte "x" then (16, r2)
          else (8, r)
      | _ => (8, r)
      end
  | _ => (10, s)
  end.

Definition fnParseUint : string := "ParseUint".

(** [strconv.ParseUint(s, base, bitSize)]. *)
Definition ParseUint (s : string) (base bitSize : Z) : Z * option error :=
  match s with
  | EmptyString => (0, Some (syntaxError fnParseUint s))
  | _ =>
      let base0 := base =? 0 in
      let s0 := s in
      let chosen :=
        if (2 <=? base) && (base <=? 36) then Some (base, s)
        else if base =? 0 then Some (base_prefix s)
        else None in
      match chosen with
      | None => (0, Some (baseError fnParseUint s0 base))
      | Some (base, s) =>
          let bitSize := if bitSize =? 0 then IntSize else bitSize in
          if (bitSize <? 0) || (bitSize >? 64)
          then (0, Some (bitSizeError fnParseUint s0 bitSize))
          else
            let cutoff := maxUint64 / base + 1 in
            let maxVal := to_uint64 (to_uint64 (Z.shiftl 1 bitSize) - 1) in
            match ParseUint_loop base0 base cutoff maxVal s 0 false with
            | loop_syntax => (0, Some (syntaxError fnParseUint s0))
            | loop_range => (maxVal, Some (rangeError fnParseUint s0))
            | loop_done n underscores =>
                if underscores && negb (underscoreOK s0)
                then (0, Some (syntaxError fnParseUint s0))
                else (n, None)
            end
      end
  end.

Definition fnParseInt : string := "ParseInt".

(** [strconv.ParseInt(s, base, bitSize)]. *)
Definition ParseInt (s : string) (base bitSize : Z) : Z * option error :=
  match s with
  | EmptyString => (0, Some (syntaxError fnParseInt s))
  | String c r =>
      let s0 := s in
      let '(neg, s) :=
        if Ascii.eqb c "+" then (false, r)
        else if Ascii.eqb c "-" then (true, r)
        else (false, s) in
      let '(un, err) := ParseUint s base 64 in
      match err with
      | Some (NumError _ _ ErrRange) | None =>
          let bitSize := if bitSize =? 0 then IntSize else bitSize in
          let cutoff := to_uint64 (Z.shiftl 1 (bitSize - 1)) in
          if negb neg && (un >=? cutoff)
          then (to_int64 (cutoff - 1), Some (rangeError fnParseInt s0))
          else if neg && (un >? cutoff)
          then (to_int64 (- to_int64 cutoff),
                Some (rangeError fnParseInt s0))
          else
            let n := to_int64 un in
            (if neg then to_int64 (- n) else n, None)
      | Some (NumError _ _ e) => (0, Some (NumError fnParseInt s0 e))
      | Some e => (0, Some e)
      end
  end.

(** [strconv.ParseBool]. *)
Definition ParseBool (str : string) : bool * option error :=
  if existsb (String.eqb str) ["1"; "t"; "T"; "true"; "TRUE"; "True"]
  then (true, None)
  else if existsb (String.eqb str)
            ["0"; "f"; "F"; "false"; "FALSE"; "False"]
  then (false, None)
  else (false, Some (syntaxError "ParseBool" str)).

(** *** [ParseFloat] *)

(** [commonPrefixLenIgnoreCase(s, prefix)], for a lower-case [prefix]. *)
Fixpoint commonPrefixLenIgnoreCase (s pre : string) : nat :=
  match s, pre with
  | String c s', String p pre' =>
      let c := byte c in
      let c := if between "A" c "Z" then c + (byte "a" - byte "A") else c in
      if c =? byte p then S (commonPrefixLenIgnoreCase s' pre') else O
  | _, _ => O
  end.

(** [special]: the possibly signed "inf" and "infinity", and "nan", in any
    case; the value and the number of bytes read. *)
Definition special (s : string) : option (spec_float * nat) :=
  let inf (sign : bool) (nsign : nat) (s : string) :=
    let n := commonPrefixLenIgnoreCase s "infinity" in
    let n := if (3 <? n)%nat && (n <? 8)%nat then 3%nat else n in
    if (n =? 3)%nat || (n =? 8)%nat
    then Some (S754_infinity sign, (nsign + n)%nat) else None in
  match s with
  | EmptyString => None
  | String c r =>
      if Ascii.eqb c "+" then inf false 1%nat r
      else if Ascii.eqb c "-" then inf true 1%nat r
      else if Ascii.eqb c "i" || Ascii.eqb c "I" then inf false 0%nat s
      else if Ascii.eqb c "n" || Ascii.eqb c "N" then
        if (commonPrefixLenIgnoreCase s "nan" =? 3)%nat
        then Some (S754_nan, 3%nat) else None
      else None
  end.

(** The state of the digit loop of [readFloat]. Go keeps the first 19
    digits (16 in base 16) in [mantissa] and notes in [trunc] that more
    followed, and the conversion then rounds as if it had them all; here
    [mantissa] holds all [nd] digits. *)
Record digits : Set := mkDigits {
  mantissa : Z;
  nd : Z;
  dp : Z;
  sawdot : bool;
  sawdigits : bool;
  underscores : bool
}.

Fixpoint readDigits (base : Z) (s : string) (st : digits)
    : digits * string :=
  match s with
  | EmptyString => (st, s)
  | String c s' =>
      let c := byte c in
      if c =? byte "_" then
        readDigits base s'
          (mkDigits (mantissa st) (nd st) (dp st) (sawdot st)
             (sawdigits st) true)
      else if c =? byte "." then
        if sawdot st then (st, s)
        else
          readDigits base s'
            (mkDigits (mantissa st) (nd st) (nd st) true (sawdigits st)
               (underscores st))
      else if between "0" c "9" then
        if (c =? byte "0") && (nd st =? 0) then
          readDigits base s'
            (mkDigits (mantissa st) (nd st) (dp st - 1) (sawdot st) true
               (underscores st))
        else
          readDigits base s'
            (mkDigits (mantissa st * base + (c - byte "0")) (nd st + 1)
               (dp st) (sawdot st) true (underscores st))
      else if (base =? 16) && between "a" (lower c) "f" then
        readDigits base s'
          (mkDigits (mantissa st * 16 + (lower c - byte "a" + 10))
             (nd st + 1) (dp st) (sawdot st) true (underscores st))
      else (st, s)
  end.

(** The loop over the digits of the exponent; it stops accumulating at
    10000. *)
Fixpoint readExp (s : string) (e : Z) (underscores : bool)
    : Z * bool * string :=
  match s with
  | EmptyString => (e, underscores, s)
  | String c s' =>
      let c := byte c in
      if c =? byte "_" then readExp s' e true
      else if between "0" c "9" then
        readExp s' (if e <? 10000 then e * 10 + c - byte "0" else e)
          underscores
      else (e, underscores, s)
  end.

(** The result of [readFloat]: the number is
    [mantissa * 10^exp] ([mantissa * 2^exp] when [hex]), negated when
    [neg]; [rest] is the input after the [i] bytes read. *)
Record floatLit : Set := mkFloatLit {
  lit_mantissa : Z;
  lit_exp : Z;
  lit_neg : bool;
  lit_hex : bool;
  lit_rest : string
}.

(** [readFloat]; [None] when [ok] is false. *)
Definition readFloat (s0 : string) : option floatLit :=
  match s0 with
  | EmptyString => None
  | String c r =>
      let '(neg, s) :=
        if Ascii.eqb c "+" then (false, r)
        else if Ascii.eqb c "-" then (true, r)
        else (false, s0) in
      let '(base, hex, s) :=
        match s with
        | String "0"%char (String x (String _ _ as s2)) =>
            if lower (byte x) =? byte "x" then (16, true, s2)
            else (10, false, s)
        | _ => (10, false, s)
        end in
      let '(st, s) :=
        readDigits base s (mkDigits 0 0 0 false false false) in
      if negb (sawdigits st) then None
      else
        let dp := if sawdot st then dp st else nd st in
        let '(dp, ndMant) :=
          if hex then (dp * 4, nd st * 4) else (dp, nd st) in
        let expChar := if hex then byte "p" else byte "e" in
        let after_exp :=
          match s with
          | String ce s1 =>
              if lower (byte ce) =? expChar then
                match s1 with
                | EmptyString => None
                | String cs s2 =>
                    let '(esign, s3) :=
                      if Ascii.eqb cs "+" then (1, s2)
                      else if Ascii.eqb cs "-" then (-1, s2)
                      else (1, s1) in
                    match s3 with
                    | String cd _ =>
                        if between "0" (byte cd) "9" then
                          let '(e, us, s4) :=
                            readExp s3 0 (underscores st) in
                          Some (dp + e * esign, us, s4)
                        else None
                    | EmptyString => None
                    end
                end
              else if hex then None
              else Some (dp, underscores st, s)
          | EmptyString =>
              if hex then None else Some (dp, underscores st, s)
          end in
        match after_exp with
        | None => None
        | Some (dp, us, rest) =>
            let exp := if mantissa st =? 0 then 0 else dp - ndMant in
            let read :=
              String.substring 0
                (String.length s0 - String.length rest) s0 in
            if us && negb (underscoreOK read) then None
            else Some (mkFloatLit (mantissa st) exp neg hex rest)
        end
  end.

(** The float of precision [prec] and exponents below [emax] nearest to
    the number a literal denotes, ties to even; an infinity when beyond
    the range. *)
Definition nearest (prec emax : Z) (l : floatLit) : spec_float :=
  match lit_mantissa l with
  | Zpos m =>
      if lit_hex l then binary_round prec emax (lit_neg l) m (lit_exp l)
      else
        match lit_exp l with
        | Zneg e =>
            SFdiv prec emax (S754_finite (lit_neg l) m 0)
              (S754_finite false (10 ^ e)%positive 0)
        | e => binary_round prec emax (lit_neg l) (m * Z.to_pos (10 ^ e)) 0
        end
  | _ => S754_zero (lit_neg l)
  end.

Definition fnParseFloat : string := "ParseFloat".

(** [strconv.ParseFloat(s, bitSize)]: the whole of [s] must be a
    floating-point literal of Go, decimal or hexadecimal, or one of the
    special names; the result is the nearest [float32] when [bitSize] is
    32 and the nearest [float64] otherwise, with a range error on
    overflow. *)
Definition ParseFloat (s : string) (bitSize : Z) : spec_float * option error :=
  let '(prec, emax) := if bitSize =? 32 then (24, 128) else (53, 1024) in
  match special s with
  | Some (f, n) =>
      if (n =? String.length s)%nat then (f, None)
      else (S754_zero false, Some (syntaxError fnParseFloat s))
  | None =>
      match readFloat s with
      | None => (S754_zero false, Some (syntaxError fnParseFloat s))
      | Some l =>
          match lit_rest l with
          | EmptyString =>
              match nearest prec emax l with
              | S754_infinity sg =>
                  (S754_infinity sg, Some (rangeError fnParseFloat s))
              | f => (f, None)
              end
          | _ => (S754_zero false, Some (syntaxError fnParseFloat s))
          end
      end
  end.

End strconv.

(** ** Package [time] *)

Module time.
Local Open Scope Z_scope.

Definition Nanosecond : Z := 1.
Definition Microsecond : Z := 1000 * Nanosecond.
Definition Millisecond : Z := 1000 * Microsecond.
Definition Second : Z := 1000 * Millisecond.
Definition Minute : Z := 60 * Second.
Definition Hour : Z := 60 * Minute.

(** [unitMap]; the two spellings of the micro sign are U+00B5 and
    U+03BC. *)
Definition unitMap (u : string) : option Z :=
  if String.eqb u "ns" then Some Nanosecond
  else if String.eqb u "us" then Some Microsecond
  else if String.eqb u (String "194" (String "181" "s"))
  then Some Microsecond
  else if String.eqb u (String "206" (String "188" "s"))
  then Some Microsecond
  else if String.eqb u "ms" then Some Millisecond
  else if String.eqb u "s" then Some Second
  else if String.eqb u "m" then Some Minute
  else if String.eqb u "h" then Some Hour
  else None.

(** [leadingInt] consumes the leading [[0-9]*] from [s]; [None] is
    [errLeadingInt], the overflow. *)
Fixpoint leadingInt (s : string) (x : Z) : option (Z * string) :=
  match s with
  | EmptyString => Some (x, s)
  | String c s' =>
      let c := byte c in
      if (c <? byte "0") || (c >? byte "9") then Some (x, s)
      else if x >? 2 ^ 63 / 10 then None
      else
        let x := to_uint64 (x * 10 + c - byte "0") in
        if x >? 2 ^ 63 then None else leadingInt s' x
  end.

(** [leadingFraction] consumes the leading [[0-9]*] from [s]; on overflow
    it stops accumulating precision. *)
Fixpoint leadingFraction (s : string) (x : Z) (scale : spec_float)
    (overflow : bool) : Z * spec_float * string :=
  match s with
  | EmptyString => (x, scale, s)
  | String c s' =>
      let c := byte c in
      if (c <? byte "0") || (c >? byte "9") then (x, scale, s)
      else if overflow then leadingFraction s' x scale overflow
      else if x >? (2 ^ 63 - 1) / 10
      then leadingFraction s' x scale true
      else
        let y := to_uint64 (x * 10 + c - byte "0") in
        if y >? 2 ^ 63 then leadingFraction s' x scale true
        else
          leadingFraction s' y (float64.mul scale (float64.of_Z 10))
            overflow
  end.

(** The unit: the bytes up to the next ['.'] or digit. *)
Fixpoint span_unit (s : string) : string * string :=
  match s with
  | EmptyString => (EmptyString, s)
  | String c s' =>
      let b := byte c in
      if (b =? byte ".") || between "0" b "9" then (EmptyString, s)
      else let '(u, rest) := span_unit s' in (String c u, rest)
  end.

Definition invalid_duration (orig : string) : error :=
  time_error "time: invalid duration " [orig].

(** The loop [for s != ""] of [ParseDuration]; every round consumes at
    least the unit, so [String.length s] rounds are enough. *)
Fixpoint ParseDuration_loop (fuel : nat) (orig s : string) (d : Z)
    : Z * option error :=
  match s with
  | EmptyString => (d, None)
  | String c0 _ =>
      match fuel with
      | O => (0, Some (invalid_duration orig))
      | S fuel =>
          if negb (Ascii.eqb c0 "." || between "0" (byte c0) "9")
          then (0, Some (invalid_duration orig))
          else
            let pl := String.length s in
            match leadingInt s 0 with
            | None => (0, Some (invalid_duration orig))
            | Some (v, s) =>
                let pre := negb (Nat.eqb pl (String.length s)) in
                let '(f, scale, s, post) :=
                  match s with
                  | String "."%char s1 =>
                      let pl := String.length s1 in
                      let '(f, scale, s2) :=
                        leadingFraction s1 0 (float64.of_Z 1) false in
                      (f, scale, s2,
                       negb (Nat.eqb pl (String.length s2)))
                  | _ => (0, float64.of_Z 1, s, false)
                  end in
                if negb pre && negb post
                then (0, Some (invalid_duration orig))
                else
                  let '(u, s) := span_unit s in
                  match u with
                  | EmptyString =>
                      (0, Some (time_error
                                  "time: missing unit in duration " [orig]))
                  | _ =>
                      match unitMap u with
                      | None =>
                          (0, Some (time_error "time: unknown unit "
                                      [u; orig]))
                      | Some unit =>
                          if v >? 2 ^ 63 / unit
                          then (0, Some (invalid_duration orig))
                          else
                            let v := to_uint64 (v * unit) in
                            let v :=
                              if f >? 0 then
                                to_uint64
                                  (v + float64.to_uint64
                                         (float64.mul (float64.of_Z f)
                                            (float64.div
                                               (float64.of_Z unit) scale)))
                              else v in
                            if (f >? 0) && (v >? 2 ^ 63)
                            then (0, Some (invalid_duration orig))
                            else
                              let d := to_uint64 (d + v) in
                              if d >? 2 ^ 63
                              then (0, Some (invalid_duration orig))
                              else ParseDuration_loop fuel orig s d
                      end
                  end
            end
      end
  end.

(** [time.ParseDuration]: a possibly signed sequence of decimal numbers,
    each with optional fraction and a unit suffix. *)
Definition ParseDuration (s : string) : Z * option error :=
  let orig := s in
  let '(neg, s) :=
    match s with
    | String c r =>
        if Ascii.eqb c "-" || Ascii.eqb c "+"
        then (Ascii.eqb c "-", r) else (false, s)
    | EmptyString => (false, s)
    end in
  if String.eqb s "0" then (0, None)
  else if String.eqb s "" then (0, Some (invalid_duration orig))
  else
    match ParseDuration_loop (String.length s) orig s 0 with
    | (_, Some e) => (0, Some e)
    | (d, None) =>
        if neg then (to_int64 (- to_int64 d), None)
        else if d >? 2 ^ 63 - 1 then (0, Some (invalid_duration orig))
        else (to_int64 d, None)
    end.

End time.
(** ** [reflect.Value] handles

    A handle names a location inside the record [Process] was given by the
    path of field indices that leads to it from the record's root, and
    carries the flags [CanSet] reads. *)
Record Value : Type := mkValue {
  v_path : list nat;
  v_typ : gotype;
  flagAddr : bool;
  flagStickyRO : bool;
  flagEmbedRO : bool
}.

(** [Value.Elem()] of the pointer [Process] received: addressable and
    writable. *)
Definition Elem_root (t : gotype) : Value :=
  mkValue [] t true false false.

(** [Value.CanSet()]: [flag&(flagAddr|flagRO) == flagAddr]. *)
Definition CanSet (v : Value) : bool :=
  flagAddr v && negb (flagStickyRO v || flagEmbedRO v).

(** [Value.Field(i)] for a field [f] that is the [i]-th of the struct: the
    sticky read-only flag and addressability are inherited, and an unexported
    field is read-only. *)
Definition Field (v : Value) (i : nat) (f : StructField gotype) : Value :=
  mkValue (v_path v ++ [i]) (Type_ f) (flagAddr v)
    (flagStickyRO v || (negb (Exported f) && negb (Anonymous f)))
    (negb (Exported f) && Anonymous f).

(** [reflect.ValueOf(v.Addr().Interface()).Elem()]: a fresh handle on the same
    location, for a settable [v]. *)
Definition Addr_Elem (v : Value) : Value :=
  mkValue (v_path v) (v_typ v) true false false.

(** ** The field walker *)

(** [queueObject] is the private struct used to walk through the config
    struct. *)
Record queueObject : Type := mkQueueObject {
  spec : Value;
  specType : gotype;
  field : Value;
  fieldType : StructField gotype;
  prefix : string
}.

(** The loop [for i := 0; i < s.NumField(); i++ { queue = append(queue, ...) }]
    run from index [i] over the remaining fields [fs] of [s]. *)
Fixpoint enqueue_fields (s : Value) (typeOfSpec : gotype) (pfx : string)
    (i : nat) (fs : list (StructField gotype)) (queue : list queueObject)
    : list queueObject :=
  match fs with
  | [] => queue
  | ftype :: rest =>
      enqueue_fields s typeOfSpec pfx (S i) rest
        (queue ++ [mkQueueObject s typeOfSpec (Field s i ftype) ftype pfx])
  end.

Definition queue_weight (queue : list queueObject) : nat :=
  list_sum (map (fun q => typ_size (v_typ (field q))) queue).

(** A queue as [Process] builds it: the type of every handle is the declared
    type of its field. *)
Definition queue_ok (queue : list queueObject) : Prop :=
  Forall (fun q => v_typ (field q) = Type_ (fieldType q)) queue.

Lemma typ_size_pos (t : gotype) : 0 < typ_size t.
Proof. destruct t; simpl; lia. Qed.

Lemma fields_size_lt (t : gotype) :
  list_sum (map (fun f => typ_size (Type_ f)) (fields_of t)) < typ_size t.
Proof. destruct t; simpl; lia. Qed.

Lemma queue_weight_app (q1 q2 : list queueObject) :
  queue_weight (q1 ++ q2) = queue_weight q1 + queue_weight q2.
Proof. unfold queue_weight. now rewrite map_app, list_sum_app. Qed.

Lemma queue_weight_enqueue s t pfx fs : forall i queue,
  queue_weight (enqueue_fields s t pfx i fs queue)
  = queue_weight queue + list_sum (map (fun f => typ_size (Type_ f)) fs).
Proof.
  induction fs as [|f fs IH]; intros i queue; simpl.
  - lia.
  - rewrite IH, queue_weight_app. unfold queue_weight at 2. simpl. lia.
Qed.

(** The loop [for { if len(queue) == 0 { break }; q := queue[0]; ... }] of
    [Process], which fills [infos]. The queue shrinks in the total size of
    the types still to visit. *)
Equations? walk (queue : list queueObject) (infos : gmap string Value)
    : gmap string Value by wf (queue_weight queue) lt :=
  walk [] infos := infos;
  walk (q :: queue) infos :=
    if negb (CanSet (field q)) then walk queue infos
    else
      let ssmparam := Tag (fieldType q) in
      if reflect.Kind_eqb (Kind (v_typ (field q))) reflect.Struct then
        let s := Addr_Elem (field q) in
        let typeOfSpec := v_typ s in
        walk (enqueue_fields s typeOfSpec (prefix q +:+ ssmparam) 0
                (fields_of typeOfSpec) queue) infos
      else if String.eqb ssmparam "" then walk queue infos
      else walk queue (<[prefix q +:+ ssmparam := field q]> infos).
Proof.
  all: try (unfold queue_weight; simpl;
            pose proof (typ_size_pos (v_typ (field q))); lia).
  rewrite queue_weight_enqueue.
  pose proof (fields_size_lt (v_typ (field q))).
  subst typeOfSpec. unfold queue_weight in *; simpl in *; lia.
Qed.

(** The walk [Process] runs: every field of the root struct is queued with
    the call prefix, then the queue is worked off. *)
Definition walk_root (pfx : string) (t : gotype) : gmap string Value :=
  walk (enqueue_fields (Elem_root t) t pfx 0 (fields_of t) []) ∅.

(** [descend f rest] follows the field indices [rest] down from field [f]:
    the fields passed on the way (the ancestors, outermost first) and the
    field reached. *)
Fixpoint descend (f : StructField gotype) (rest : list nat)
    : option (list (StructField gotype) * StructField gotype) :=
  match rest with
  | [] => Some ([], f)
  | j :: rest' =>
      match fields_of (Type_ f) !! j with
      | Some g =>
          match descend g rest' with
          | Some (anc, leaf) => Some (f :: anc, leaf)
          | None => None
          end
      | None => None
      end
  end.

(** The ancestors and the leaf a path of field indices names in a struct
    type. *)
Definition resolve (t : gotype) (path : list nat)
    : option (list (StructField gotype) * StructField gotype) :=
  match path with
  | [] => None
  | i :: rest =>
      match fields_of t !! i with
      | Some f => descend f rest
      | None => None
      end
  end.

Definition is_struct (t : gotype) : bool :=
  reflect.Kind_eqb (Kind t) reflect.Struct.

(** A bound leaf: a writable field that is not a sub-record and carries a
    tag, below writable sub-records only. *)
Definition bound (anc : list (StructField gotype)) (leaf : StructField gotype)
    : bool :=
  forallb (fun f => Exported f && is_struct (Type_ f)) anc
  && Exported leaf && negb (is_struct (Type_ leaf))
  && negb (String.eqb (Tag leaf) "").

(** The fully-qualified parameter name: the call prefix, then the tag of
    every ancestor, then the leaf's own tag. *)
Definition qualified_name (pfx : string) (anc : list (StructField gotype))
    (leaf : StructField gotype) : string :=
  pfx +:+ foldr String.append "" (map Tag anc) +:+ Tag leaf.

(** Two records of the package's tests. *)
Definition NestedStringConfig : gotype :=
  TStruct [mkField "NestedKey" "/nested/key" true false (TBasic Tstring)].
Definition SmallConfig : gotype :=
  TStruct [mkField "Nested" "/prefixnested" true false NestedStringConfig].



(** ** The value decoder *)

(** [Type.Bits()], for the sized kinds. [int] and [uint] have
    [strconv.IntSize] bits. *)
Definition Bits (t : gotype) : Z :=
  match Kind t with
  | reflect.Int | reflect.Uint | reflect.Uintptr => strconv.IntSize
  | reflect.Int8 | reflect.Uint8 => 8
  | reflect.Int16 | reflect.Uint16 => 16
  | reflect.Int32 | reflect.Uint32 | reflect.Float32 => 32
  | reflect.Int64 | reflect.Uint64 | reflect.Float64
  | reflect.Complex64 => 64
  | reflect.Complex128 => 128
  | _ => 0
  end%Z.

(** [field.Kind() == reflect.Int64 && typ.PkgPath() == "time" &&
    typ.Name() == "Duration"]; a type that is not defined has the empty
    package path. *)
Definition isDuration (t : gotype) : bool :=
  match t with
  | TNamed pkg name b =>
      reflect.Kind_eqb (basic_Kind b) reflect.Int64
      && String.eqb pkg "time" && String.eqb name "Duration"
  | _ => false
  end.

(** [Value.SetInt(x)]: [x] converted to the integer type of the field. *)
Definition SetInt (t : gotype) (x : Z) : goval :=
  VInt ((x + 2 ^ (Bits t - 1)) mod 2 ^ Bits t - 2 ^ (Bits t - 1))%Z.

(** [Value.SetUint(x)]. *)
Definition SetUint (t : gotype) (x : Z) : goval :=
  VUint (x mod 2 ^ Bits t)%Z.

(** [Value.SetFloat(x)]: for a [float32] field [x] is converted, that is
    rounded, to [float32]. *)
Definition SetFloat (t : gotype) (x : spec_float) : goval :=
  match Kind t, x with
  | reflect.Float32, S754_finite s m e => VFloat (binary_round 24 128 s m e)
  | _, _ => VFloat x
  end.

(** [Value.Index(i)] of a slice, read. The decoder stays in range. *)
Definition Index (sl : list goval) (i : nat) : goval := nth i sl VOther.

(** [[]byte(value)]. *)
Definition bytes_of (s : string) : list goval :=
  map (fun c => VUint (byte c)) (list_ascii_of_string s).

(** Go's [==] on the values of comparable types, as map keys are compared:
    floats by IEEE equality, so that a NaN equals nothing and the two zeros
    are one key. *)
Fixpoint go_eqb (a b : goval) : bool :=
  let fix all2 (xs ys : list goval) : bool :=
    match xs, ys with
    | [], [] => true
    | x :: xs', y :: ys' => go_eqb x y && all2 xs' ys'
    | _, _ => false
    end in
  match a, b with
  | VBool x, VBool y => Bool.eqb x y
  | VInt x, VInt y | VUint x, VUint y => Z.eqb x y
  | VFloat x, VFloat y => SFeqb x y
  | VString x, VString y => String.eqb x y
  | VArray xs, VArray ys | VStruct xs, VStruct ys => all2 xs ys
  | VPtr None, VPtr None => true
  | VOther, VOther => true
  | _, _ => false
  end.

(** [mp.SetMapIndex(k, v)]: the entry of a key already present is
    overwritten, key and value (the runtime stores the new key where equal
    keys can differ, as the two zeros of a float do), and a new key is
    added. *)
Fixpoint SetMapIndex (mp : list (goval * goval)) (k v : goval)
    : list (goval * goval) :=
  match mp with
  | [] => [(k, v)]
  | (k', v') :: rest =>
      if go_eqb k' k then (k, v) :: rest
      else (k', v') :: SetMapIndex rest k v
  end.

(** Whether a [[]uint8] is assignable to a slice type with the element type
    [elem]: the element type has to be [uint8] itself. *)
Definition bytes_assignable (elem : gotype) : bool :=
  match elem with
  | TBasic Tuint8 => true
  | _ => false
  end.

(** The name of a package, taken to be the last element of its import path,
    as it is for [main] and [time] and by convention elsewhere. *)
Definition package_name (path : string) : string :=
  List.last (strings.Split path "/") "".

(** [Type.String()] of a defined type: the name of the type, qualified by
    the name of its package. *)
Definition type_String (t : gotype) : string :=
  match t with
  | TNamed pkg name _ => package_name pkg +:+ "." +:+ name
  | _ => ""
  end.

(** What [field.Set(sl)] panics with when [sl] is a [[]uint8] and the field
    a slice of the defined type [elem]. *)
Definition Set_panic (elem : gotype) : string :=
  "reflect.Set: value of type []uint8 is not assignable to type []"
  +:+ type_String elem.

(** The loop [for i, val := range vals] of the slice case, from index [i]
    on: [pf val] decodes [val] into the element [sl.Index(i)], and the first
    error or panic ends the loop. *)
Fixpoint range_vals (pf : string -> goval -> goval * outcome)
    (vals : list string) (i : nat) (sl : list goval)
    : list goval * outcome :=
  match vals with
  | [] => (sl, Return None)
  | val :: rest =>
      let '(elem, out) := pf val (Index sl i) in
      let sl := <[i := elem]> sl in
      match out with
      | Return None => range_vals pf rest (S i) sl
      | _ => (sl, out)
      end
  end.

(** The loop [for _, pair := range pairs] of the map case: [pfk] and [pfv]
    decode into the fresh values [k] and [v], of the key and element
    types. *)
Fixpoint range_pairs (pfk pfv : string -> goval -> goval * outcome)
    (zk zv : goval) (pairs : list string) (mp : list (goval * goval))
    : list (goval * goval) * outcome :=
  match pairs with
  | [] => (mp, Return None)
  | pair_ :: rest =>
      let kvpair := strings.Split pair_ ":" in
      if negb (length kvpair =? 2)%nat
      then (mp, Return (Some (fmt_Errorf "invalid map item: %q" pair_)))
      else
        let '(k, out) := pfk (nth 0 kvpair "") zk in
        match out with
        | Return None =>
            let '(v, out) := pfv (nth 1 kvpair "") zv in
            match out with
            | Return None =>
                range_pairs pfk pfv zk zv rest (SetMapIndex mp k v)
            | _ => (mp, out)
            end
        | _ => (mp, out)
        end
  end.

(** [processField(value, field)] for a field of type [typ] holding [field]:
    the content of the field afterwards, and the error returned or the
    panic. *)
Fixpoint processField (typ : gotype) (value : string) (field : goval)
    {struct typ} : goval * outcome :=
  match Kind typ with
  | reflect.String => (VString value, Return None)
  | reflect.Int | reflect.Int8 | reflect.Int16 | reflect.Int32
  | reflect.Int64 =>
      let '(val, err) :=
        if isDuration typ then time.ParseDuration value
        else strconv.ParseInt value 0 (Bits typ) in
      match err with
      | Some e => (field, Return (Some e))
      | None => (SetInt typ val, Return None)
      end
  | reflect.Uint | reflect.Uint8 | reflect.Uint16 | reflect.Uint32
  | reflect.Uint64 =>
      let '(val, err) := strconv.ParseUint value 0 (Bits typ) in
      match err with
      | Some e => (field, Return (Some e))
      | None => (SetUint typ val, Return None)
      end
  | reflect.Bool =>
      let '(val, err) := strconv.ParseBool value in
      match err with
      | Some e => (field, Return (Some e))
      | None => (VBool val, Return None)
      end
  | reflect.Float32 | reflect.Float64 =>
      let '(val, err) := strconv.ParseFloat value (Bits typ) in
      match err with
      | Some e => (field, Return (Some e))
      | None => (SetFloat typ val, Return None)
      end
  | reflect.Slice =>
      match typ with
      | TSlice elem =>
          if reflect.Kind_eqb (Kind elem) reflect.Uint8
          then
            if bytes_assignable elem
            then (VSlice (Some (bytes_of value)), Return None)
            else (field, Panic (Set_panic elem))
          else if negb (String.length (strings.TrimSpace value) =? 0)%nat
          then
            let vals := strings.Split value "," in
            let sl := repeat (zero elem) (length vals) in
            match range_vals (processField elem) vals 0 sl with
            | (sl, Return None) => (VSlice (Some sl), Return None)
            | (_, out) => (field, out)
            end
          else (VSlice (Some []), Return None)
      | _ => (field, Return None)
      end
  | reflect.Map =>
      match typ with
      | TMap key elem =>
          if negb (String.length (strings.TrimSpace value) =? 0)%nat
          then
            let pairs := strings.Split value "," in
            match range_pairs (processField key) (processField elem)
                    (zero key) (zero elem) pairs [] with
            | (mp, Return None) => (VMap (Some mp), Return None)
            | (_, out) => (field, out)
            end
          else (VMap (Some []), Return None)
      | _ => (field, Return None)
      end
  | _ => (field, Return None)
  end.

(** ** The parameter store *)

Module aws.
(** [aws.String], [aws.Bool]: a pointer to the value. *)
Definition String (s : string) : option string := Some s.
Definition Bool (b : bool) : option bool := Some b.
(** [aws.StringValue]: the string pointed to, or [""] for nil. *)
Definition StringValue (p : option string) : string :=
  match p with
  | Some s => s
  | None => ""
  end.
End aws.

Module ssm.
(** [ssm.Parameter]; the entries of an output are pointers to these, none of
    them nil. *)
Record Param : Type := mkParam {
  Name : option string;
  Value : option string
}.
Record GetParametersInput : Type := mkGetParametersInput {
  Names : list (option string);
  WithDecryption : option bool
}.
(** [Params] is the field [Parameters]. *)
Record GetParametersOutput : Type := mkGetParametersOutput {
  Params : list Param
}.
End ssm.

(** The one method of [ssmiface.SSMAPI] the package calls: from the request
    to the output, nil or not, and the error. *)
Definition SSMAPI : Type :=
  ssm.GetParametersInput -> option ssm.GetParametersOutput * option error.

(** ** [Process] *)

(** What a call of [Process] leaves behind: its outcome, the argument [spec]
    with the record it points to as it is afterwards, and the requests sent to
    the store, in order. *)
Record processed : Type := mkProcessed {
  result : outcome;
  spec_after : option (gotype * goval);
  requests : list ssm.GetParametersInput
}.

(** [processField(value, f)] on the handle [f] into the record [root]. *)
Definition processField_at (root : goval) (f : Value) (value : string)
    : goval * outcome :=
  match get_path root (v_path f) with
  | Some cur =>
      let '(new, out) := processField (v_typ f) value cur in
      (set_path root (v_path f) new, out)
  | None => (root, Return None)
  end.

(** The loop [for _, param := range out.Parameters]: an error is returned
    at once, and a panic of [processField] is not recovered. *)
Fixpoint range_Parameters (infos : gmap string Value)
    (params : list ssm.Param) (root : goval) : goval * outcome :=
  match params with
  | [] => (root, Return None)
  | param :: rest =>
      match infos !! aws.StringValue (ssm.Name param) with
      | None => range_Parameters infos rest root
      | Some f =>
          let '(root, out) :=
            processField_at root f (aws.StringValue (ssm.Value param)) in
          match out with
          | Return None => range_Parameters infos rest root
          | _ => (root, out)
          end
      end
  end.

Section Process.

(** The order in which [for k := range infos] visits the keys of a map,
    which Go leaves unspecified: some permutation of the keys. *)
Variable range_keys : gmap string Value -> list string.

(** The request [Process] builds from [infos]. *)
Definition GetParametersInput_of (infos : gmap string Value)
    : ssm.GetParametersInput :=
  ssm.mkGetParametersInput (map aws.String (range_keys infos))
    (aws.Bool true).

(** [Process(ssmsvc, prefix, spec)]: [spec] is an interface value, nil or
    a dynamic type with a value, and a pointer is the content of what it
    points to, or nil. *)
Definition Process (ssmsvc : SSMAPI) (prefix : string)
    (spec : option (gotype * goval)) : processed :=
  match spec with
  | Some (TPtr elem, p) =>
      match p with
      | VPtr (Some s) =>
          if negb (reflect.Kind_eqb (Kind elem) reflect.Struct)
          then mkProcessed
                 (Return (Some (errors_New "spec must be a struct type")))
                 spec []
          else
            let infos := walk_root prefix elem in
            let input := GetParametersInput_of infos in
            let '(out, err) := ssmsvc input in
            match err with
            | Some e => mkProcessed (Return (Some e)) spec [input]
            | None =>
                match out with
                | None =>
                    mkProcessed
                      (Panic "invalid memory address or nil pointer dereference")
                      spec [input]
                | Some out =>
                    let '(s, res) :=
                      range_Parameters infos (ssm.Params out) s in
                    mkProcessed res
                      (Some (TPtr elem, VPtr (Some s))) [input]
                end
            end
      | _ =>
          mkProcessed
            (Return (Some (errors_New "spec must be a struct type")))
            spec []
      end
  | _ =>
      mkProcessed
        (Return (Some (errors_New "spec must be non-nil pointer")))
        spec []
  end.

End Process.

(** ** Specification of the decoder *)

(** The segments decoded one by one, each into a fresh zero value [z], in
    order: all the results, or how the first segment that does not decode
    ends, with an error or a panic. *)
Fixpoint decode_each (pf : string -> goval -> goval * outcome)
    (z : goval) (segs : list string) : list goval + outcome :=
  match segs with
  | [] => inl []
  | seg :: rest =>
      match pf seg z with
      | (v, Return None) =>
          match decode_each pf z rest with
          | inl vs => inl (v :: vs)
          | inr out => inr out
          end
      | (_, out) => inr out
      end
  end.

(** The pairs decoded one by one, in order: every pair must split on [":"]
    into exactly a key part and a value part; all the decoded keys and
    values, or how the first pair that does not decode ends. *)
Fixpoint decode_pairs (pfk pfv : string -> goval -> goval * outcome)
    (zk zv : goval) (pairs : list string)
    : list (goval * goval) + outcome :=
  match pairs with
  | [] => inl []
  | p :: rest =>
      match strings.Split p ":" with
      | [ks; vs] =>
          match pfk ks zk with
          | (k, Return None) =>
              match pfv vs zv with
              | (v, Return None) =>
                  match decode_pairs pfk pfv zk zv rest with
                  | inl kvs => inl ((k, v) :: kvs)
                  | inr out => inr out
                  end
              | (_, out) => inr out
              end
          | (_, out) => inr out
          end
      | _ => inr (Return (Some (fmt_Errorf "invalid map item: %q" p)))
      end
  end.

(** A mapping built from left to right. *)
Definition build_map (kvs : list (goval * goval)) : list (goval * goval) :=
  foldl (fun mp kv => SetMapIndex mp (fst kv) (snd kv)) [] kvs.

(** The white-space runes of Unicode, in UTF-8. *)
Definition white_space : list string :=
  [ String "009" ""; String "010" ""; String "011" ""; String "012" "";
    String "013" ""; " ";
    String "194" (String "133" "");
    String "194" (String "160" "");
    String "225" (String "154" (String "128" ""));
    String "226" (String "128" (String "128" ""));
    String "226" (String "128" (String "129" ""));
    String "226" (String "128" (String "130" ""));
    String "226" (String "128" (String "131" ""));
    String "226" (String "128" (String "132" ""));
    String "226" (String "128" (String "133" ""));
    String "226" (String "128" (String "134" ""));
    String "226" (String "128" (String "135" ""));
    String "226" (String "128" (String "136" ""));
    String "226" (String "128" (String "137" ""));
    String "226" (String "128" (String "138" ""));
    String "226" (String "128" (String "168" ""));
    String "226" (String "128" (String "169" ""));
    String "226" (String "128" (String "175" ""));
    String "226" (String "129" (String "159" ""));
    String "227" (String "128" (String "128" "")) ].

(** A raw string that is empty or white space only. *)
Definition whitespace_only (s : string) : Prop :=
  exists runes, Forall (fun r => In r white_space) runes /\
    s = foldr String.append "" runes.

(** ** Specification of [Process] *)

(** The arguments [Process] refuses, with the message of the error: a nil
    interface; a value that is not a pointer; a pointer to something that is
    not a struct; a nil pointer. *)
Inductive InvalidSpec : option (gotype * goval) -> string -> Prop :=
| null_record : InvalidSpec None "spec must be non-nil pointer"
| non_pointer t v :
    Kind t <> reflect.Ptr ->
    InvalidSpec (Some (t, v)) "spec must be non-nil pointer"
| pointer_to_non_struct elem p :
    Kind elem <> reflect.Struct ->
    InvalidSpec (Some (TPtr elem, p)) "spec must be a struct type"
| nil_pointer elem :
    InvalidSpec (Some (TPtr elem, VPtr None)) "spec must be a struct type".

(** A record none of whose fields is bound to a parameter. *)
Definition no_bound_fields (t : gotype) : Prop :=
  forall path anc leaf, resolve t path = Some (anc, leaf) ->
    bound anc leaf = false.

(** The kinds of the signed integers. *)
Definition signed_kind (k : reflect.Kind) : bool :=
  match k with
  | reflect.Int | reflect.Int8 | reflect.Int16 | reflect.Int32
  | reflect.Int64 => true
  | _ => false
  end.

(** The kinds of the unsigned integers the decoder has a case for. *)
Definition unsigned_kind (k : reflect.Kind) : bool :=
  match k with
  | reflect.Uint | reflect.Uint8 | reflect.Uint16 | reflect.Uint32
  | reflect.Uint64 => true
  | _ => false
  end.


(** A sequence that is not a byte sequence, or a mapping. *)
Definition container (t : gotype) : bool :=
  match t with
  | TSlice elem => negb (reflect.Kind_eqb (Kind elem) reflect.Uint8)
  | TMap _ _ => true
  | _ => false
  end.

(** The types the decoder never panics on: as far as it goes into the type,
    no slice has a defined type of kind [uint8] for its elements. *)
Fixpoint panic_free (t : gotype) : bool :=
  match t with
  | TSlice elem =>
      if reflect.Kind_eqb (Kind elem) reflect.Uint8
      then bytes_assignable elem
      else panic_free elem
  | TMap key elem => panic_free key && panic_free elem
  | _ => true
  end.

(** Some element, key or value of the raw string does not decode. *)
Definition element_fails (t : gotype) (value : string) : Prop :=
  match t with
  | TSlice elem =>
      exists seg, In seg (strings.Split value ",") /\
        snd (processField elem seg (zero elem)) <> Return None
  | TMap key elem =>
      exists p ks vs, In p (strings.Split value ",") /\
        strings.Split p ":" = [ks; vs] /\
        (snd (processField key ks (zero key)) <> Return None \/
         snd (processField elem vs (zero elem)) <> Return None)
  | _ => False
  end.


(** The reading of the mapping rule without the guard on blank strings:
    whenever a pair does not split in two, the decoder fails. *)
Definition mapping_rule_unguarded : Prop :=
  forall key elem value field p,
    In p (strings.Split value ",") ->
    length (strings.Split p ":") <> 2 ->
    snd (processField (TMap key elem) value field) <> Return None.

(** ** The records and the store of the package's tests *)

Definition fld (name tag : string) (t : gotype) : StructField gotype :=
  mkField name tag true false t.

Definition NoTagConfig : gotype :=
  TStruct [fld "TestKey" "" (TBasic Tstring)].

Definition Config : gotype :=
  TStruct
    [ fld "TestKey" "/test/key" (TBasic Tstring);
      fld "TestNumber" "/test/number" (TBasic Tint);
      fld "TestUInt" "/test/uint" (TBasic Tuint);
      fld "TestBool" "/test/bool" (TBasic Tbool);
      fld "TestFloat" "/test/float" (TBasic Tfloat64);
      fld "TestFloatSlice" "/test/floatslice" (TSlice (TBasic Tfloat64));
      fld "TestDuration" "/test/duration" TDuration;
      fld "TestMap" "/test/map" (TMap (TBasic Tstring) (TBasic Tstring));
      fld "Nested" "" NestedStringConfig;
      fld "Inline" ""
        (TStruct [fld "InlineKey" "/inline/key" (TBasic Tstring)]) ].

(** [mockSSM]: the store answers every request with [paramsOutput] and
    [paramsErr]. *)
Definition mockSSM (paramsOutput : option ssm.GetParametersOutput)
    (paramsErr : option error) : SSMAPI :=
  fun _ => (paramsOutput, paramsErr).

Definition param (name value : string) : ssm.Param :=
  ssm.mkParam (aws.String name) (aws.String value).

(** One order of iteration over the keys of a map. *)
Definition keys_in_order (infos : gmap string Value) : list string :=
  map fst (map_to_list infos).

(** The first element, key or value of the raw string that does not decode
    fails with [e]: everything before it decodes. *)
Definition first_failure (t : gotype) (value : string) (e : error) : Prop :=
  match t with
  | TSlice elem =>
      exists good seg rest vs,
        strings.Split value "," = good ++ seg :: rest /\
        decode_each (processField elem) (zero elem) good = inl vs /\
        snd (processField elem seg (zero elem)) = Return (Some e)
  | TMap key elem =>
      exists good p rest kvs ks vs,
        strings.Split value "," = good ++ p :: rest /\
        decode_pairs (processField key) (processField elem)
          (zero key) (zero elem) good = inl kvs /\
        strings.Split p ":" = [ks; vs] /\
        (snd (processField key ks (zero key)) = Return (Some e) \/
         (snd (processField key ks (zero key)) = Return None /\
          snd (processField elem vs (zero elem)) = Return (Some e)))
  | _ => False
  end.

(** ** Canonical text of scalar values

    The package has no encoder; these are the forms [strconv.FormatUint],
    [strconv.FormatInt], [strconv.FormatBool] and [Duration.String] write,
    the integer literals of Go with a base prefix, and what
    [strconv.FormatFloat] writes for the infinities and for NaN. *)

(** The digit of value [d], in lower case. *)
Definition digit_char (d : Z) : ascii :=
  ascii_of_N (Z.to_N (if (d <? 10)%Z then 48 + d else 87 + d)).

(** The digits of [n] in base [base], most significant first, for [n] below
    [base ^ fuel]. *)
Fixpoint FormatUint_go (base : Z) (fuel : nat) (n : Z) : string :=
  match fuel with
  | O => ""
  | S fuel' =>
      if (n <? base)%Z then String (digit_char n) ""
      else FormatUint_go base fuel' (n / base)
           +:+ String (digit_char (n mod base)) ""
  end.

(** [strconv.FormatUint(n, base)]. *)
Definition FormatUint (n base : Z) : string :=
  FormatUint_go base (S (Z.to_nat (Z.log2 n))) n.

(** [strconv.FormatInt(i, base)]. *)
Definition FormatInt (i base : Z) : string :=
  if (i <? 0)%Z then String "-" (FormatUint (- i) base)
  else FormatUint i base.

(** The prefix of a literal in base 16, 8 or 2; decimal has none. *)
Definition literal_prefix (base : Z) : string :=
  if (base =? 16)%Z then "0x"
  else if (base =? 8)%Z then "0o"
  else if (base =? 2)%Z then "0b"
  else "".

(** The integer literal of [i] in base 2, 8, 10 or 16: sign, prefix,
    digits. *)
Definition IntLiteral (i base : Z) : string :=
  if (i <? 0)%Z
  then String "-" (literal_prefix base +:+ FormatUint (- i) base)
  else literal_prefix base +:+ FormatUint i base.

(** The bases with a literal form. *)
Definition literal_base (base : Z) : Prop :=
  base = 2%Z \/ base = 8%Z \/ base = 10%Z \/ base = 16%Z.


(** A duration literal without fractions: decimal numbers, each followed by
    its unit, as in [1h30m]. *)
Fixpoint DurationLiteral (spans : list (Z * string)) : string :=
  match spans with
  | [] => ""
  | (n, u) :: rest => FormatUint n 10 +:+ u +:+ DurationLiteral rest
  end.

(** The nanoseconds of a unit of [time.ParseDuration]; a name that is not a
    unit counts for nothing. *)
Definition unit_ns (u : string) : Z :=
  match time.unitMap u with
  | Some unit => unit
  | None => 0%Z
  end.

(** The nanoseconds a literal stands for. *)
Fixpoint DurationLiteral_ns (spans : list (Z * string)) : Z :=
  match spans with
  | [] => 0%Z
  | (n, u) :: rest => (n * unit_ns u + DurationLiteral_ns rest)%Z
  end.

(** A span of a literal: a number that is not negative, and a unit. *)
Definition span_ok (span : Z * string) : Prop :=
  (0 <= fst span)%Z /\ is_Some (time.unitMap (snd span)).

(** [fmtFrac] of package [time] writes the fraction of [v / 10 ^ prec] in
    front of [buf], without its trailing zeros and without the point when
    there is no digit left, and gives [v / 10 ^ prec]. *)
Fixpoint fmtFrac (prec : nat) (v : Z) (print : bool) (buf : string)
    : string * Z :=
  match prec with
  | O => (if print then String "." buf else buf, v)
  | S prec' =>
      let digit := (v mod 10)%Z in
      let print := print || negb (digit =? 0)%Z in
      fmtFrac prec' (v / 10)
        print (if print then String (digit_char digit) buf else buf)
  end.

(** [fmtInt] of package [time] writes [v] in decimal in front of [buf]. *)
Definition fmtInt (v : Z) (buf : string) : string := FormatUint v 10 +:+ buf.

(** The micro sign U+00B5 in UTF-8. *)
Definition micro_sign : string := String "194" (String "181" "").

(** [Duration.format] for the magnitude [u] of a duration: below a second
    the largest of the units ns, µs and ms that gives a leading digit, and
    from a second on hours, minutes and seconds, the leading units left out
    when zero. *)
Definition Duration_format (u : Z) : string :=
  if (u <? time.Second)%Z then
    if (u =? 0)%Z then "0s"
    else
      let '(prec, buf) :=
        if (u <? time.Microsecond)%Z then (0%nat, "ns")
        else if (u <? time.Millisecond)%Z then (3%nat, micro_sign +:+ "s")
        else (6%nat, "ms") in
      let '(w, u) := fmtFrac prec u false buf in
      fmtInt u w
  else
    let '(w, u) := fmtFrac 9 u false "s" in
    let w := fmtInt (u mod 60) w in
    let u := (u / 60)%Z in
    if (u >? 0)%Z then
      let w := fmtInt (u mod 60) (String "m" w) in
      let u := (u / 60)%Z in
      if (u >? 0)%Z then fmtInt u (String "h" w) else w
    else w.

(** [Duration.String]: the text of a duration, as [1h30m0s] or [1.5ms];
    zero is [0s]. *)
Definition Duration_String (d : Z) : string :=
  let u := to_uint64 d in
  let neg := (d <? 0)%Z in
  let u := if neg then to_uint64 (- u) else u in
  let w := Duration_format u in
  if neg then String "-" w else w.



(** A string that does not go on with a digit. *)
Definition no_digit_ahead (s : string) : Prop :=
  match s with
  | EmptyString => True
  | String c _ => between "0" (byte c) "9" = false
  end.

(** A string that goes on with a digit, or ends. *)
Definition digit_ahead (s : string) : Prop :=
  match s with
  | EmptyString => True
  | String c _ => between "0" (byte c) "9" = true
  end.


(** ** Further notions for the decoder and for [Process] *)

(** The kinds [processField] has a case for. *)
Definition decodable (k : reflect.Kind) : bool :=
  match k with
  | reflect.String | reflect.Bool
  | reflect.Int | reflect.Int8 | reflect.Int16 | reflect.Int32
  | reflect.Int64
  | reflect.Uint | reflect.Uint8 | reflect.Uint16 | reflect.Uint32
  | reflect.Uint64
  | reflect.Float32 | reflect.Float64
  | reflect.Slice | reflect.Map => true
  | _ => false
  end.

(** How many times the byte [c] occurs in [s]. *)
Fixpoint occurrences (c : ascii) (s : string) : nat :=
  match s with
  | EmptyString => 0
  | String x s' => (if Ascii.eqb c x then 1 else 0) + occurrences c s'
  end.

(** A string of decimal digits only. *)
Fixpoint all_digits (s : string) : bool :=
  match s with
  | EmptyString => true
  | String c s' => between "0" (byte c) "9" && all_digits s'
  end.

(** The kinds of map keys that [==] compares as they are written: text,
    booleans and integers. Floats are not among them: a NaN equals nothing
    and the two zeros are equal. *)
Definition plain_key_kind (k : reflect.Kind) : bool :=
  match k with
  | reflect.String | reflect.Bool
  | reflect.Int | reflect.Int8 | reflect.Int16 | reflect.Int32
  | reflect.Int64
  | reflect.Uint | reflect.Uint8 | reflect.Uint16 | reflect.Uint32
  | reflect.Uint64 => true
  | _ => false
  end.

(** The values of these kinds. *)
Definition plain_key (k : goval) : Prop :=
  match k with
  | VBool _ | VInt _ | VUint _ | VString _ => True
  | _ => False
  end.

(** The entry of a key in a map value, as a map index expression finds
    it. *)
Fixpoint MapIndex (mp : list (goval * goval)) (k : goval) : option goval :=
  match mp with
  | [] => None
  | (k', v) :: rest => if go_eqb k' k then Some v else MapIndex rest k
  end.

(** The value written last for a key in a list of decoded pairs. *)
Fixpoint last_written (kvs : list (goval * goval)) (k : goval)
    : option goval :=
  match kvs with
  | [] => None
  | (k', v) :: rest =>
      match last_written rest k with
      | Some w => Some w
      | None => if go_eqb k' k then Some v else None
      end
  end.

(** A slice with at most one element. *)
Definition short_slice (v : goval) : Prop :=
  exists inner, v = VSlice (Some inner) /\ length inner <= 1.

(** Two paths of field indices that part ways: after a common stem, one
    takes field [i] and the other a different field [j]. *)
Definition diverge (p q : list nat) : Prop :=
  exists stem i j p' q', p = stem ++ i :: p' /\ q = stem ++ j :: q' /\ i <> j.

(** The value of the last of the parameters returned under the name
    [key]. *)
Fixpoint last_value (key : string) (params : list ssm.Param)
    : option string :=
  match params with
  | [] => None
  | p :: rest =>
      match last_value key rest with
      | Some value => Some value
      | None =>
          if String.eqb (aws.StringValue (ssm.Name p)) key
          then Some (aws.StringValue (ssm.Value p))
          else None
      end
  end.

(** How the first of the parameters whose value does not decode for the
    type of the field bound to its name ends, the field taken at its zero
    value: with an error or a panic; [Return None] when every value
    decodes. *)
Fixpoint first_outcome (infos : gmap string Value) (params : list ssm.Param)
    : outcome :=
  match params with
  | [] => Return None
  | p :: rest =>
      match infos !! aws.StringValue (ssm.Name p) with
      | None => first_outcome infos rest
      | Some f =>
          match snd (processField (v_typ f)
                       (aws.StringValue (ssm.Value p)) (zero (v_typ f))) with
          | Return None => first_outcome infos rest
          | out => out
          end
      end
  end.

(** The parameters whose name is a key of the mapping. *)
Definition known (infos : gmap string Value) (p : ssm.Param) : bool :=
  bool_decide (is_Some (infos !! aws.StringValue (ssm.Name p))).

(** Every field of the mapping is there in the record [root]. *)
Definition present (infos : gmap string Value) (root : goval) : Prop :=
  forall k f, infos !! k = Some f -> is_Some (get_path root (v_path f)).

(** No two keys of the mapping lead to overlapping fields. *)
Definition apart (infos : gmap string Value) : Prop :=
  forall k1 k2 f1 f2, infos !! k1 = Some f1 -> infos !! k2 = Some f2 ->
    k1 = k2 \/ diverge (v_path f1) (v_path f2).
(** What one queue entry contributes to [infos]: the leaves below it. *)
Inductive reach (q : queueObject) (key : string) (v : Value) : Prop :=
| reach_leaf :
    CanSet (field q) = true ->
    is_struct (v_typ (field q)) = false ->
    Tag (fieldType q) <> "" ->
    key = prefix q +:+ Tag (fieldType q) ->
    v = field q ->
    reach q key v
| reach_sub i f :
    CanSet (field q) = true ->
    is_struct (v_typ (field q)) = true ->
    fields_of (v_typ (field q)) !! i = Some f ->
    reach (mkQueueObject (Addr_Elem (field q)) (v_typ (field q))
             (Field (Addr_Elem (field q)) i f) f
             (prefix q +:+ Tag (fieldType q))) key v ->
    reach q key v.

Lemma elem_of_enqueue s t pfx fs : forall i queue q,
  q ∈ enqueue_fields s t pfx i fs queue <->
  q ∈ queue \/
  exists j f, fs !! j = Some f /\ q = mkQueueObject s t (Field s (i + j) f) f pfx.
Proof.
  induction fs as [|g fs IH]; intros i queue q; simpl.
  - split; [auto|]. intros [H|(j & f & H & _)]; [done|]. by destruct j.
  - rewrite IH, elem_of_app, list_elem_of_singleton. split.
    + intros [[H|H]|(j & f & Hj & Hq)]; [by left| |].
      * right. exists 0, g. by rewrite Nat.add_0_r.
      * right. exists (S j), f. by rewrite <- Nat.add_succ_comm.
    + intros [H|(j & f & Hj & Hq)]; [by left; left|].
      destruct j as [|j]; simpl in Hj.
      * left; right. injection Hj as <-. by rewrite Nat.add_0_r in Hq.
      * right. exists j, f. by rewrite Nat.add_succ_comm.
Qed.

Lemma walk_sound queue infos key v :
  walk queue infos !! key = Some v ->
  infos !! key = Some v \/ exists q, q ∈ queue /\ reach q key v.
Proof.
  funelim (walk queue infos); simp walk; [auto|].
  rename H into IHskip, H0 into IHsub, H1 into IHleaf.
  clear Heqcall.
  destruct (CanSet (field q)) eqn:Hset; simpl.
  - destruct (reflect.Kind_eqb (Kind (v_typ (field q))) reflect.Struct)
      eqn:Hk.
    + intros Hw. apply IHsub in Hw as [Hw|(q0 & Hin & Hr)]; [by left|].
      right. simpl in Hin. apply elem_of_enqueue in Hin
        as [Hin|(j & f & Hj & ->)].
      * exists q0. split; [by apply list_elem_of_further|done].
      * exists q. split; [by apply list_elem_of_here|].
        by eapply reach_sub.
    + destruct (String.eqb (Tag (fieldType q)) "") eqn:Htag.
      * intros Hw. apply IHskip in Hw as [Hw|(q0 & Hin & Hr)]; [by left|].
        right. exists q0. split; [by apply list_elem_of_further|done].
      * intros Hw. apply IHleaf in Hw as [Hw|(q0 & Hin & Hr)].
        -- apply lookup_insert_Some in Hw as [[<- <-]|[_ Hw]]; [|by left].
           right. exists q. split; [by apply list_elem_of_here|].
           apply reach_leaf; try done.
           by apply String.eqb_neq.
        -- right. exists q0. split; [by apply list_elem_of_further|done].
  - intros Hw. apply IHskip in Hw as [Hw|(q0 & Hin & Hr)]; [by left|].
    right. exists q0. split; [by apply list_elem_of_further|done].
Qed.

Lemma walk_complete queue infos key :
  (is_Some (infos !! key) \/ exists q v, q ∈ queue /\ reach q key v) ->
  is_Some (walk queue infos !! key).
Proof.
  funelim (walk queue infos); simp walk.
  { intros [H|(q & v & Hin & _)]; [done|]. by apply not_elem_of_nil in Hin. }
  rename H into IHskip, H0 into IHsub, H1 into IHleaf.
  clear Heqcall.
  intros [Hi|(q0 & v & Hin & Hr)].
  { destruct (negb (CanSet (field q))); [by apply IHskip; left|].
    destruct (reflect.Kind_eqb _ _); [by apply IHsub; left|].
    destruct (String.eqb _ _); [by apply IHskip; left|].
    apply IHleaf. left. rewrite lookup_insert.
    case_decide; [by eexists|done]. }
  apply elem_of_cons in Hin as [->|Hin].
  - destruct Hr as [Hset Hk Htag -> ->|i f Hset Hk Hf Hr]; rewrite Hset; simpl.
    + unfold is_struct in Hk. rewrite Hk.
      apply String.eqb_neq in Htag. rewrite Htag.
      apply IHleaf. left. rewrite lookup_insert_eq. by eexists.
    + unfold is_struct in Hk. rewrite Hk.
      apply IHsub. right. eexists _, v. split; [|exact Hr].
      apply elem_of_enqueue. right. by exists i, f.
  - destruct (negb (CanSet (field q))); [apply IHskip; right; eauto|].
    destruct (reflect.Kind_eqb _ _).
    + apply IHsub. right. exists q0, v. split; [|done].
      apply elem_of_enqueue. by left.
    + destruct (String.eqb _ _); [apply IHskip; right; eauto|].
      apply IHleaf. right; eauto.
Qed.

Lemma append_assoc (a b c : string) : (a +:+ b) +:+ c = a +:+ b +:+ c.
Proof.
  induction a as [|x a IH]; [done|].
  change (String x ((a +:+ b) +:+ c) = String x (a +:+ b +:+ c)).
  by rewrite IH.
Qed.


(** A handle every field of which is writable unless unexported. *)
Definition clean (s : Value) : Prop :=
  flagAddr s = true /\ flagStickyRO s = false.

Lemma CanSet_Field s i f : clean s -> CanSet (Field s i f) = Exported f.
Proof.
  intros [Ha Hs]. unfold CanSet, Field; simpl. rewrite Ha, Hs.
  by destruct (Exported f), (Anonymous f).
Qed.

Lemma Field_exported s i f :
  clean s -> Exported f = true ->
  Field s i f = mkValue (v_path s ++ [i]) (Type_ f) true false false.
Proof. intros [Ha Hs] He. unfold Field. by rewrite Ha, Hs, He. Qed.

Lemma clean_Addr_Elem v : clean (Addr_Elem v).
Proof. done. Qed.

Lemma reach_descend q key v :
  reach q key v ->
  forall s i, clean s -> field q = Field s i (fieldType q) ->
  exists rest anc leaf,
    descend (fieldType q) rest = Some (anc, leaf) /\
    bound anc leaf = true /\
    key = qualified_name (prefix q) anc leaf /\
    v = mkValue (v_path s ++ i :: rest) (Type_ leaf) true false false.
Proof.
  induction 1 as [q key v Hset Hk Htag -> ->|q key v j g Hset Hk Hg Hr IH];
    intros s i Hs Hq.
  - rewrite Hq, CanSet_Field in Hset by done.
    rewrite Hq in Hk; simpl in Hk.
    exists [], [], (fieldType q). split; [done|]. split.
    { unfold bound; simpl. rewrite Hset, Hk; simpl.
      by apply String.eqb_neq in Htag as ->. }
    split; [done|]. rewrite Hq. by apply Field_exported.
  - rewrite Hq, CanSet_Field in Hset by done.
    rewrite Hq in Hk, Hg; simpl in Hk, Hg.
    destruct (IH (Addr_Elem (field q)) j (clean_Addr_Elem _) eq_refl)
      as (rest & anc & leaf & Hd & Hb & -> & ->).
    simpl in Hd.
    exists (j :: rest), (fieldType q :: anc), leaf. simpl.
    rewrite Hg, Hd. split; [done|]. split.
    { unfold bound in *; simpl. by rewrite Hset, Hk. }
    split.
    { unfold qualified_name; simpl. by rewrite !append_assoc. }
    rewrite Hq; simpl. by rewrite <- app_assoc.
Qed.

Lemma descend_reach rest : forall f anc leaf s t i pfx,
  clean s ->
  descend f rest = Some (anc, leaf) ->
  bound anc leaf = true ->
  reach (mkQueueObject s t (Field s i f) f pfx)
    (qualified_name pfx anc leaf)
    (mkValue (v_path s ++ i :: rest) (Type_ leaf) true false false).
Proof.
  induction rest as [|j rest IH]; intros f anc leaf s t i pfx Hs Hd Hb;
    simpl in Hd.
  - injection Hd as <- <-. unfold bound in Hb; simpl in Hb.
    apply andb_prop in Hb as [Hb Htag]. apply andb_prop in Hb as [He Hk].
    apply negb_true_iff in Hk, Htag.
    apply reach_leaf; simpl.
    + by rewrite CanSet_Field.
    + done.
    + by apply String.eqb_neq.
    + done.
    + symmetry. by apply Field_exported.
  - destruct (fields_of (Type_ f) !! j) as [g|] eqn:Hg; [|done].
    destruct (descend g rest) as [[anc' leaf']|] eqn:Hd'; [|done].
    injection Hd as <- <-.
    unfold bound in Hb; simpl in Hb.
    rewrite <- !andb_assoc in Hb.
    apply andb_prop in Hb as [He Hb]. apply andb_prop in Hb as [Hk Hb].
    eapply (reach_sub _ _ _ j g); simpl.
    + by rewrite CanSet_Field.
    + done.
    + done.
    + specialize (IH g anc' leaf' (Addr_Elem (Field s i f)) (Type_ f) j
                    (pfx +:+ Tag f) (clean_Addr_Elem _) Hd').
      unfold qualified_name in *; simpl in *.
      rewrite <- app_assoc in IH; simpl in IH.
      rewrite !append_assoc in IH |- *. apply IH.
      unfold bound. by rewrite <- !andb_assoc.
Qed.

Lemma elem_of_root_queue pfx t q :
  q ∈ enqueue_fields (Elem_root t) t pfx 0 (fields_of t) [] <->
  exists j f, fields_of t !! j = Some f /\
    q = mkQueueObject (Elem_root t) t (Field (Elem_root t) j f) f pfx.
Proof.
  rewrite elem_of_enqueue. split.
  - intros [H|H]; [by apply not_elem_of_nil in H|done].
  - by right.
Qed.

(** Every entry of the mapping is a bound leaf under its qualified name. *)
Lemma walk_root_sound pfx t key v :
  walk_root pfx t !! key = Some v ->
  exists anc leaf,
    resolve t (v_path v) = Some (anc, leaf) /\
    bound anc leaf = true /\
    key = qualified_name pfx anc leaf /\
    v_typ v = Type_ leaf /\ CanSet v = true.
Proof.
  intros Hw. apply walk_sound in Hw as [Hw|(q & Hin & Hr)]; [done|].
  apply elem_of_root_queue in Hin as (j & f & Hf & ->).
  destruct (reach_descend _ _ _ Hr (Elem_root t) j)
    as (rest & anc & leaf & Hd & Hb & -> & ->); [done..|].
  exists anc, leaf. simpl in *. by rewrite Hf.
Qed.

(** Every bound leaf has its qualified name in the mapping. *)
Lemma walk_root_complete pfx t path anc leaf :
  resolve t path = Some (anc, leaf) ->
  bound anc leaf = true ->
  is_Some (walk_root pfx t !! qualified_name pfx anc leaf).
Proof.
  intros Hres Hb. destruct path as [|i rest]; [done|]. simpl in Hres.
  destruct (fields_of t !! i) as [f|] eqn:Hf; [|done].
  apply walk_complete. right.
  eexists _, _. split.
  - apply elem_of_root_queue. by exists i, f.
  - by apply (descend_reach rest).
Qed.


(** ** The decoder: sequences *)

Lemma Index_middle (done rest : list goval) (z : goval) :
  Index (done ++ z :: rest) (length done) = z.
Proof. unfold Index. by rewrite nth_middle. Qed.

Lemma insert_middle (done rest : list goval) (z v : goval) :
  <[length done := v]> (done ++ z :: rest) = done ++ v :: rest.
Proof. by rewrite insert_app_r_alt, Nat.sub_diag by lia. Qed.

Lemma range_vals_decode_each pf z vals : forall done,
  match decode_each pf z vals with
  | inl vs =>
      range_vals pf vals (length done) (done ++ repeat z (length vals))
      = (done ++ vs, Return None)
  | inr out =>
      snd (range_vals pf vals (length done)
             (done ++ repeat z (length vals))) = out /\
      out <> Return None
  end.
Proof.
  induction vals as [|val vals IH]; intros done; simpl.
  - by rewrite app_nil_r.
  - rewrite Index_middle.
    destruct (pf val z) as [v [[e|]|t]]; rewrite insert_middle; [done| |done].
    specialize (IH (done ++ [v])).
    rewrite length_app, Nat.add_1_r, <- app_assoc in IH. simpl in IH.
    destruct (decode_each pf z vals) as [vs|out].
    + by rewrite IH, <- app_assoc.
    + done.
Qed.

Definition blank (value : string) : bool :=
  (String.length (strings.TrimSpace value) =? 0)%nat.

(** The slice case of [processField], as a function of the segments. *)
Lemma processField_slice elem value field :
  processField (TSlice elem) value field =
  if reflect.Kind_eqb (Kind elem) reflect.Uint8
  then
    if bytes_assignable elem
    then (VSlice (Some (bytes_of value)), Return None)
    else (field, Panic (Set_panic elem))
  else if blank value then (VSlice (Some []), Return None)
  else
    match decode_each (processField elem) (zero elem)
            (strings.Split value ",") with
    | inl vs => (VSlice (Some vs), Return None)
    | inr out => (field, out)
    end.
Proof.
  cbn [processField Kind]. unfold blank.
  destruct (reflect.Kind_eqb (Kind elem) reflect.Uint8); [done|].
  destruct (String.length (strings.TrimSpace value) =? 0)%nat; [done|].
  cbn [negb].
  pose proof (range_vals_decode_each (processField elem) (zero elem)
                (strings.Split value ",") []) as H.
  simpl in H.
  destruct (decode_each _ _ _) as [vs|out].
  - by rewrite H.
  - destruct (range_vals _ _ _ _) as [sl out']. simpl in H.
    destruct H as [-> Hne]. by destruct out as [[e|]|t].
Qed.


(** ** The decoder: mappings *)

Lemma range_pairs_decode_pairs pfk pfv zk zv pairs : forall mp,
  match decode_pairs pfk pfv zk zv pairs with
  | inl kvs =>
      range_pairs pfk pfv zk zv pairs mp
      = (foldl (fun mp kv => SetMapIndex mp (fst kv) (snd kv)) mp kvs,
         Return None)
  | inr out =>
      snd (range_pairs pfk pfv zk zv pairs mp) = out /\ out <> Return None
  end.
Proof.
  induction pairs as [|p pairs IH]; intros mp; simpl; [done|].
  destruct (strings.Split p ":") as [|ks [|vs [|x l]]]; simpl; try done.
  destruct (pfk ks zk) as [k [[e|]|t]]; [done| |done].
  destruct (pfv vs zv) as [v [[e|]|t]]; [done| |done].
  specialize (IH (SetMapIndex mp k v)).
  by destruct (decode_pairs pfk pfv zk zv pairs).
Qed.

(** The map case of [processField], as a function of the pairs. *)
Lemma processField_map key elem value field :
  processField (TMap key elem) value field =
  if blank value then (VMap (Some []), Return None)
  else
    match decode_pairs (processField key) (processField elem)
            (zero key) (zero elem) (strings.Split value ",") with
    | inl kvs => (VMap (Some (build_map kvs)), Return None)
    | inr out => (field, out)
    end.
Proof.
  cbn [processField Kind]. unfold blank, build_map.
  destruct (String.length (strings.TrimSpace value) =? 0)%nat; [done|].
  cbn [negb].
  pose proof (range_pairs_decode_pairs (processField key)
                (processField elem) (zero key) (zero elem)
                (strings.Split value ",") []) as H.
  destruct (decode_pairs _ _ _ _ _) as [kvs|out].
  - by rewrite H.
  - destruct (range_pairs _ _ _ _ _ _) as [mp out']. simpl in H.
    destruct H as [-> Hne]. by destruct out as [[e|]|t].
Qed.

(** What [decode_each] and [decode_pairs] stop with is never [nil]. *)
Lemma decode_each_inr pf z segs out :
  decode_each pf z segs = inr out -> out <> Return None.
Proof.
  pose proof (range_vals_decode_each pf z segs []) as H.
  intros Hd. rewrite Hd in H. by destruct H.
Qed.

Lemma decode_pairs_inr pfk pfv zk zv pairs out :
  decode_pairs pfk pfv zk zv pairs = inr out -> out <> Return None.
Proof.
  pose proof (range_pairs_decode_pairs pfk pfv zk zv pairs []) as H.
  intros Hd. rewrite Hd in H. by destruct H.
Qed.

(** A container that decoded did not stop at an element. *)
Ltac inr_absurd Hd :=
  first [apply decode_each_inr in Hd | apply decode_pairs_inr in Hd];
  intros [= ? ?]; congruence.

(** A pair that does not split in two makes the pairs fail. *)
Lemma decode_pairs_malformed pfk pfv zk zv pairs p :
  In p pairs -> length (strings.Split p ":") <> 2 ->
  exists out, decode_pairs pfk pfv zk zv pairs = inr out.
Proof.
  intros Hin Hlen. induction pairs as [|q pairs IH]; [done|]. simpl.
  destruct Hin as [->|Hin].
  - destruct (strings.Split p ":") as [|ks [|vs [|x l]]]; simpl in *;
      try done; eauto.
  - destruct (IH Hin) as [e He]. rewrite He.
    destruct (strings.Split q ":") as [|ks [|vs [|x l]]]; eauto.
    destruct (pfk ks zk) as [k [[e'|]|t]]; eauto.
    destruct (pfv vs zv) as [v [[e'|]|t]]; eauto.
Qed.

(** ** The scalar cases *)

(** The parser calls of the scalar cases, taken apart. *)
Ltac destruct_parse :=
  repeat match goal with
  | |- context [if isDuration ?t then _ else _] => destruct (isDuration t)
  | |- context [time.ParseDuration ?v] =>
      destruct (time.ParseDuration v) as [? [?|]]
  | |- context [strconv.ParseInt ?v ?b ?n] =>
      destruct (strconv.ParseInt v b n) as [? [?|]]
  | |- context [strconv.ParseUint ?v ?b ?n] =>
      destruct (strconv.ParseUint v b n) as [? [?|]]
  | |- context [strconv.ParseBool ?v] =>
      destruct (strconv.ParseBool v) as [? [?|]]
  | |- context [strconv.ParseFloat ?v ?n] =>
      destruct (strconv.ParseFloat v n) as [? [?|]]
  end.

(** The cases of the switch for the scalar kinds. *)
Lemma processField_signed_case typ value field :
  signed_kind (Kind typ) = true ->
  processField typ value field =
  let '(val, err) :=
    if isDuration typ then time.ParseDuration value
    else strconv.ParseInt value 0 (Bits typ) in
  match err with
  | Some e => (field, Return (Some e))
  | None => (SetInt typ val, Return None)
  end.
Proof. destruct typ as [b|pkg name b| | | | |]; try done; by destruct b. Qed.

Lemma processField_unsigned_case typ value field :
  unsigned_kind (Kind typ) = true ->
  processField typ value field =
  let '(val, err) := strconv.ParseUint value 0 (Bits typ) in
  match err with
  | Some e => (field, Return (Some e))
  | None => (SetUint typ val, Return None)
  end.
Proof. destruct typ as [b|pkg name b| | | | |]; try done; by destruct b. Qed.


Lemma processField_String typ value field :
  Kind typ = reflect.String ->
  processField typ value field = (VString value, Return None).
Proof. destruct typ as [b|pkg name b| | | | |]; try done; by destruct b. Qed.

(** A defined type is decoded as its underlying type is, unless it is
    [time.Duration]. *)
Lemma processField_named pkg name b value field :
  isDuration (TNamed pkg name b) = false ->
  processField (TNamed pkg name b) value field
  = processField (TBasic b) value field.
Proof.
  intros Hd. destruct b; try done; cbn [processField Kind basic_Kind];
    unfold Bits, SetInt, SetUint, SetFloat, Bits; cbn [Kind basic_Kind];
    rewrite ?Hd; done.
Qed.

(** The scalar types never make the decoder panic. *)
Lemma processField_scalar_returns typ value field :
  match typ with TBasic _ | TNamed _ _ _ => True | _ => False end ->
  exists err, snd (processField typ value field) = Return err.
Proof.
  destruct typ as [b|pkg name b| | | | |]; try done; intros _;
    destruct b; cbn [processField Kind basic_Kind]; destruct_parse;
    by eexists.
Qed.

(** ** Errors and panics leave the field as it was *)

Lemma processField_failure_unchanged typ value field :
  snd (processField typ value field) <> Return None ->
  fst (processField typ value field) = field.
Proof.
  destruct typ as [b|pkg name b| | | | |].
  - destruct b; cbn [processField Kind basic_Kind]; destruct_parse; done.
  - destruct b; cbn [processField Kind basic_Kind]; destruct_parse; done.
  - done.
  - rewrite processField_map.
    destruct (blank value); [done|]. by destruct (decode_pairs _ _ _ _ _).
  - done.
  - rewrite processField_slice.
    destruct (reflect.Kind_eqb _ _); [by destruct (bytes_assignable _)|].
    destruct (blank value); [done|]. by destruct (decode_each _ _ _).
  - done.
Qed.

Lemma processField_error_unchanged typ value field e :
  snd (processField typ value field) = Return (Some e) ->
  fst (processField typ value field) = field.
Proof.
  intros He. apply processField_failure_unchanged. by rewrite He.
Qed.

(** ** White space *)

Lemma length_append (a b : string) :
  String.length (a +:+ b) = String.length a + String.length b.
Proof.
  induction a as [|x a IH]; [done|].
  change (S (String.length (a +:+ b)) = S (String.length a + String.length b)).
  by rewrite IH.
Qed.

Lemma space_rune_first_white r rest :
  In r white_space -> strings.space_rune_first (r +:+ rest) = Some rest.
Proof.
  intros Hin. unfold white_space in Hin.
  repeat (destruct Hin as [<-|Hin]; [reflexivity|]). destruct Hin.
Qed.

Lemma white_space_nonempty r : In r white_space -> 0 < String.length r.
Proof.
  intros Hin. unfold white_space in Hin.
  repeat (destruct Hin as [<-|Hin]; [simpl; lia|]). destruct Hin.
Qed.

Lemma trim_go_white runes : forall n,
  Forall (fun r => In r white_space) runes ->
  length runes <= n ->
  strings.trim_go strings.space_rune_first n (foldr String.append "" runes)
  = "".
Proof.
  induction runes as [|r runes IH]; intros n Hall Hn; simpl.
  - by destruct n.
  - destruct n as [|n]; [simpl in Hn; lia|]. simpl.
    apply Forall_cons in Hall as [Hr Hall].
    rewrite space_rune_first_white by done.
    apply IH; [done|]. simpl in Hn. lia.
Qed.

Lemma whitespace_only_blank value : whitespace_only value -> blank value = true.
Proof.
  intros (runes & Hall & ->). unfold blank, strings.TrimSpace.
  replace (strings.TrimLeftSpace (foldr String.append "" runes)) with "".
  { done. }
  symmetry. apply trim_go_white; [done|].
  clear -Hall. induction Hall as [|r runes Hr Hall IH]; simpl; [lia|].
  rewrite length_append. apply white_space_nonempty in Hr. lia.
Qed.

(** ** Failing elements *)

Lemma decode_each_fails pf z segs seg :
  In seg segs -> snd (pf seg z) <> Return None ->
  exists out, decode_each pf z segs = inr out.
Proof.
  intros Hin Hf. induction segs as [|s segs IH]; [done|]. simpl.
  destruct Hin as [->|Hin].
  - destruct (pf seg z) as [v [[e|]|t]]; [eauto|done|eauto].
  - destruct (IH Hin) as [e He]. rewrite He.
    destruct (pf s z) as [v [[e'|]|t]]; eauto.
Qed.

Lemma decode_each_first_error pf z good seg rest vs out :
  decode_each pf z good = inl vs ->
  snd (pf seg z) = out -> out <> Return None ->
  decode_each pf z (good ++ seg :: rest) = inr out.
Proof.
  revert vs. induction good as [|g good IH]; intros vs Hg Hs Hne;
    simpl in *.
  - destruct (pf seg z) as [v out']. simpl in Hs. subst out'.
    by destruct out as [[e|]|t].
  - destruct (pf g z) as [v [[e'|]|t]]; [done| |done].
    destruct (decode_each pf z good) as [vs'|e'] eqn:Hd; [|done].
    by rewrite (IH vs').
Qed.

Lemma decode_pairs_fails pfk pfv zk zv pairs p ks vs :
  In p pairs -> strings.Split p ":" = [ks; vs] ->
  snd (pfk ks zk) <> Return None \/ snd (pfv vs zv) <> Return None ->
  exists out, decode_pairs pfk pfv zk zv pairs = inr out.
Proof.
  intros Hin Hsp Hf. induction pairs as [|q pairs IH]; [done|]. simpl.
  destruct Hin as [->|Hin].
  - rewrite Hsp.
    destruct (pfk ks zk) as [k [[e|]|t]]; [eauto| |eauto].
    destruct (pfv vs zv) as [v [[e|]|t]]; [eauto| |eauto].
    simpl in Hf. by destruct Hf.
  - destruct (IH Hin) as [e He]. rewrite He.
    destruct (strings.Split q ":") as [|a [|b [|x l]]]; eauto.
    destruct (pfk a zk) as [k [[e'|]|t]]; eauto.
    destruct (pfv b zv) as [v [[e'|]|t]]; eauto.
Qed.

Lemma decode_pairs_first_error pfk pfv zk zv good p rest kvs ks vs out :
  decode_pairs pfk pfv zk zv good = inl kvs ->
  strings.Split p ":" = [ks; vs] ->
  out <> Return None ->
  snd (pfk ks zk) = out \/
  (snd (pfk ks zk) = Return None /\ snd (pfv vs zv) = out) ->
  decode_pairs pfk pfv zk zv (good ++ p :: rest) = inr out.
Proof.
  revert kvs. induction good as [|g good IH]; intros kvs Hg Hsp Hne Hf;
    simpl in *.
  - rewrite Hsp.
    destruct (pfk ks zk) as [k outk], (pfv vs zv) as [v outv]. simpl in Hf.
    destruct Hf as [->|[-> ->]]; by destruct out as [[e|]|t].
  - destruct (strings.Split g ":") as [|a [|b [|x l]]]; try done.
    destruct (pfk a zk) as [k [[e'|]|t]]; [done| |done].
    destruct (pfv b zv) as [v [[e'|]|t]]; [done| |done].
    destruct (decode_pairs pfk pfv zk zv good) as [kvs'|e'] eqn:Hd; [|done].
    by rewrite (IH kvs').
Qed.

(** ** Types the decoder does not panic on *)

Lemma decode_each_no_panic pf z segs :
  (forall seg f t, snd (pf seg f) <> Panic t) ->
  forall t, decode_each pf z segs <> inr (Panic t).
Proof.
  intros Hpf t. induction segs as [|seg segs IH]; [done|]. simpl.
  pose proof (Hpf seg z) as Hs.
  destruct (pf seg z) as [v [[e|]|t']]; simpl in Hs; [done| |].
  - destruct (decode_each pf z segs) as [vs|out]; [done|]. congruence.
  - by destruct (Hs t').
Qed.

Lemma decode_pairs_no_panic pfk pfv zk zv pairs :
  (forall seg f t, snd (pfk seg f) <> Panic t) ->
  (forall seg f t, snd (pfv seg f) <> Panic t) ->
  forall t, decode_pairs pfk pfv zk zv pairs <> inr (Panic t).
Proof.
  intros Hk Hv t. induction pairs as [|p pairs IH]; [done|]. simpl.
  destruct (strings.Split p ":") as [|ks [|vs [|x l]]]; try done.
  pose proof (Hk ks zk) as Hks. pose proof (Hv vs zv) as Hvs.
  destruct (pfk ks zk) as [k [[e|]|t']]; simpl in Hks; [done| |].
  - destruct (pfv vs zv) as [v [[e|]|t']]; simpl in Hvs; [done| |].
    + destruct (decode_pairs pfk pfv zk zv pairs) as [kvs|out]; [done|].
      congruence.
    + by destruct (Hvs t').
  - by destruct (Hks t').
Qed.

Lemma processField_panic_free typ :
  panic_free typ = true ->
  forall value field t, snd (processField typ value field) <> Panic t.
Proof.
  induction typ as [b|pkg name b|n elem IH|key IHk elem IHe|elem IH|elem IH|fs];
    intros Hpf value field t; try done.
  - destruct b; cbn [processField Kind basic_Kind]; destruct_parse; done.
  - destruct b; cbn [processField Kind basic_Kind]; destruct_parse; done.
  - simpl in Hpf. apply andb_prop in Hpf as [Hk He].
    rewrite processField_map. destruct (blank value); [done|].
    pose proof (decode_pairs_no_panic (processField key) (processField elem)
                  (zero key) (zero elem) (strings.Split value ",")
                  (fun seg f t => IHk Hk seg f t)
                  (fun seg f t => IHe He seg f t) t) as Hn.
    destruct (decode_pairs _ _ _ _ _) as [kvs|out]; [done|]. simpl.
    congruence.
  - simpl in Hpf. rewrite processField_slice.
    destruct (reflect.Kind_eqb _ _); [by rewrite Hpf|].
    destruct (blank value); [done|].
    pose proof (decode_each_no_panic (processField elem) (zero elem)
                  (strings.Split value ",")
                  (fun seg f t => IH Hpf seg f t) t) as Hn.
    destruct (decode_each _ _ _) as [vs|out]; [done|]. simpl. congruence.
Qed.

(** ** Ranges of the parsed integers *)

Section Ranges.
Import strconv.
Local Open Scope Z_scope.

Lemma to_int64_range z : - 2 ^ 63 <= to_int64 z < 2 ^ 63.
Proof. unfold to_int64. pose proof (Z.mod_pos_bound (z + 2 ^ 63) (2 ^ 64)). lia. Qed.

Lemma to_int64_small z : - 2 ^ 63 <= z < 2 ^ 63 -> to_int64 z = z.
Proof. intros H. unfold to_int64. rewrite Z.mod_small; lia. Qed.

Lemma to_uint64_range z : 0 <= to_uint64 z < 2 ^ 64.
Proof. unfold to_uint64. apply Z.mod_pos_bound. lia. Qed.

Lemma ParseUint_loop_bound base0 base cutoff maxVal s :
  forall n us n' us',
    0 <= n <= maxVal ->
    ParseUint_loop base0 base cutoff maxVal s n us = loop_done n' us' ->
    0 <= n' <= maxVal.
Proof.
  induction s as [|c s IH]; intros n us n' us' Hn; simpl.
  - intros [= <- <-]. done.
  - destruct ((byte c =? byte "_") && base0); [by apply IH|].
    destruct (digit_val (byte c)) as [d|]; [|done].
    destruct (d >=? base); [done|].
    destruct (n >=? cutoff); [done|].
    destruct (to_uint64 (n * base + d) <? n * base) eqn:H1; [done|].
    destruct (to_uint64 (n * base + d) >? maxVal) eqn:H2; [done|].
    simpl. apply IH.
    pose proof (to_uint64_range (n * base + d)). lia.
Qed.

Definition maxVal_of (bitSize : Z) : Z :=
  to_uint64 (to_uint64 (Z.shiftl 1 bitSize) - 1).

Lemma ParseUint_bound s base bitSize v :
  ParseUint s base bitSize = (v, None) ->
  0 <= v <= maxVal_of (if bitSize =? 0 then IntSize else bitSize).
Proof.
  unfold ParseUint. destruct s as [|c s]; [done|].
  set (s0 := String c s).
  destruct (if (2 <=? base) && (base <=? 36) then _ else _)
    as [[b r]|]; [|done].
  set (bs := if bitSize =? 0 then IntSize else bitSize).
  destruct ((bs <? 0) || (bs >? 64)); [done|].
  fold (maxVal_of bs).
  destruct (ParseUint_loop _ _ _ _ _ _ _) as [n us| |] eqn:Hloop;
    [|done..].
  apply ParseUint_loop_bound in Hloop.
  - destruct (us && negb (underscoreOK s0)); [done|].
    by intros [= <-].
  - unfold maxVal_of. pose proof (to_uint64_range (to_uint64 (Z.shiftl 1 bs) - 1)).
    lia.
Qed.

Lemma ParseUint_ErrRange s base bitSize un fn num :
  ParseUint s base bitSize = (un, Some (NumError fn num strconv_err.ErrRange)) ->
  un = maxVal_of (if bitSize =? 0 then IntSize else bitSize).
Proof.
  unfold ParseUint. destruct s as [|c s]; [done|].
  set (s0 := String c s).
  destruct (if (2 <=? base) && (base <=? 36) then _ else _)
    as [[b r]|]; [|done].
  set (bs := if bitSize =? 0 then IntSize else bitSize).
  destruct ((bs <? 0) || (bs >? 64)); [done|].
  fold (maxVal_of bs).
  destruct (ParseUint_loop _ _ _ _ _ _ _) as [n us| |]; try done.
  - by destruct (us && negb (underscoreOK s0)).
  - by intros [= <-].
Qed.

(** The widths of the sized integer kinds. *)
Definition width (bitSize : Z) : Prop :=
  bitSize = 8 \/ bitSize = 16 \/ bitSize = 32 \/ bitSize = 64.

Lemma ParseUint_range s base bitSize v :
  width bitSize ->
  ParseUint s base bitSize = (v, None) -> 0 <= v < 2 ^ bitSize.
Proof.
  intros Hw H. apply ParseUint_bound in H.
  destruct Hw as [-> | [-> | [-> | ->]]].
  - change (0 <= v <= 255) in H. lia.
  - change (0 <= v <= 65535) in H. lia.
  - change (0 <= v <= 4294967295) in H. lia.
  - change (0 <= v <= 18446744073709551615) in H. lia.
Qed.

Lemma ParseInt_range s base bitSize v :
  width bitSize ->
  ParseInt s base bitSize = (v, None) ->
  - 2 ^ (bitSize - 1) <= v < 2 ^ (bitSize - 1).
Proof.
  intros Hw. unfold ParseInt. destruct s as [|c s]; [done|].
  destruct (if Ascii.eqb c "+" then _ else _) as [neg r].
  destruct (ParseUint r base 64) as [un err] eqn:Hun.
  assert (0 <= un < 2 ^ 64 \/ exists e, err = Some e) as Hb.
  { destruct err as [e|]; [right; eauto|left].
    apply ParseUint_bound in Hun.
    change (0 <= un <= 18446744073709551615) in Hun. lia. }
  assert (forall cutoff,
    cutoff = 2 ^ (bitSize - 1) -> 0 < cutoff <= 2 ^ 63 ->
    (if negb neg && (un >=? cutoff)
     then (to_int64 (cutoff - 1), Some (rangeError fnParseInt (String c s)))
     else if neg && (un >? cutoff)
     then (to_int64 (- to_int64 cutoff),
           Some (rangeError fnParseInt (String c s)))
     else (if neg then to_int64 (- to_int64 un) else to_int64 un, None))
    = (v, None) ->
    0 <= un -> - cutoff <= v < cutoff) as Hcore.
  { intros cutoff _ Hc H Hun0.
    destruct neg; simpl in H.
    - destruct (un >? cutoff) eqn:Hcmp; [done|]. injection H as <-.
      destruct (Z.eq_dec un (2 ^ 63)) as [->|Hne].
      + assert (cutoff = 2 ^ 63) as ->
          by (rewrite Z.gtb_ltb in Hcmp; apply Z.ltb_ge in Hcmp; lia).
        change (- 2 ^ 63 <= - 2 ^ 63 < 2 ^ 63). lia.
      + rewrite (to_int64_small un) by lia.
        rewrite to_int64_small by lia. lia.
    - destruct (un >=? cutoff) eqn:Hcmp; [done|]. injection H as <-.
      rewrite to_int64_small by lia. lia. }
  assert (to_uint64 (Z.shiftl 1 ((if bitSize =? 0 then IntSize else bitSize) - 1))
          = 2 ^ (bitSize - 1) /\ 0 < 2 ^ (bitSize - 1) <= 2 ^ 63) as [Hcut Hpos].
  { destruct Hw as [-> | [-> | [-> | ->]]];
      (split; [reflexivity|lia]). }
  rewrite Hcut.
  destruct err as [e|].
  - destruct e as [| |fn num ek|]; try done.
    destruct ek; try done.
    apply ParseUint_ErrRange in Hun.
    change (un = 18446744073709551615) in Hun. subst un.
    intros H. eapply Hcore; eauto. lia.
  - intros H. destruct Hb as [Hb|[e He]]; [|done].
    eapply Hcore; eauto. lia.
Qed.

Lemma ParseDuration_range s v :
  time.ParseDuration s = (v, None) -> - 2 ^ 63 <= v < 2 ^ 63.
Proof.
  unfold time.ParseDuration.
  destruct (match s with String c r => _ | EmptyString => _ end)
    as [neg r].
  destruct (String.eqb r "0"); [intros [= <-]; lia|].
  destruct (String.eqb r ""); [done|].
  destruct (time.ParseDuration_loop _ _ _ _) as [d [e|]]; [done|].
  destruct neg.
  - intros [= <-]. apply to_int64_range.
  - destruct (d >? 2 ^ 63 - 1); [done|]. intros [= <-].
    apply to_int64_range.
Qed.

(** [SetInt] and [SetUint] store a value of the field's range as it is. *)
Lemma SetInt_in_range t x :
  width (Bits t) ->
  - 2 ^ (Bits t - 1) <= x < 2 ^ (Bits t - 1) ->
  SetInt t x = VInt x.
Proof.
  unfold SetInt. intros Hw Hx. f_equal.
  destruct Hw as [Hw | [Hw | [Hw | Hw]]]; rewrite Hw in *;
    [change (2 ^ (8 - 1)) with 128 in *; change (2 ^ 8) with 256
    |change (2 ^ (16 - 1)) with 32768 in *; change (2 ^ 16) with 65536
    |change (2 ^ (32 - 1)) with 2147483648 in *;
     change (2 ^ 32) with 4294967296
    |change (2 ^ (64 - 1)) with 9223372036854775808 in *;
     change (2 ^ 64) with 18446744073709551616];
    rewrite Z.mod_small; lia.
Qed.

Lemma SetUint_in_range t x :
  width (Bits t) -> 0 <= x < 2 ^ Bits t -> SetUint t x = VUint x.
Proof.
  unfold SetUint. intros Hw Hx. f_equal.
  destruct Hw as [Hw | [Hw | [Hw | Hw]]]; rewrite Hw in *;
    rewrite Z.mod_small; lia.
Qed.

Lemma isDuration_Bits t : isDuration t = true -> Bits t = 64.
Proof.
  destruct t as [b|pkg name b| | | | |]; try done.
  by destruct b.
Qed.

End Ranges.

(** ** The bounded loops run to their end *)

Section Fuel.
Import time.





(** [TrimLeftSpace] leaves no white space at the head. *)
Lemma space_rune_first_shorter s r :
  strings.space_rune_first s = Some r -> String.length r < String.length s.
Proof.
  destruct s as [|c s]; [done|]. unfold strings.space_rune_first.
  destruct (strings.asciiSpace c); [intros [= <-]; simpl; lia|].
  destruct c as [[] [] [] [] [] [] [] []]; try done;
    destruct s as [|c2 s]; try done;
    destruct c2 as [[] [] [] [] [] [] [] []]; try done;
    try (intros [= <-]; simpl; lia);
    destruct s as [|c3 s]; try done;
    try (destruct (_ || _); [intros [= <-]; simpl; lia|done]);
    destruct c3 as [[] [] [] [] [] [] [] []]; try done;
    intros [= <-]; simpl; lia.
Qed.

Lemma trim_go_first_done n : forall s,
  String.length s <= n ->
  strings.space_rune_first (strings.trim_go strings.space_rune_first n s)
  = None.
Proof.
  induction n as [|n IH]; intros s Hn; simpl.
  - destruct s; [done|simpl in Hn; lia].
  - destruct (strings.space_rune_first s) as [r|] eqn:Hr; [|done].
    apply IH. apply space_rune_first_shorter in Hr. lia.
Qed.

Lemma TrimLeftSpace_done s :
  strings.space_rune_first (strings.TrimLeftSpace s) = None.
Proof. by apply trim_go_first_done. Qed.

End Fuel.

(** ** [Process] *)

Lemma walk_root_no_bound pfx t : no_bound_fields t -> walk_root pfx t = ∅.
Proof.
  intros Hno. apply map_empty. intros key.
  destruct (walk_root pfx t !! key) as [v|] eqn:Hv; [|done].
  apply walk_root_sound in Hv as (anc & leaf & Hres & Hb & _).
  apply Hno in Hres. congruence.
Qed.

Lemma range_Parameters_empty params root :
  range_Parameters ∅ params root = (root, Return None).
Proof.
  induction params as [|p params IH]; simpl; [done|].
  by rewrite lookup_empty.
Qed.

Lemma Kind_eqb_eq a b : reflect.Kind_eqb a b = true <-> a = b.
Proof. split; [by destruct a, b|intros ->; by destruct b]. Qed.

(** The handles of the mapping lead to fields of the record: the decoder
    always finds the content it is to replace. *)
Lemma shaped_lookup fs : forall vs i f,
  shaped (TStruct fs) (VStruct vs) = true -> fs !! i = Some f ->
  exists w, vs !! i = Some w /\ shaped (Type_ f) w = true.
Proof.
  induction fs as [|g fs IH]; intros vs i f Hs Hf; [done|].
  destruct vs as [|w vs]; [done|]. simpl in Hs.
  apply andb_prop in Hs as [Hw Hs].
  destruct i as [|i]; simpl in Hf.
  - injection Hf as <-. by exists w.
  - by apply (IH vs i f).
Qed.

Lemma shaped_fields_of t root i f :
  shaped t root = true -> fields_of t !! i = Some f ->
  exists vs w, root = VStruct vs /\ vs !! i = Some w /\
    shaped (Type_ f) w = true.
Proof.
  intros Hs Hf. destruct t as [b| | | | | |fs]; try done.
  destruct root as [| | | | | | | | |vs|]; try done.
  destruct (shaped_lookup fs vs i f Hs Hf) as (w & Hw & Hsw). eauto.
Qed.

Lemma get_path_descend rest : forall f w anc leaf,
  shaped (Type_ f) w = true -> descend f rest = Some (anc, leaf) ->
  is_Some (get_path w rest).
Proof.
  induction rest as [|j rest IH]; intros f w anc leaf Hs Hd; [done|].
  simpl in Hd.
  destruct (fields_of (Type_ f) !! j) as [g|] eqn:Hg; [|done].
  destruct (descend g rest) as [[anc' leaf']|] eqn:Hd'; [|done].
  destruct (shaped_fields_of _ _ _ _ Hs Hg) as (vs & u & -> & Hu & Hsu).
  simpl. rewrite Hu. by apply (IH g u anc' leaf').
Qed.

Lemma get_path_walk_root pfx t root key v :
  shaped t root = true -> walk_root pfx t !! key = Some v ->
  is_Some (get_path root (v_path v)).
Proof.
  intros Hs Hv.
  apply walk_root_sound in Hv as (anc & leaf & Hres & _).
  destruct (v_path v) as [|i rest]; [done|]. simpl in Hres.
  destruct (fields_of t !! i) as [f|] eqn:Hf; [|done].
  destruct (shaped_fields_of _ _ _ _ Hs Hf) as (vs & w & -> & Hw & Hsw).
  simpl. rewrite Hw. by apply (get_path_descend rest f w anc leaf).
Qed.

(** ** Decoding the canonical text of integers, booleans and text *)

Section RoundTrip.
Import strconv.
Local Open Scope Z_scope.

Lemma digit_char_spec d :
  0 <= d < 16 ->
  digit_val (byte (digit_char d)) = Some d /\
  (byte (digit_char d) =? byte "_") = false /\
  Ascii.eqb (digit_char d) "+" = false /\
  Ascii.eqb (digit_char d) "-" = false.
Proof.
  intros H.
  assert (d = 0 \/ d = 1 \/ d = 2 \/ d = 3 \/ d = 4 \/ d = 5 \/ d = 6 \/
          d = 7 \/ d = 8 \/ d = 9 \/ d = 10 \/ d = 11 \/ d = 12 \/
          d = 13 \/ d = 14 \/ d = 15) as Hd by lia.
  repeat (destruct Hd as [->|Hd]; [by repeat split|]). by subst d.
Qed.

Lemma ParseUint_loop_app b0 base cutoff maxVal a : forall b n us,
  ParseUint_loop b0 base cutoff maxVal (a +:+ b) n us =
  match ParseUint_loop b0 base cutoff maxVal a n us with
  | loop_done n' us' => ParseUint_loop b0 base cutoff maxVal b n' us'
  | r => r
  end.
Proof.
  induction a as [|c a IH]; intros b n us; [done|].
  change (String c a +:+ b) with (String c (a +:+ b)).
  cbn [ParseUint_loop].
  destruct ((byte c =? byte "_") && b0); [apply IH|].
  destruct (digit_val (byte c)) as [d|]; [|done].
  destruct (d >=? base); [done|].
  destruct (n >=? cutoff); [done|].
  destruct ((to_uint64 (n * base + d) <? n * base)
            || (to_uint64 (n * base + d) >? maxVal)); [done|].
  apply IH.
Qed.

(** One digit more, read after [m]. *)
Lemma ParseUint_loop_digit b0 base maxVal m d us :
  2 <= base <= 16 -> 0 <= m -> 0 <= d < base ->
  m * base + d <= maxVal -> maxVal <= maxUint64 ->
  ParseUint_loop b0 base (maxUint64 / base + 1) maxVal
    (String (digit_char d) "") m us
  = loop_done (m * base + d) us.
Proof.
  intros Hb Hm Hd Hle Hmax. cbn [ParseUint_loop].
  destruct (digit_char_spec d ltac:(lia)) as (-> & -> & _).
  cbn [andb].
  replace (d >=? base) with false
    by (symmetry; rewrite Z.geb_leb; apply Z.leb_gt; lia).
  assert (m <= maxUint64 / base) as Hcut.
  { apply Z.div_le_lower_bound; lia. }
  replace (m >=? maxUint64 / base + 1) with false
    by (symmetry; rewrite Z.geb_leb; apply Z.leb_gt; lia).
  unfold maxUint64 in Hmax.
  unfold to_uint64. rewrite Z.mod_small by lia.
  replace (m * base + d <? m * base) with false
    by (symmetry; apply Z.ltb_ge; lia).
  replace (m * base + d >? maxVal) with false
    by (symmetry; rewrite Z.gtb_ltb; apply Z.ltb_ge; lia).
  done.
Qed.

Lemma ParseUint_loop_FormatUint b0 base maxVal fuel : forall n,
  2 <= base <= 16 ->
  0 <= n < base ^ Z.of_nat fuel -> n <= maxVal -> maxVal <= maxUint64 ->
  ParseUint_loop b0 base (maxUint64 / base + 1) maxVal
    (FormatUint_go base fuel n) 0 false
  = loop_done n false.
Proof.
  induction fuel as [|fuel IH]; intros n Hb Hn Hle Hmax.
  - simpl in Hn. assert (n = 0) as -> by lia. done.
  - cbn [FormatUint_go].
    destruct (n <? base) eqn:Hlt.
    + apply Z.ltb_lt in Hlt.
      rewrite ParseUint_loop_digit; [f_equal|..]; lia.
    + apply Z.ltb_ge in Hlt.
      rewrite ParseUint_loop_app.
      pose proof (Z.div_mod n base ltac:(lia)) as Hdm.
      pose proof (Z.mod_pos_bound n base ltac:(lia)) as Hmod.
      assert (0 <= n / base) by (apply Z.div_pos; lia).
      rewrite IH.
      * rewrite ParseUint_loop_digit; [f_equal|..]; lia.
      * done.
      * rewrite Nat2Z.inj_succ, Z.pow_succ_r in Hn by lia.
        split; [done|]. apply Z.div_lt_upper_bound; lia.
      * nia.
      * done.
Qed.

Lemma FormatUint_fuel n base :
  2 <= base -> 0 <= n -> n < base ^ Z.of_nat (S (Z.to_nat (Z.log2 n))).
Proof.
  intros Hb Hn. destruct (Z.eq_dec n 0) as [->|Hne].
  { apply Z.pow_pos_nonneg; lia. }
  rewrite Nat2Z.inj_succ, Z2Nat.id by apply Z.log2_nonneg.
  pose proof (Z.log2_spec n ltac:(lia)) as [_ Hlt].
  eapply Z.lt_le_trans; [exact Hlt|].
  apply Z.pow_le_mono_l. pose proof (Z.log2_nonneg n). lia.
Qed.

(** The first character of the digits of a number is a digit, other than
    zero for a positive number. *)
Lemma FormatUint_go_S base fuel n :
  FormatUint_go base (S fuel) n =
  if n <? base then String (digit_char n) ""
  else FormatUint_go base fuel (n / base)
       +:+ String (digit_char (n mod base)) "".
Proof. done. Qed.

Lemma FormatUint_go_head base fuel : forall n,
  2 <= base -> 0 <= n < base ^ Z.of_nat (S fuel) ->
  exists d r, FormatUint_go base (S fuel) n = String (digit_char d) r /\
    0 <= d < base /\ (0 < n -> 1 <= d).
Proof.
  induction fuel as [|fuel IH]; intros n Hb Hn;
    rewrite FormatUint_go_S; destruct (n <? base) eqn:Hlt;
    try (apply Z.ltb_lt in Hlt; exists n, ""; split; [done|lia]);
    apply Z.ltb_ge in Hlt.
  - change (base ^ Z.of_nat 1) with (base ^ 1) in Hn.
    rewrite Z.pow_1_r in Hn. lia.
  - destruct (IH (n / base)) as (d & r & Hr & Hd & Hpos); [done| |].
    + rewrite Nat2Z.inj_succ, Z.pow_succ_r in Hn by lia.
      split; [apply Z.div_pos; lia|].
      apply Z.div_lt_upper_bound; lia.
    + rewrite Hr.
      exists d, (r +:+ String (digit_char (n mod base)) "").
      split; [done|]. split; [done|]. intros _. apply Hpos.
      apply Z.div_str_pos. lia.
Qed.

Lemma FormatUint_head n base :
  2 <= base -> 0 <= n ->
  exists d r, FormatUint n base = String (digit_char d) r /\
    0 <= d < base /\ (0 < n -> 1 <= d).
Proof.
  intros Hb Hn. apply FormatUint_go_head; [done|].
  pose proof (FormatUint_fuel n base). lia.
Qed.

Lemma base_prefix_nonzero d r :
  1 <= d < 10 ->
  base_prefix (String (digit_char d) r) = (10, String (digit_char d) r).
Proof.
  intros H.
  assert (d = 1 \/ d = 2 \/ d = 3 \/ d = 4 \/ d = 5 \/ d = 6 \/
          d = 7 \/ d = 8 \/ d = 9) as Hd by lia.
  repeat (destruct Hd as [->|Hd]; [reflexivity|]). by subst d.
Qed.

Lemma maxVal_of_width bitSize :
  width bitSize ->
  maxVal_of bitSize = 2 ^ bitSize - 1 /\ 2 ^ bitSize <= 2 ^ 64 /\
  (bitSize =? 0) = false /\ ((bitSize <? 0) || (bitSize >? 64)) = false.
Proof.
  intros [-> | [-> | [-> | ->]]]; repeat split; try reflexivity; lia.
Qed.

(** What is left of [ParseUint] once the base is known. *)
Lemma ParseUint_digits s0 n base bitSize :
  width bitSize -> 2 <= base <= 16 -> 0 <= n < 2 ^ bitSize ->
  (let bitSize := if bitSize =? 0 then IntSize else bitSize in
   if (bitSize <? 0) || (bitSize >? 64)
   then (0, Some (bitSizeError fnParseUint s0 bitSize))
   else
     let cutoff := maxUint64 / base + 1 in
     let maxVal := to_uint64 (to_uint64 (Z.shiftl 1 bitSize) - 1) in
     match ParseUint_loop true base cutoff maxVal (FormatUint n base) 0 false
     with
     | loop_syntax => (0, Some (syntaxError fnParseUint s0))
     | loop_range => (maxVal, Some (rangeError fnParseUint s0))
     | loop_done n underscores =>
         if underscores && negb (underscoreOK s0)
         then (0, Some (syntaxError fnParseUint s0))
         else (n, None)
     end) = (n, None).
Proof.
  intros Hw Hb Hn.
  destruct (maxVal_of_width bitSize Hw) as (Hmax & Hle & Hz & Hbs).
  cbv zeta. rewrite Hz, Hbs. fold (maxVal_of bitSize).
  unfold FormatUint.
  rewrite ParseUint_loop_FormatUint; [done|done| |lia|unfold maxUint64; lia].
  pose proof (FormatUint_fuel n base). lia.
Qed.

(** An unsigned literal in base 2, 8, 10 or 16 is read in base 0. *)
Lemma ParseUint_literal n base bitSize :
  literal_base base -> width bitSize -> 0 <= n < 2 ^ bitSize ->
  ParseUint (literal_prefix base +:+ FormatUint n base) 0 bitSize
  = (n, None).
Proof.
  intros Hlb Hw Hn.
  destruct (FormatUint_head n base) as (d & r & Hr & Hd & Hpos);
    [destruct Hlb as [-> | [-> | [-> | ->]]]; lia|lia|].
  destruct Hlb as [-> | [-> | [-> | ->]]].
  - change (literal_prefix 2 +:+ FormatUint n 2)
      with (String "0" (String "b" (FormatUint n 2))).
    rewrite Hr. unfold ParseUint.
    change (base_prefix _) with (2, String (digit_char d) r).
    cbn [Z.eqb Z.leb andb Z.compare]. rewrite <- Hr.
    by apply ParseUint_digits.
  - change (literal_prefix 8 +:+ FormatUint n 8)
      with (String "0" (String "o" (FormatUint n 8))).
    rewrite Hr. unfold ParseUint.
    change (base_prefix _) with (8, String (digit_char d) r).
    cbn [Z.eqb Z.leb andb Z.compare]. rewrite <- Hr.
    by apply ParseUint_digits.
  - change (literal_prefix 10 +:+ FormatUint n 10) with (FormatUint n 10).
    destruct (Z.eq_dec n 0) as [->|Hne].
    { destruct (maxVal_of_width bitSize Hw) as (_ & _ & Hz & Hbs).
      change (FormatUint 0 10) with "0". unfold ParseUint.
      cbn [Z.eqb Z.leb andb Z.compare base_prefix].
      rewrite Hz, Hbs. done. }
    rewrite Hr. unfold ParseUint.
    cbn [Z.eqb Z.leb andb Z.compare].
    rewrite base_prefix_nonzero by lia. rewrite <- Hr.
    by apply ParseUint_digits.
  - change (literal_prefix 16 +:+ FormatUint n 16)
      with (String "0" (String "x" (FormatUint n 16))).
    rewrite Hr. unfold ParseUint.
    change (base_prefix _) with (16, String (digit_char d) r).
    cbn [Z.eqb Z.leb andb Z.compare]. rewrite <- Hr.
    by apply ParseUint_digits.
Qed.

Lemma literal_head n base :
  literal_base base -> 0 <= n ->
  exists d r, literal_prefix base +:+ FormatUint n base
              = String (digit_char d) r /\ 0 <= d < 16.
Proof.
  intros Hlb Hn.
  destruct Hlb as [-> | [-> | [-> | ->]]];
    try (exists 0; eexists; split; [reflexivity|lia]).
  destruct (FormatUint_head n 10) as (d & r & Hr & Hd & _); [lia..|].
  exists d, r. split; [done|lia].
Qed.

(** A signed literal in base 2, 8, 10 or 16 is read in base 0. *)
Lemma ParseInt_literal i base bitSize :
  literal_base base -> width bitSize ->
  - 2 ^ (bitSize - 1) <= i < 2 ^ (bitSize - 1) ->
  ParseInt (IntLiteral i base) 0 bitSize = (i, None).
Proof.
  intros Hlb Hw Hi.
  assert (to_uint64 (Z.shiftl 1 ((if bitSize =? 0 then IntSize else bitSize) - 1))
          = 2 ^ (bitSize - 1) /\ 0 < 2 ^ (bitSize - 1) <= 2 ^ 63)
    as [Hcut Hpos].
  { destruct Hw as [-> | [-> | [-> | ->]]]; (split; [reflexivity|lia]). }
  assert (width 64) as H64 by (unfold width; auto).
  unfold IntLiteral. destruct (i <? 0) eqn:Hneg.
  - apply Z.ltb_lt in Hneg. unfold ParseInt.
    change (Ascii.eqb "-" "+") with false.
    change (Ascii.eqb "-" "-") with true. cbn iota.
    rewrite (ParseUint_literal (- i) base 64) by (done || lia).
    rewrite Hcut. cbn [negb andb].
    replace (- i >? 2 ^ (bitSize - 1)) with false
      by (symmetry; rewrite Z.gtb_ltb; apply Z.ltb_ge; lia).
    f_equal. destruct (Z.eq_dec i (- 2 ^ 63)) as [->|Hne]; [done|].
    rewrite (to_int64_small (- i)) by lia.
    rewrite to_int64_small; lia.
  - apply Z.ltb_ge in Hneg.
    destruct (literal_head i base Hlb Hneg) as (d & r & Hr & Hd).
    destruct (digit_char_spec d Hd) as (_ & _ & Hplus & Hminus).
    unfold ParseInt. rewrite Hr, Hplus, Hminus. rewrite <- Hr.
    rewrite (ParseUint_literal i base 64) by (done || lia).
    rewrite Hcut. cbn [negb andb].
    replace (i >=? 2 ^ (bitSize - 1)) with false
      by (symmetry; rewrite Z.geb_leb; apply Z.leb_gt; lia).
    f_equal. apply to_int64_small. lia.
Qed.


End RoundTrip.

Lemma signed_width typ :
  signed_kind (Kind typ) = true -> width (Bits typ).
Proof.
  destruct typ as [b|pkg name b| | | | |]; try done;
    destruct b; try done; unfold width; cbn; auto.
Qed.

Lemma unsigned_width typ :
  unsigned_kind (Kind typ) = true -> width (Bits typ).
Proof.
  destruct typ as [b|pkg name b| | | | |]; try done;
    destruct b; try done; unfold width; cbn; auto.
Qed.

(** A signed integer decodes from its literal in base 2, 8, 10 or 16, and so
    from its decimal text. *)
Lemma processField_IntLiteral typ i base field :
  signed_kind (Kind typ) = true -> isDuration typ = false ->
  literal_base base ->
  (- 2 ^ (Bits typ - 1) <= i < 2 ^ (Bits typ - 1))%Z ->
  processField typ (IntLiteral i base) field = (VInt i, Return None).
Proof.
  intros Hk Hd Hlb Hi. pose proof (signed_width typ Hk) as Hw.
  rewrite processField_signed_case, Hd by done.
  rewrite ParseInt_literal by done. by rewrite SetInt_in_range.
Qed.


(** An unsigned integer decodes from its literal in base 2, 8, 10 or 16, and
    so from its decimal text. *)
Lemma processField_UintLiteral typ n base field :
  unsigned_kind (Kind typ) = true -> literal_base base ->
  (0 <= n < 2 ^ Bits typ)%Z ->
  processField typ (literal_prefix base +:+ FormatUint n base) field
  = (VUint n, Return None).
Proof.
  intros Hk Hlb Hn. pose proof (unsigned_width typ Hk) as Hw.
  rewrite processField_unsigned_case by done.
  rewrite ParseUint_literal by done. by rewrite SetUint_in_range.
Qed.




(** ** Duration literals *)

Section DurationLiterals.
Import time.
Local Open Scope Z_scope.

Lemma byte_digit_char d : 0 <= d < 10 -> byte (digit_char d) = 48 + d.
Proof.
  intros Hd.
  assert (d = 0 \/ d = 1 \/ d = 2 \/ d = 3 \/ d = 4 \/ d = 5 \/ d = 6 \/
          d = 7 \/ d = 8 \/ d = 9) as H by lia.
  repeat (destruct H as [->|H]; [reflexivity|]). by subst d.
Qed.

Lemma leadingInt_digit d rest x :
  0 <= d < 10 -> 0 <= x -> x * 10 + d <= 2 ^ 63 ->
  leadingInt (String (digit_char d) rest) x = leadingInt rest (x * 10 + d).
Proof.
  intros Hd Hx Hle. cbn [leadingInt]. rewrite byte_digit_char by done.
  change (byte "0") with 48. change (byte "9") with 57.
  replace ((48 + d <? 48) || (48 + d >? 57)) with false.
  2:{ symmetry. apply orb_false_intro; [apply Z.ltb_ge; lia|].
      rewrite Z.gtb_ltb. apply Z.ltb_ge. lia. }
  replace (x >? 2 ^ 63 / 10) with false.
  2:{ symmetry. rewrite Z.gtb_ltb. apply Z.ltb_ge.
      apply Z.div_le_lower_bound; lia. }
  replace (to_uint64 (x * 10 + (48 + d) - 48)) with (x * 10 + d).
  2:{ unfold to_uint64. rewrite Z.mod_small; lia. }
  replace (x * 10 + d >? 2 ^ 63) with false; [done|].
  symmetry. rewrite Z.gtb_ltb. apply Z.ltb_ge. lia.
Qed.

Lemma leadingInt_FormatUint_go fuel : forall n rest,
  0 <= n < 10 ^ Z.of_nat fuel -> n <= 2 ^ 63 ->
  leadingInt (FormatUint_go 10 fuel n +:+ rest) 0 = leadingInt rest n.
Proof.
  induction fuel as [|fuel IH]; intros n rest Hn Hle.
  - simpl in Hn. by assert (n = 0) as -> by lia.
  - rewrite FormatUint_go_S. destruct (n <? 10) eqn:Hlt.
    + apply Z.ltb_lt in Hlt.
      change (String (digit_char n) "" +:+ rest)
        with (String (digit_char n) rest).
      rewrite leadingInt_digit by lia. f_equal; lia.
    + apply Z.ltb_ge in Hlt. rewrite append_assoc.
      change (String (digit_char (n mod 10)) "" +:+ rest)
        with (String (digit_char (n mod 10)) rest).
      pose proof (Z.div_mod n 10 ltac:(lia)) as Hdm.
      pose proof (Z.mod_pos_bound n 10 ltac:(lia)) as Hmod.
      assert (0 <= n / 10) by (apply Z.div_pos; lia).
      rewrite IH.
      * rewrite leadingInt_digit by lia. f_equal; lia.
      * rewrite Nat2Z.inj_succ, Z.pow_succ_r in Hn by lia.
        split; [done|]. apply Z.div_lt_upper_bound; lia.
      * lia.
Qed.

Lemma leadingInt_stop rest n : no_digit_ahead rest ->
  leadingInt rest n = Some (n, rest).
Proof.
  destruct rest as [|c rest]; [done|]. simpl. unfold between.
  intros H. replace ((byte c <? byte "0") || (byte c >? byte "9")) with true;
    [done|].
  symmetry. apply andb_false_iff in H as [H|H].
  - apply Z.leb_gt in H. apply orb_true_intro. left. by apply Z.ltb_lt.
  - apply Z.leb_gt in H. apply orb_true_intro. right.
    rewrite Z.gtb_ltb. by apply Z.ltb_lt.
Qed.

Lemma leadingInt_FormatUint n rest :
  0 <= n <= 2 ^ 63 -> no_digit_ahead rest ->
  leadingInt (FormatUint n 10 +:+ rest) 0 = Some (n, rest).
Proof.
  intros Hn Hrest. unfold FormatUint.
  rewrite leadingInt_FormatUint_go; [by apply leadingInt_stop| |lia].
  pose proof (FormatUint_fuel n 10). lia.
Qed.

Lemma unitMap_inv u unit :
  unitMap u = Some unit ->
  u = "ns"%string \/ u = "us"%string \/
  u = String "194" (String "181" "s") \/
  u = String "206" (String "188" "s") \/
  u = "ms"%string \/ u = "s"%string \/ u = "m"%string \/ u = "h"%string.
Proof.
  unfold unitMap.
  repeat match goal with
  | |- context [String.eqb u ?n] =>
      let H := fresh "H" in
      destruct (String.eqb u n) eqn:H;
      [apply String.eqb_eq in H; intros _; tauto|]
  end.
  done.
Qed.

Lemma span_unit_stop rest :
  digit_ahead rest -> span_unit rest = (""%string, rest).
Proof.
  destruct rest as [|c rest]; [done|]. simpl. intros ->.
  by rewrite orb_true_r.
Qed.

Lemma span_unit_cons c s :
  (byte c =? byte ".") || between "0" (byte c) "9" = false ->
  span_unit (String c s)
  = (String c (fst (span_unit s)), snd (span_unit s)).
Proof. intros H. cbn [span_unit]. rewrite H. by destruct (span_unit s). Qed.

Lemma span_unit_name u unit rest :
  unitMap u = Some unit -> digit_ahead rest ->
  span_unit (u +:+ rest) = (u, rest) /\ no_digit_ahead (u +:+ rest) /\
  exists c r, u = String c r /\ Ascii.eqb c "." = false.
Proof.
  intros Hu Hrest. pose proof (span_unit_stop rest Hrest) as Hs.
  apply unitMap_inv in Hu.
  destruct Hu as [->|[->|[->|[->|[->|[->|[->| ->]]]]]]];
    (split; [|split; [reflexivity|by eexists _, _]]);
    cbv [String.append]; rewrite !span_unit_cons by reflexivity;
    by rewrite Hs.
Qed.

Lemma DurationLiteral_digit_ahead spans :
  Forall span_ok spans -> digit_ahead (DurationLiteral spans).
Proof.
  intros [|[n u] rest [Hn _] _]; [done|]. simpl in *.
  destruct (FormatUint_head n 10) as (d & r & Hr & Hd & _); [lia..|].
  rewrite Hr. change (between "0" (byte (digit_char d)) "9" = true).
  unfold between. rewrite byte_digit_char by lia.
  apply andb_true_intro. split; apply Z.leb_le;
    [change (byte "0") with 48|change (byte "9") with 57]; lia.
Qed.

Lemma unit_ns_pos u unit :
  unitMap u = Some unit -> unit_ns u = unit /\ 1 <= unit.
Proof.
  intros Hu. unfold unit_ns. rewrite Hu. split; [done|].
  pose proof (unitMap_inv u unit Hu) as Hn.
  repeat (destruct Hn as [->|Hn]; [by injection Hu as <-|]).
  subst u. by injection Hu as <-.
Qed.

Lemma DurationLiteral_ns_nonneg spans :
  Forall span_ok spans -> 0 <= DurationLiteral_ns spans.
Proof.
  induction 1 as [|[n u] rest [Hn [unit Hu]] _ IH]; simpl in *; [lia|].
  destruct (unit_ns_pos u unit Hu) as [-> Hpos]. nia.
Qed.

Lemma frac_skip (s : string) c r :
  s = String c r -> Ascii.eqb c "." = false ->
  match s with
  | String "."%char s1 =>
      let '(f, scale, s2) := leadingFraction s1 0 (float64.of_Z 1) false in
      (f, scale, s2, negb (Nat.eqb (String.length s1) (String.length s2)))
  | _ => (0, float64.of_Z 1, s, false)
  end = (0, float64.of_Z 1, s, false).
Proof.
  intros -> Hdot.
  destruct c as [[] [] [] [] [] [] [] []]; try reflexivity; discriminate Hdot.
Qed.

Lemma digit_char_digit d :
  0 <= d < 10 -> between "0" (byte (digit_char d)) "9" = true.
Proof.
  intros Hd. unfold between. rewrite byte_digit_char by lia.
  apply andb_true_intro. split; apply Z.leb_le;
    [change (byte "0") with 48|change (byte "9") with 57]; lia.
Qed.

(** One round of the loop of [ParseDuration], over a number and its unit. *)
Lemma ParseDuration_loop_span fuel orig n u unit rest d :
  0 <= n -> unitMap u = Some unit -> digit_ahead rest ->
  0 <= d -> d + n * unit <= 2 ^ 63 ->
  ParseDuration_loop (S fuel) orig (FormatUint n 10 +:+ u +:+ rest) d
  = ParseDuration_loop fuel orig rest (d + n * unit).
Proof.
  intros Hn Hu Hrest Hd Hsum.
  destruct (unit_ns_pos u unit Hu) as [_ Hpos].
  destruct (span_unit_name u unit rest Hu Hrest)
    as (Hspan & Hnd & cu & ru & Hcu & Hdot).
  pose proof (leadingInt_FormatUint n (u +:+ rest) ltac:(nia) Hnd) as Hint.
  destruct (FormatUint_head n 10) as (d0 & r0 & Hr & Hd0 & _); [lia..|].
  assert (String.length (u +:+ rest)
          < String.length (FormatUint n 10 +:+ u +:+ rest))%nat as Hlen.
  { rewrite Hr. rewrite (length_append (String _ _)). simpl. lia. }
  revert Hint Hlen. rewrite Hr.
  change (String (digit_char d0) r0 +:+ u +:+ rest)
    with (String (digit_char d0) (r0 +:+ u +:+ rest)).
  intros Hint Hlen.
  cbn [ParseDuration_loop]. rewrite Hint.
  rewrite (digit_char_digit d0), orb_true_r by done.
  cbn [negb].
  rewrite (frac_skip (u +:+ rest) cu (ru +:+ rest))
    by (done || by rewrite Hcu).
  cbn iota beta. rewrite Hspan, Hcu. cbn iota. rewrite <- Hcu, Hu.
  replace (String.length _ =? String.length _)%nat with false
    by (symmetry; apply Nat.eqb_neq; lia).
  cbn [negb andb].
  replace (n >? 2 ^ 63 / unit) with false.
  2:{ symmetry. rewrite Z.gtb_ltb. apply Z.ltb_ge.
      apply Z.div_le_lower_bound; nia. }
  change (0 >? 0) with false. cbn [andb]. cbn iota.
  unfold to_uint64. rewrite (Z.mod_small (n * unit)) by nia.
  rewrite Z.mod_small by nia.
  replace (d + n * unit >? 2 ^ 63) with false; [done|].
  symmetry. rewrite Z.gtb_ltb. apply Z.ltb_ge. lia.
Qed.

Lemma ParseDuration_loop_spans spans : forall fuel orig d,
  (length spans <= fuel)%nat -> Forall span_ok spans ->
  0 <= d -> d + DurationLiteral_ns spans < 2 ^ 63 ->
  ParseDuration_loop fuel orig (DurationLiteral spans) d
  = (d + DurationLiteral_ns spans, None).
Proof.
  induction spans as [|[n u] spans IH]; intros fuel orig d Hf Hok Hd Hs.
  - simpl. rewrite Z.add_0_r. by destruct fuel.
  - destruct fuel as [|fuel]; [simpl in Hf; lia|].
    apply Forall_cons in Hok as [[Hn [unit Hu]] Hok]. simpl in Hn, Hu, Hs.
    destruct (unit_ns_pos u unit Hu) as [Hns Hpos]. rewrite Hns in Hs.
    pose proof (DurationLiteral_ns_nonneg spans Hok) as Hnn.
    cbn [DurationLiteral DurationLiteral_ns]. rewrite Hns.
    rewrite (ParseDuration_loop_span fuel orig n u unit);
      [|done|done|by apply DurationLiteral_digit_ahead|done|nia].
    rewrite IH; [f_equal; lia|simpl in Hf; lia|done|nia|lia].
Qed.

Lemma DurationLiteral_length spans :
  Forall span_ok spans ->
  (2 * length spans <= String.length (DurationLiteral spans))%nat.
Proof.
  induction 1 as [|[n u] spans [Hn [unit Hu]] _ IH]; [done|].
  simpl in *. rewrite !length_append.
  destruct (FormatUint_head n 10) as (d0 & r0 & -> & _); [lia..|].
  destruct (span_unit_name u unit "" Hu I) as (_ & _ & cu & ru & -> & _).
  simpl. lia.
Qed.

(** [ParseDuration] on a literal without fractions. *)
Lemma ParseDuration_literal spans :
  spans <> [] -> Forall span_ok spans ->
  DurationLiteral_ns spans < 2 ^ 63 ->
  ParseDuration (DurationLiteral spans) = (DurationLiteral_ns spans, None).
Proof.
  intros Hne Hok Hs.
  pose proof (DurationLiteral_length spans Hok) as Hlen.
  pose proof (DurationLiteral_ns_nonneg spans Hok) as Hnn.
  pose proof (ParseDuration_loop_spans spans
                (String.length (DurationLiteral spans))
                (DurationLiteral spans) 0 ltac:(lia) Hok ltac:(lia)
                ltac:(lia)) as Hloop.
  destruct spans as [|[n u] spans]; [done|]. clear Hne.
  apply Forall_cons in Hok as [[Hn [unit Hu]] Hok]. simpl in Hn, Hu.
  destruct (FormatUint_head n 10) as (d0 & r0 & Hr & Hd0 & _); [lia..|].
  destruct (digit_char_spec d0 ltac:(lia)) as (_ & _ & Hplus & Hminus).
  revert Hlen Hloop Hnn Hs.
  generalize (DurationLiteral_ns ((n, u) :: spans)). intros total.
  cbn [DurationLiteral]. rewrite Hr.
  change (String (digit_char d0) r0 +:+ u +:+ DurationLiteral spans)
    with (String (digit_char d0) (r0 +:+ u +:+ DurationLiteral spans)).
  set (tail := r0 +:+ u +:+ DurationLiteral spans).
  intros Hlen Hloop Hnn Hs. unfold ParseDuration.
  rewrite Hminus, Hplus. cbn [orb]. cbn iota beta.
  replace (String.eqb (String (digit_char d0) tail) "0") with false.
  2:{ symmetry. apply String.eqb_neq. intros Heq.
      rewrite Heq in Hlen. simpl in Hlen. lia. }
  change (String.eqb (String (digit_char d0) tail) "") with false.
  cbn iota. rewrite Hloop. rewrite Z.add_0_l.
  replace (total >? 2 ^ 63 - 1) with false
    by (symmetry; rewrite Z.gtb_ltb; apply Z.ltb_ge; lia).
  f_equal. apply to_int64_small. lia.
Qed.

End DurationLiterals.

(** A duration field reads a literal without fractions as the sum of its
    spans. *)
Lemma processField_DurationLiteral typ spans field :
  isDuration typ = true ->
  spans <> [] -> Forall span_ok spans ->
  (DurationLiteral_ns spans < 2 ^ 63)%Z ->
  processField typ (DurationLiteral spans) field
  = (VInt (DurationLiteral_ns spans), Return None).
Proof.
  intros Hd Hne Hok Hs.
  assert (signed_kind (Kind typ) = true) as Hk.
  { destruct typ as [b|pkg name b| | | | |]; try done. by destruct b. }
  rewrite processField_signed_case, Hd by done.
  rewrite ParseDuration_literal by done.
  pose proof (DurationLiteral_ns_nonneg spans Hok) as Hnn.
  rewrite SetInt_in_range; [done|by apply signed_width|].
  rewrite (isDuration_Bits typ Hd). change (2 ^ (64 - 1))%Z with (2 ^ 63)%Z.
  lia.
Qed.

(** ** Products of integers in [float64] *)

Section Exact.
Local Open Scope Z_scope.











End Exact.

(** ** The text of a duration *)

Section DurationText.
Import time.
Local Open Scope Z_scope.








End DurationText.

Section DurationString.
Import time.
Local Open Scope Z_scope.



End DurationString.

Section DurationRoundTrip.
Import time.
Local Open Scope Z_scope.




End DurationRoundTrip.

Section DurationSign.
Import time.
Local Open Scope Z_scope.




End DurationSign.




(** * The claims *)

(** ** C1: qualified names *)

(** C1. For every record, the fully-qualified name of every bound leaf
    field, the call prefix followed by the tag of every ancestor sub-record
    (the empty string where an ancestor has no tag) and by the leaf's own tag,
    is a key of the name-to-field mapping, and the field it maps to is a bound
    leaf of that name: the leaf itself when no other bound leaf has the same
    name. Conversely every key of the mapping is the qualified name of a
    bound leaf, to which it maps. *)
Theorem walk_root_qualified_names pfx t path anc leaf :
  resolve t path = Some (anc, leaf) ->
  bound anc leaf = true ->
  (exists v,
     walk_root pfx t !! qualified_name pfx anc leaf = Some v /\
     CanSet v = true /\
     ((forall path' anc' leaf',
         resolve t path' = Some (anc', leaf') -> bound anc' leaf' = true ->
         qualified_name pfx anc' leaf' = qualified_name pfx anc leaf ->
         path' = path) ->
      v_path v = path /\ v_typ v = Type_ leaf)) /\
  (forall key v,
     walk_root pfx t !! key = Some v ->
     exists anc' leaf',
       resolve t (v_path v) = Some (anc', leaf') /\
       bound anc' leaf' = true /\
       key = qualified_name pfx anc' leaf' /\
       v_typ v = Type_ leaf').
Proof.
  intros Hres Hb. split.
  - destruct (walk_root_complete pfx t path anc leaf Hres Hb) as [v Hv].
    exists v. split; [done|].
    destruct (walk_root_sound _ _ _ _ Hv)
      as (anc' & leaf' & Hres' & Hb' & Hkey & Htyp & Hset).
    split; [done|]. intros Huniq.
    assert (v_path v = path) as Hp by (by eapply Huniq).
    split; [done|]. rewrite Hp, Hres in Hres'. by injection Hres' as _ <-.
  - intros key v Hv.
    destruct (walk_root_sound _ _ _ _ Hv)
      as (anc' & leaf' & Hres' & Hb' & Hkey & Htyp & _).
    by exists anc', leaf'.
Qed.

(** ** C2: invalid arguments *)

(** C2. Given a nil record, a value that is not a pointer, or a pointer to
    something that is not a struct, [Process] returns an error, with one
    message for the nil and non-pointer cases and another for the pointer that
    does not lead to a struct; it sends no request to the store and leaves
    its argument as it was. *)
Theorem Process_InvalidSpec range_keys ssmsvc pfx spec msg :
  InvalidSpec spec msg ->
  Process range_keys ssmsvc pfx spec
  = mkProcessed (Return (Some (errors_New msg))) spec []
  /\ (msg = "spec must be non-nil pointer" \/
      msg = "spec must be a struct type")
  /\ errors_New "spec must be non-nil pointer"
     <> errors_New "spec must be a struct type".
Proof.
  intros Hinv. split; [|split; [by destruct Hinv; auto|done]].
  destruct Hinv as [|t v Hk|elem p Hk|elem]; simpl.
  - done.
  - destruct t as [b|pkg name b| | | | |]; try done.
  - destruct p as [| | | | | | | |[s|]| |]; try done.
    destruct (reflect.Kind_eqb (Kind elem) reflect.Struct) eqn:Hs; [|done].
    by apply Kind_eqb_eq in Hs.
  - done.
Qed.

(** ** C4: store failure *)

(** C4. When the batched fetch fails, [Process] returns the error of the
    store itself, after that one request, and the record is as it was. *)
Theorem Process_store_error range_keys ssmsvc pfx elem s out e :
  Kind elem = reflect.Struct ->
  ssmsvc (GetParametersInput_of range_keys (walk_root pfx elem))
  = (out, Some e) ->
  Process range_keys ssmsvc pfx (Some (TPtr elem, VPtr (Some s)))
  = mkProcessed (Return (Some e)) (Some (TPtr elem, VPtr (Some s)))
      [GetParametersInput_of range_keys (walk_root pfx elem)].
Proof.
  intros Hk Hstore. unfold Process.
  apply Kind_eqb_eq in Hk. rewrite Hk. simpl. by rewrite Hstore.
Qed.

(** ** C8: nothing bound *)

(** C8. For a record none of whose fields is bound, [Process] sends the one
    request, with an empty list of names and decryption asked for, and the
    record is as it was, whatever the store answers. *)
Theorem Process_no_bound_fields range_keys ssmsvc pfx elem s :
  (forall infos,
     Permutation (range_keys infos) (map fst (map_to_list infos))) ->
  Kind elem = reflect.Struct ->
  no_bound_fields elem ->
  let input := ssm.mkGetParametersInput [] (aws.Bool true) in
  let r := Process range_keys ssmsvc pfx (Some (TPtr elem, VPtr (Some s))) in
  requests r = [input] /\
  spec_after r = Some (TPtr elem, VPtr (Some s)) /\
  result r =
    match ssmsvc input with
    | (_, Some e) => Return (Some e)
    | (Some _, None) => Return None
    | (None, None) =>
        Panic "invalid memory address or nil pointer dereference"
    end.
Proof.
  intros Hperm Hk Hno input r. subst r. unfold Process.
  apply Kind_eqb_eq in Hk. rewrite Hk. simpl.
  rewrite (walk_root_no_bound pfx elem Hno).
  assert (GetParametersInput_of range_keys ∅ = input) as ->.
  { unfold GetParametersInput_of, input. f_equal.
    specialize (Hperm ∅). rewrite map_to_list_empty in Hperm. simpl in Hperm.
    apply Permutation_sym, Permutation_nil in Hperm. by rewrite Hperm. }
  destruct (ssmsvc input) as [[out|] [e|]]; simpl; try done.
  by rewrite range_Parameters_empty.
Qed.

(** ** C7: blank sequences *)

(** C7. For a sequence field whose elements are not bytes, an empty or
    white-space-only raw string decodes without error to an empty sequence
    that is not nil. *)
Theorem processField_slice_blank elem value field :
  reflect.Kind_eqb (Kind elem) reflect.Uint8 = false ->
  whitespace_only value ->
  processField (TSlice elem) value field = (VSlice (Some []), Return None).
Proof.
  intros Hk Hws. rewrite processField_slice, Hk.
  by rewrite (whitespace_only_blank value Hws).
Qed.

(** ** C10: containers are assigned whole *)

(** C10. For a sequence that is not a byte sequence and for a mapping: an
    error of [processField], and a panic as well, leaves the field as it was;
    when an element, key or value does not decode, [processField] fails and
    the field is as it was, and what it fails with is an error returned
    unless the type has a slice of a defined byte type in it, the one thing
    the decoder panics on; and the error is that of the first element, key
    or value that fails. *)
Theorem processField_container_atomic typ value field :
  container typ = true ->
  (forall out,
     out <> Return None ->
     snd (processField typ value field) = out ->
     fst (processField typ value field) = field) /\
  (blank value = false -> element_fails typ value ->
   (exists out, out <> Return None /\
      processField typ value field = (field, out)) /\
   (panic_free typ = true ->
    exists e, processField typ value field = (field, Return (Some e)))) /\
  (forall e,
     blank value = false -> first_failure typ value e ->
     processField typ value field = (field, Return (Some e))).
Proof.
  intros Hc.
  split.
  { intros out Hne Hs. apply processField_failure_unchanged. by rewrite Hs. }
  assert (blank value = false -> element_fails typ value ->
          exists out, out <> Return None /\
            processField typ value field = (field, out)) as Hfails.
  { destruct typ as [b|pkg name b| |key elem| |elem|]; try done;
      simpl in Hc.
    - intros Hb (p & ks & vs & Hin & Hsp & Hf).
      rewrite processField_map, Hb.
      destruct (decode_pairs_fails (processField key) (processField elem)
                  (zero key) (zero elem) _ p ks vs Hin Hsp Hf) as [out Hd].
      rewrite Hd. exists out. split; [|done].
      by apply decode_pairs_inr in Hd.
    - apply negb_true_iff in Hc. intros Hb (seg & Hin & Hf).
      rewrite processField_slice, Hc, Hb.
      destruct (decode_each_fails (processField elem) (zero elem) _ seg
                  Hin Hf) as [out Hd].
      rewrite Hd. exists out. split; [|done].
      by apply decode_each_inr in Hd. }
  split.
  - intros Hb Hf. split; [by apply Hfails|]. intros Hpf.
    destruct (Hfails Hb Hf) as (out & Hne & Heq).
    pose proof (processField_panic_free typ Hpf value field) as Hnp.
    rewrite Heq in *. destruct out as [[e|]|t]; [by exists e|done|].
    by destruct (Hnp t).
  - destruct typ as [b|pkg name b| |key elem| |elem|]; try done;
      simpl in Hc.
    + intros e Hb (good & p & rest & kvs & ks & vs & Hs & Hg & Hsp & Hf).
      rewrite processField_map, Hb, Hs.
      by rewrite (decode_pairs_first_error _ _ _ _ good p rest kvs ks vs
                    (Return (Some e))).
    + apply negb_true_iff in Hc.
      intros e Hb (good & seg & rest & vs & Hs & Hg & Hf).
      rewrite processField_slice, Hc, Hb, Hs.
      by rewrite (decode_each_first_error _ _ good seg rest vs
                    (Return (Some e))).
Qed.

(** ** C3: sequences *)



(** ** C5: signed integers *)

(** C5. A field of a signed integer kind is decoded with [ParseInt] in base
    0 at the bit width of the field, except the duration type, decoded with
    [ParseDuration]; the error of either is returned and leaves the field as
    it was; a value decoded is in the range of the field's width; every
    integer of that range is decoded from its literal in base 10, or in base
    16, 8 or 2 with the prefix [0x], [0o] or [0b]; and a duration is decoded
    from a literal of numbers with their units, as [5m] or [1h30m], to the
    sum of its spans in nanoseconds when that sum is below [2 ^ 63]. *)
Theorem processField_signed typ value field :
  signed_kind (Kind typ) = true ->
  processField typ value field =
    match (if isDuration typ then time.ParseDuration value
           else strconv.ParseInt value 0 (Bits typ)) with
    | (_, Some e) => (field, Return (Some e))
    | (n, None) => (VInt n, Return None)
    end /\
  (forall v, processField typ value field = (v, Return None) ->
     exists n, v = VInt n /\
       (- 2 ^ (Bits typ - 1) <= n < 2 ^ (Bits typ - 1))%Z) /\
  (forall i base,
     isDuration typ = false -> literal_base base ->
     (- 2 ^ (Bits typ - 1) <= i < 2 ^ (Bits typ - 1))%Z ->
     processField typ (IntLiteral i base) field = (VInt i, Return None)) /\
  (forall spans,
     isDuration typ = true -> spans <> [] -> Forall span_ok spans ->
     (DurationLiteral_ns spans < 2 ^ 63)%Z ->
     processField typ (DurationLiteral spans) field
     = (VInt (DurationLiteral_ns spans), Return None)).
Proof.
  intros Hk. pose proof (signed_width typ Hk) as Hw.
  assert (forall n,
    (if isDuration typ then time.ParseDuration value
     else strconv.ParseInt value 0 (Bits typ)) = (n, None) ->
    (- 2 ^ (Bits typ - 1) <= n < 2 ^ (Bits typ - 1))%Z) as Hrange.
  { intros n. destruct (isDuration typ) eqn:Hd.
    - intros Hp. apply ParseDuration_range in Hp.
      by rewrite (isDuration_Bits typ Hd).
    - by apply ParseInt_range. }
  assert (processField typ value field =
    match (if isDuration typ then time.ParseDuration value
           else strconv.ParseInt value 0 (Bits typ)) with
    | (_, Some e) => (field, Return (Some e))
    | (n, None) => (VInt n, Return None)
    end) as Heq.
  { rewrite processField_signed_case by done.
    destruct (if isDuration typ then _ else _) as [n [e|]] eqn:Hp; [done|].
    by rewrite SetInt_in_range by (done || by apply Hrange). }
  split; [done|]. split; [|split].
  - intros v. rewrite Heq.
    destruct (if isDuration typ then _ else _) as [n [e|]] eqn:Hp; [done|].
    intros [= <-]. exists n. split; [done|]. by apply Hrange.
  - intros i base Hd Hlb Hi. by apply processField_IntLiteral.
  - intros spans Hd Hne Hok Hlt. by apply processField_DurationLiteral.
Qed.

(** ** C6: mappings *)

(** C6, as amended. For a mapping field: a blank raw string gives the empty
    mapping. Any other raw string is split on [","] into pairs and each pair
    on [":"]; a pair that does not split into exactly two parts makes the
    decoder fail, the field left as it was, and with an error returned
    unless the type has a slice of a defined byte type in it, on which an
    earlier pair makes the decoder panic; when every pair splits and its
    parts decode as key and as value, the mapping is built from these entries
    from left to right, a key met again taking the place of the equal key
    and of its value; and the first error or panic met is the one the
    decoder ends with. *)
Theorem processField_mapping key elem value field :
  (blank value = true ->
   processField (TMap key elem) value field
   = (VMap (Some []), Return None)) /\
  (blank value = false ->
   (forall p,
      In p (strings.Split value ",") ->
      length (strings.Split p ":") <> 2 ->
      (exists out, out <> Return None /\
         processField (TMap key elem) value field = (field, out)) /\
      (panic_free (TMap key elem) = true ->
       exists e,
         processField (TMap key elem) value field
         = (field, Return (Some e)))) /\
   (forall kvs,
      decode_pairs (processField key) (processField elem)
        (zero key) (zero elem) (strings.Split value ",") = inl kvs ->
      processField (TMap key elem) value field
      = (VMap (Some (build_map kvs)), Return None)) /\
   (forall out,
      decode_pairs (processField key) (processField elem)
        (zero key) (zero elem) (strings.Split value ",") = inr out ->
      processField (TMap key elem) value field = (field, out))).
Proof.
  rewrite processField_map. split; [by intros ->|]. intros Hb. rewrite Hb.
  split; [|split].
  - intros p Hin Hlen.
    destruct (decode_pairs_malformed (processField key) (processField elem)
                (zero key) (zero elem) _ p Hin Hlen) as [out Hd].
    pose proof (decode_pairs_inr _ _ _ _ _ _ Hd) as Hne.
    rewrite Hd. split; [by exists out|]. intros Hpf.
    pose proof (processField_panic_free _ Hpf value field) as Hnp.
    rewrite processField_map, Hb, Hd in Hnp.
    destruct out as [[e|]|t]; [by exists e|done|by destruct (Hnp t)].
  - by intros kvs ->.
  - by intros out ->.
Qed.

(** C6, as stated, fails on the empty string: its one pair does not split in
    two, and the decoder returns the empty mapping without error. *)
Lemma mapping_rule_unguarded_fails : ~ mapping_rule_unguarded.
Proof.
  intros H.
  apply (H (TBasic Tstring) (TBasic Tint) "" (VMap None) "").
  - by left.
  - discriminate.
  - reflexivity.
Qed.

(** ** C9: round trips *)



(** * The claims at the inputs of the package's tests *)

(** The record [SmallConfig] walked under the prefix ["/test"]. *)
Lemma walk_root_qualified_names_SmallConfig :
  resolve SmallConfig [0; 0]
  = Some ([fld "Nested" "/prefixnested" NestedStringConfig],
          fld "NestedKey" "/nested/key" (TBasic Tstring)) /\
  exists v,
    walk_root "/test" SmallConfig !! "/test/prefixnested/nested/key" = Some v
    /\ CanSet v = true.
Proof.
  split; [reflexivity|].
  destruct (walk_root_qualified_names "/test" SmallConfig [0; 0]
              [fld "Nested" "/prefixnested" NestedStringConfig]
              (fld "NestedKey" "/nested/key" (TBasic Tstring))
              eq_refl eq_refl) as [(v & Hv & Hset & _) _].
  exists v. split; [exact Hv|exact Hset].
Defined.

(** [config: 1], which is not a pointer. *)
Lemma Process_InvalidSpec_not_ptr :
  InvalidSpec (Some (TBasic Tint, VInt 1)) "spec must be non-nil pointer" /\
  Process keys_in_order (mockSSM None None) "" (Some (TBasic Tint, VInt 1))
  = mkProcessed (Return (Some (errors_New "spec must be non-nil pointer")))
      (Some (TBasic Tint, VInt 1)) [].
Proof.
  assert (InvalidSpec (Some (TBasic Tint, VInt 1))
            "spec must be non-nil pointer") as H.
  { apply non_pointer. discriminate. }
  split; [exact H|].
  exact (proj1 (Process_InvalidSpec keys_in_order (mockSSM None None) ""
                  _ _ H)).
Defined.

(** The store fails with the error ["test"]. *)
Lemma Process_store_error_test :
  Kind Config = reflect.Struct /\
  Process keys_in_order (mockSSM None (Some (errors_New "test"))) ""
    (Some (TPtr Config, VPtr (Some (zero Config))))
  = mkProcessed (Return (Some (errors_New "test")))
      (Some (TPtr Config, VPtr (Some (zero Config))))
      [GetParametersInput_of keys_in_order (walk_root "" Config)].
Proof.
  split; [reflexivity|].
  exact (Process_store_error keys_in_order
           (mockSSM None (Some (errors_New "test"))) "" Config (zero Config)
           None (errors_New "test") eq_refl eq_refl).
Defined.

Lemma no_bound_fields_NoTagConfig : no_bound_fields NoTagConfig.
Proof.
  intros [|[|i] [|j rest]] anc leaf; simpl; try discriminate.
  intros [= <- <-]. reflexivity.
Defined.

(** [NoTagConfig], with a store that answers with a parameter nobody asked
    for. *)
Lemma Process_no_bound_fields_NoTagConfig :
  let store :=
    mockSSM (Some (ssm.mkGetParametersOutput [param "/test/key" "testkey"]))
      None in
  let spec := Some (TPtr NoTagConfig,
                    VPtr (Some (VStruct [VString "nooverride"]))) in
  let r := Process keys_in_order store "" spec in
  requests r = [ssm.mkGetParametersInput [] (Some true)] /\
  spec_after r = spec /\
  result r = Return None.
Proof.
  exact (Process_no_bound_fields keys_in_order
           (mockSSM (Some (ssm.mkGetParametersOutput
                             [param "/test/key" "testkey"])) None)
           "" NoTagConfig (VStruct [VString "nooverride"])
           (fun infos => Permutation_refl _) eq_refl
           no_bound_fields_NoTagConfig).
Defined.

(** A raw string of two spaces, for a slice of integers. *)
Lemma processField_slice_blank_spaces :
  whitespace_only "  " /\
  processField (TSlice (TBasic Tint)) "  " (VSlice None)
  = (VSlice (Some []), Return None).
Proof.
  assert (whitespace_only "  ") as H.
  { exists [" "; " "]. split; [|reflexivity].
    repeat constructor; do 5 right; left; reflexivity. }
  split; [exact H|].
  exact (processField_slice_blank (TBasic Tint) "  " (VSlice None) eq_refl H).
Defined.

(** The third of three 8-bit integers is out of range; and in a map from
    text to slices of a defined byte type the first value makes the decoder
    panic before the second key is met. *)
Lemma processField_container_atomic_int8 :
  processField (TSlice (TBasic Tint8)) "1,2,300" (VSlice None)
  = (VSlice None,
     Return (Some (NumError "ParseInt" "300" strconv_err.ErrRange))) /\
  exists out,
    out <> Return None /\
    processField (TMap (TBasic Tint) (TSlice (TNamed "main" "MyByte" Tuint8)))
      "1:a,x:b" (VMap None)
    = (VMap None, out).
Proof.
  split.
  - refine (proj2 (proj2 (processField_container_atomic
                            (TSlice (TBasic Tint8)) "1,2,300" (VSlice None)
                            eq_refl)) _ eq_refl _).
    exists ["1"; "2"], "300", [], [VInt 1; VInt 2].
    repeat split; reflexivity.
  - refine (proj1 (proj1 (proj2 (processField_container_atomic
                            (TMap (TBasic Tint)
                               (TSlice (TNamed "main" "MyByte" Tuint8)))
                            "1:a,x:b" (VMap None) eq_refl)) eq_refl _)).
    exists "x:b", "x", "b". split; [right; left; reflexivity|].
    split; [reflexivity|]. left. discriminate.
Defined.

(** A 16-bit integer in hexadecimal and in octal; and the durations of five
    minutes and of an hour and a half. *)
Lemma processField_signed_hex :
  signed_kind (Kind (TBasic Tint16)) = true /\
  processField (TBasic Tint16) "0x1f" (VInt 0) = (VInt 31, Return None) /\
  processField (TBasic Tint16) "-0o17" (VInt 0) = (VInt (-15), Return None) /\
  signed_kind (Kind TDuration) = true /\
  processField TDuration "5m" (VInt 0)
  = (VInt 300000000000, Return None) /\
  processField TDuration "1h30m" (VInt 0)
  = (VInt 5400000000000, Return None).
Proof.
  split; [reflexivity|]. split; [|split; [|split; [reflexivity|split]]].
  - exact (proj1 (processField_signed (TBasic Tint16) "0x1f" (VInt 0)
                    eq_refl)).
  - refine (proj1 (proj2 (proj2 (processField_signed (TBasic Tint16) ""
                                   (VInt 0) eq_refl)))
              (-15)%Z 8%Z eq_refl _ _).
    + right; left; reflexivity.
    + change (- 2 ^ 15 <= -15 < 2 ^ 15)%Z. lia.
  - refine (proj2 (proj2 (proj2 (processField_signed TDuration "" (VInt 0)
                                   eq_refl)))
              [(5%Z, "m")] eq_refl _ _ _).
    + discriminate.
    + constructor; [split; [done|by eexists]|constructor].
    + reflexivity.
  - refine (proj2 (proj2 (proj2 (processField_signed TDuration "" (VInt 0)
                                   eq_refl)))
              [(1%Z, "h"); (30%Z, "m")] eq_refl _ _ _).
    + discriminate.
    + constructor; [split; [done|by eexists]|].
      constructor; [split; [done|by eexists]|constructor].
    + reflexivity.
Defined.

(** The mapping of the specification; a pair without separator; and the two
    zeros of a float as keys, of which the second takes the place of the
    first. *)
Lemma processField_mapping_a1b2 :
  processField (TMap (TBasic Tstring) (TBasic Tint)) "a:1,b:2" (VMap None)
  = (VMap (Some [(VString "a", VInt 1); (VString "b", VInt 2)]),
     Return None) /\
  processField (TMap (TBasic Tstring) (TBasic Tint)) "a-1" (VMap None)
  = (VMap None, Return (Some (fmt_Errorf "invalid map item: %q" "a-1"))) /\
  processField (TMap (TBasic Tfloat64) (TBasic Tstring)) "0:a,-0:b"
    (VMap None)
  = (VMap (Some [(VFloat (S754_zero true), VString "b")]), Return None).
Proof.
  split; [|split].
  - exact (proj1 (proj2 (proj2 (processField_mapping (TBasic Tstring)
                                  (TBasic Tint) "a:1,b:2" (VMap None))
                           eq_refl))
             [(VString "a", VInt 1); (VString "b", VInt 2)] eq_refl).
  - exact (proj2 (proj2 (proj2 (processField_mapping (TBasic Tstring)
                                  (TBasic Tint) "a-1" (VMap None))
                           eq_refl))
             (Return (Some (fmt_Errorf "invalid map item: %q" "a-1")))
             eq_refl).
  - exact (proj1 (proj2 (proj2 (processField_mapping (TBasic Tfloat64)
                                  (TBasic Tstring) "0:a,-0:b" (VMap None))
                           eq_refl))
             [(VFloat (S754_zero false), VString "a");
              (VFloat (S754_zero true), VString "b")] eq_refl).
Defined.


(** * Further properties of the decoder *)

(** ** Unsigned integers *)

Lemma processField_ParseUint typ value field :
  unsigned_kind (Kind typ) = true ->
  processField typ value field =
    match strconv.ParseUint value 0 (Bits typ) with
    | (_, Some e) => (field, Return (Some e))
    | (n, None) => (VUint n, Return None)
    end.
Proof.
  intros Hk. pose proof (unsigned_width typ Hk) as Hw.
  rewrite processField_unsigned_case by done.
  destruct (strconv.ParseUint value 0 (Bits typ)) as [n [e|]] eqn:Hp; [done|].
  pose proof (ParseUint_range _ _ _ _ Hw Hp) as Hr.
  by rewrite SetUint_in_range.
Qed.

(** X1. A field of an unsigned integer kind is decoded with [ParseUint] in
    base 0 at the bit width of the field: the error of the parser is returned
    and leaves the field as it was, a value decoded is in the range of the
    width, and every integer of that range is decoded from its literal in
    base 10, or in base 16, 8 or 2 with its prefix. *)
Theorem processField_unsigned typ value field :
  unsigned_kind (Kind typ) = true ->
  processField typ value field =
    match strconv.ParseUint value 0 (Bits typ) with
    | (_, Some e) => (field, Return (Some e))
    | (n, None) => (VUint n, Return None)
    end /\
  (forall v, processField typ value field = (v, Return None) ->
     exists n, v = VUint n /\ (0 <= n < 2 ^ Bits typ)%Z) /\
  (forall n base,
     literal_base base -> (0 <= n < 2 ^ Bits typ)%Z ->
     processField typ (literal_prefix base +:+ FormatUint n base) field
     = (VUint n, Return None)).
Proof.
  intros Hk. pose proof (unsigned_width typ Hk) as Hw.
  pose proof (processField_ParseUint typ value field Hk) as Heq.
  split; [done|]. split.
  - intros v. rewrite Heq.
    destruct (strconv.ParseUint value 0 (Bits typ)) as [n [e|]] eqn:Hp;
      [done|].
    intros [= <-]. exists n. split; [done|].
    by apply (ParseUint_range value 0).
  - intros n base Hlb Hn. by apply processField_UintLiteral.
Qed.

Lemma ParseUint_sign c s bitSize :
  c = "-"%char \/ c = "+"%char -> width bitSize ->
  strconv.ParseUint (String c s) 0 bitSize
  = (0%Z, Some (NumError "ParseUint" (String c s) strconv_err.ErrSyntax)).
Proof.
  intros Hc Hw.
  destruct (maxVal_of_width bitSize Hw) as (_ & _ & Hz & Hbs).
  unfold strconv.ParseUint.
  cbn [Z.eqb Z.leb andb Z.compare].
  destruct Hc as [-> | ->]; cbn [strconv.base_prefix];
    rewrite Hz, Hbs; reflexivity.
Qed.

(** X2. An unsigned field takes no sign: a raw string that begins with ['-']
    or ['+'] is a syntax error, whatever follows, and the field is left as it
    was. *)
Theorem processField_sign_refused typ c s field :
  unsigned_kind (Kind typ) = true ->
  c = "-"%char \/ c = "+"%char ->
  processField typ (String c s) field
  = (field,
     Return (Some (NumError "ParseUint" (String c s) strconv_err.ErrSyntax))).
Proof.
  intros Hk Hc. pose proof (unsigned_width typ Hk) as Hw.
  rewrite processField_ParseUint by done.
  by rewrite ParseUint_sign.
Qed.

(** ** What an error and what a success leave behind *)

(** X3. For a field of any type, an error of [processField] leaves the
    field with the content it had: nothing is assigned before the last
    check. *)
Theorem processField_error_keeps_field typ value field e :
  snd (processField typ value field) = Return (Some e) ->
  processField typ value field = (field, Return (Some e)).
Proof.
  intros He. pose proof (processField_error_unchanged _ _ _ _ He) as Hf.
  destruct (processField typ value field) as [v err].
  simpl in *. by subst.
Qed.

Lemma processField_error_independent typ value f1 f2 :
  snd (processField typ value f1) = snd (processField typ value f2).
Proof.
  destruct typ as [b|pkg name b| | | | |].
  - destruct b; cbn [processField Kind basic_Kind]; destruct_parse; done.
  - destruct b; cbn [processField Kind basic_Kind]; destruct_parse; done.
  - done.
  - rewrite !processField_map.
    destruct (blank value); [done|]. by destruct (decode_pairs _ _ _ _ _).
  - done.
  - rewrite !processField_slice.
    destruct (reflect.Kind_eqb _ _); [by destruct (bytes_assignable _)|].
    destruct (blank value); [done|]. by destruct (decode_each _ _ _).
  - done.
Qed.

Lemma processField_value_independent typ value f1 f2 :
  decodable (Kind typ) = true ->
  snd (processField typ value f1) = Return None ->
  fst (processField typ value f1) = fst (processField typ value f2).
Proof.
  intros Hd. destruct typ as [b|pkg name b| | | | |]; try done.
  - destruct b; try done; cbn [processField Kind basic_Kind];
      destruct_parse; done.
  - destruct b; try done; cbn [processField Kind basic_Kind];
      destruct_parse; done.
  - rewrite !processField_map.
    destruct (blank value); [done|].
    destruct (decode_pairs _ _ _ _ _) as [kvs|out] eqn:Hp; [done|].
    apply decode_pairs_inr in Hp. simpl. by intros ->.
  - rewrite !processField_slice.
    destruct (reflect.Kind_eqb _ _); [by destruct (bytes_assignable _)|].
    destruct (blank value); [done|].
    destruct (decode_each _ _ _) as [vs|out] eqn:Hp; [done|].
    apply decode_each_inr in Hp. simpl. by intros ->.
Qed.

Lemma processField_not_decodable typ value field :
  decodable (Kind typ) = false ->
  processField typ value field = (field, Return None).
Proof.
  intros Hd. destruct typ as [b|pkg name b| | | | |]; try done;
    by destruct b.
Qed.

(** X4. Whether [processField] fails, and with what error, does not depend
    on what the field holds; for a kind the switch has a case for, neither
    does the decoded value, so that a slice or a map is replaced and never
    extended; for every other kind (structs, pointers, arrays, [uintptr],
    complex numbers, channels, functions, interfaces) the field is left as it
    is without error. *)
Theorem processField_overwrites typ value f1 f2 :
  snd (processField typ value f1) = snd (processField typ value f2) /\
  (decodable (Kind typ) = true ->
   snd (processField typ value f1) = Return None ->
   fst (processField typ value f1) = fst (processField typ value f2)) /\
  (decodable (Kind typ) = false ->
   processField typ value f1 = (f1, Return None)).
Proof.
  split; [apply processField_error_independent|].
  split; [apply processField_value_independent|].
  apply processField_not_decodable.
Qed.

(** ** Splitting on a one-byte separator *)

Lemma split_go_char c s cur :
  strings.split_go (String c "") s 0 cur =
  match s with
  | EmptyString => [String.rev cur]
  | String x s' =>
      if Ascii.eqb c x
      then String.rev cur :: strings.split_go (String c "") s' 0 ""
      else strings.split_go (String c "") s' 0 (String x cur)
  end.
Proof.
  destruct s as [|x s']; [done|]. cbn [strings.split_go strings.HasPrefix].
  destruct (Ascii.eqb c x); [|done].
  by destruct s'.
Qed.

Lemma split_go_length c s : forall cur,
  length (strings.split_go (String c "") s 0 cur) = S (occurrences c s).
Proof.
  induction s as [|x s IH]; intros cur; rewrite split_go_char; [done|].
  cbn [occurrences]. destruct (Ascii.eqb c x); simpl; by rewrite IH.
Qed.

Lemma Split_length c s :
  length (strings.Split s (String c "")) = S (occurrences c s).
Proof. apply split_go_length. Qed.

Lemma rev_app_append a : forall b t,
  String.rev_app a b +:+ t = String.rev_app a (b +:+ t).
Proof. induction a as [|x a IH]; intros b t; [done|]. apply IH. Qed.

Lemma occurrences_rev_app c a : forall b,
  occurrences c (String.rev_app a b) = occurrences c a + occurrences c b.
Proof.
  induction a as [|x a IH]; intros b; [done|].
  cbn [String.rev_app occurrences]. rewrite IH. cbn [occurrences]. lia.
Qed.

Lemma split_go_concat c s : forall cur,
  String.concat (String c "") (strings.split_go (String c "") s 0 cur)
  = String.rev_app cur s.
Proof.
  induction s as [|x s IH]; intros cur; rewrite split_go_char; [done|].
  destruct (Ascii.eqb c x) eqn:Hc.
  - apply Ascii.eqb_eq in Hc as <-.
    pose proof (split_go_length c s "") as Hl. specialize (IH ""%string).
    destruct (strings.split_go (String c "") s 0 "") as [|seg segs];
      [done|].
    change (String.concat (String c "") (String.rev cur :: seg :: segs))
      with (String.rev cur +:+ String c "" +:+
            String.concat (String c "") (seg :: segs)).
    rewrite IH. unfold String.rev. by rewrite rev_app_append.
  - by rewrite IH.
Qed.

Lemma Split_concat c s :
  String.concat (String c "") (strings.Split s (String c "")) = s.
Proof. apply (split_go_concat c s ""). Qed.

Lemma split_go_no_separator c s : forall cur,
  occurrences c cur = 0 ->
  Forall (fun seg => occurrences c seg = 0)
    (strings.split_go (String c "") s 0 cur).
Proof.
  induction s as [|x s IH]; intros cur Hcur; rewrite split_go_char.
  - constructor; [|done]. unfold String.rev. rewrite occurrences_rev_app.
    cbn [occurrences]. lia.
  - destruct (Ascii.eqb c x) eqn:Hc.
    + constructor; [|by apply IH].
      unfold String.rev. rewrite occurrences_rev_app. cbn [occurrences]. lia.
    + apply IH. cbn [occurrences]. rewrite Hc. lia.
Qed.

Lemma Split_no_separator c s :
  Forall (fun seg => occurrences c seg = 0) (strings.Split s (String c "")).
Proof. by apply split_go_no_separator. Qed.

Lemma split_go_other d c s : forall cur,
  Forall (fun seg => occurrences d seg <= occurrences d cur + occurrences d s)
    (strings.split_go (String c "") s 0 cur).
Proof.
  induction s as [|x s IH]; intros cur; rewrite split_go_char.
  - constructor; [|done]. unfold String.rev. rewrite occurrences_rev_app.
    cbn [occurrences]. lia.
  - cbn [occurrences]. destruct (Ascii.eqb c x) eqn:Hc.
    + constructor.
      * unfold String.rev. rewrite occurrences_rev_app. cbn [occurrences]. lia.
      * eapply Forall_impl; [apply (IH ""%string)|].
        cbn [occurrences]. intros seg Hle. lia.
    + eapply Forall_impl; [apply (IH (String x cur))|].
      cbn [occurrences]. intros seg Hle. lia.
Qed.

Lemma Split_other d c s :
  Forall (fun seg => occurrences d seg <= occurrences d s)
    (strings.Split s (String c "")).
Proof. apply (split_go_other d c s ""). Qed.

Lemma decode_each_Forall2 pf z segs : forall vs,
  decode_each pf z segs = inl vs ->
  Forall2 (fun seg v => pf seg z = (v, Return None)) segs vs.
Proof.
  induction segs as [|seg segs IH]; intros vs; simpl.
  - intros [= <-]. constructor.
  - destruct (pf seg z) as [v [[e|]|t]] eqn:Hp; [done| |done].
    destruct (decode_each pf z segs) as [vs'|e]; [|done].
    intros [= <-]. constructor; [done|]. by apply IH.
Qed.

Lemma blank_empty : blank "" = true.
Proof. done. Qed.

(** ** Slices *)

Lemma slice_length elem value field v :
  reflect.Kind_eqb (Kind elem) reflect.Uint8 = false ->
  processField (TSlice elem) value field = (v, Return None) ->
  exists vs, v = VSlice (Some vs) /\
    length vs = if blank value then 0 else S (occurrences "," value).
Proof.
  intros Hb. rewrite processField_slice, Hb.
  destruct (blank value).
  - intros [= <-]. by exists [].
  - destruct (decode_each _ _ _) as [vs|e] eqn:Hd; [|by inr_absurd Hd].
    intros [= <-]. exists vs. split; [done|].
    apply decode_each_Forall2, Forall2_length in Hd.
    by rewrite <- Hd, Split_length.
Qed.

(** X5. A slice whose elements are not bytes gets one element more than the
    raw string has commas, unless the string is blank: an empty segment, as
    after a trailing comma, is an element like any other. *)
Theorem processField_slice_length elem value field v :
  reflect.Kind_eqb (Kind elem) reflect.Uint8 = false ->
  processField (TSlice elem) value field = (v, Return None) ->
  exists vs, v = VSlice (Some vs) /\
    length vs = if blank value then 0 else S (occurrences "," value).
Proof.
  intros Hb. rewrite processField_slice, Hb.
  destruct (blank value); [intros [= <-]; by exists []|].
  destruct (decode_each _ _ _) as [vs|e] eqn:Hd; [|by inr_absurd Hd].
  intros [= <-]. exists vs. split; [done|].
  apply decode_each_Forall2, Forall2_length in Hd.
  by rewrite <- Hd, Split_length.
Qed.

(** X6. A slice of strings never fails to decode, and a raw string that is
    not blank is cut at every comma and nowhere else: the elements hold no
    comma, and joined with commas they give the raw string back, with every
    space of it. *)
Theorem processField_text_slice elem value field :
  Kind elem = reflect.String ->
  blank value = false ->
  exists segs,
    processField (TSlice elem) value field
    = (VSlice (Some (map VString segs)), Return None) /\
    String.concat "," segs = value /\
    Forall (fun seg => occurrences "," seg = 0) segs.
Proof.
  intros Hk Hb. exists (strings.Split value ",").
  split; [|split; [apply Split_concat|apply Split_no_separator]].
  rewrite processField_slice, Hk, Hb. simpl.
  assert (forall segs,
    decode_each (processField elem) (zero elem) segs
    = inl (map VString segs)) as ->; [|done].
  induction segs as [|seg segs IH]; [done|]. simpl. rewrite IH.
  by rewrite processField_String.
Qed.


Lemma short_slice_segment elem seg v :
  reflect.Kind_eqb (Kind elem) reflect.Uint8 = false ->
  occurrences "," seg = 0 ->
  processField (TSlice elem) seg (zero (TSlice elem)) = (v, Return None) ->
  short_slice v.
Proof.
  intros Hb Hc Hp. destruct (slice_length _ _ _ _ Hb Hp) as (vs & -> & Hl).
  exists vs. split; [done|]. rewrite Hl, Hc. by destruct (blank seg); lia.
Qed.

Lemma decode_pairs_Forall2 pfk pfv zk zv pairs : forall kvs,
  decode_pairs pfk pfv zk zv pairs = inl kvs ->
  Forall2 (fun p kv => exists ks vs,
             strings.Split p ":" = [ks; vs] /\
             pfk ks zk = (fst kv, Return None) /\
             pfv vs zv = (snd kv, Return None))
    pairs kvs.
Proof.
  induction pairs as [|p pairs IH]; intros kvs; simpl.
  - intros [= <-]. constructor.
  - destruct (strings.Split p ":") as [|ks [|vs [|? ?]]] eqn:Hs; try done.
    destruct (pfk ks zk) as [k [[e|]|t]] eqn:Hk; [done| |done].
    destruct (pfv vs zv) as [v [[e|]|t]] eqn:Hv; [done| |done].
    destruct (decode_pairs pfk pfv zk zv pairs) as [kvs'|e]; [|done].
    intros [= <-]. constructor; [|by apply IH].
    by exists ks, vs.
Qed.

Lemma SetMapIndex_Forall (P : goval -> Prop) mp k v :
  Forall (fun kv => P (snd kv)) mp -> P v ->
  Forall (fun kv => P (snd kv)) (SetMapIndex mp k v).
Proof.
  intros Hmp Hv. induction Hmp as [|[k' v'] mp Hkv Hmp IH]; simpl.
  - by constructor.
  - destruct (go_eqb k' k); by constructor.
Qed.

Lemma foldl_SetMapIndex_Forall (P : goval -> Prop) kvs : forall mp,
  Forall (fun kv => P (snd kv)) mp ->
  Forall (fun kv => P (snd kv)) kvs ->
  Forall (fun kv => P (snd kv))
    (foldl (fun mp kv => SetMapIndex mp (fst kv) (snd kv)) mp kvs).
Proof.
  induction kvs as [|kv kvs IH]; intros mp Hmp Hkvs; [done|].
  inversion_clear Hkvs. simpl. apply IH; [|done].
  by apply SetMapIndex_Forall.
Qed.

(** X7. Commas belong to the outermost container. In a slice of slices, and
    in a map whose values are slices, no inner slice that is not a byte slice
    ever gets more than one element. *)
Theorem processField_inner_slices elem value field :
  reflect.Kind_eqb (Kind elem) reflect.Uint8 = false ->
  (forall vs,
     processField (TSlice (TSlice elem)) value field
     = (VSlice (Some vs), Return None) ->
     Forall short_slice vs) /\
  (forall key mp,
     processField (TMap key (TSlice elem)) value field
     = (VMap (Some mp), Return None) ->
     Forall (fun kv => short_slice (snd kv)) mp).
Proof.
  intros Hb. split.
  - intros vs. rewrite processField_slice.
    change (reflect.Kind_eqb (Kind (TSlice elem)) reflect.Uint8) with false.
    cbn iota. destruct (blank value); [by intros [= <-]|].
    destruct (decode_each _ _ _) as [vs'|e] eqn:Hd; [|by inr_absurd Hd].
    intros [= <-]. apply decode_each_Forall2 in Hd.
    pose proof (Split_no_separator "," value) as Hsep.
    revert Hsep. induction Hd as [|seg v segs vs' Hp Hd IH]; [done|].
    intros Hsep. inversion_clear Hsep.
    constructor; [|by apply IH].
    by apply (short_slice_segment elem seg).
  - intros key mp. rewrite processField_map.
    destruct (blank value); [by intros [= <-]|].
    destruct (decode_pairs _ _ _ _ _) as [kvs|e] eqn:Hd; [|by inr_absurd Hd].
    intros [= <-]. apply decode_pairs_Forall2 in Hd.
    apply (foldl_SetMapIndex_Forall short_slice); [done|].
    pose proof (Split_no_separator "," value) as Hsep.
    revert Hsep. induction Hd as [|p kv pairs kvs (ks & vs & Hs & _ & Hv) Hd IH];
      [done|].
    intros Hsep. inversion_clear Hsep.
    constructor; [|by apply IH].
    apply (short_slice_segment elem vs); [done| |done].
    pose proof (Split_other "," ":" p) as Ho. rewrite Hs in Ho.
    inversion_clear Ho as [|? ? _ Ho']. inversion_clear Ho' as [|? ? Hvs _].
    lia.
Qed.

(** ** Maps *)

Lemma go_eqb_plain_l k k' : plain_key k -> go_eqb k k' = true <-> k = k'.
Proof.
  intros Hk. split; [|intros <-].
  - destruct k; try done; destruct k'; simpl; try done.
    + by intros ->%Bool.eqb_true_iff.
    + by intros ->%Z.eqb_eq.
    + by intros ->%Z.eqb_eq.
    + by intros ->%String.eqb_eq.
  - destruct k; try done; simpl.
    + by apply Bool.eqb_true_iff.
    + by apply Z.eqb_eq.
    + by apply Z.eqb_eq.
    + by apply String.eqb_eq.
Qed.

Lemma processField_plain typ value field v :
  plain_key_kind (Kind typ) = true ->
  processField typ value field = (v, Return None) -> plain_key v.
Proof.
  intros Hk. destruct typ as [b|pkg name b| | | | |]; try done;
    destruct b; try done; cbn [processField Kind basic_Kind];
    destruct_parse; try done; by intros [= <-].
Qed.

Lemma MapIndex_SetMapIndex mp k v k' :
  Forall (fun kv => plain_key (fst kv)) mp -> plain_key k ->
  MapIndex (SetMapIndex mp k v) k' =
  if go_eqb k k' then Some v else MapIndex mp k'.
Proof.
  intros Hmp Hk. induction Hmp as [|[k0 v0] mp Hk0 Hmp IH]; simpl; [done|].
  simpl in Hk0.
  destruct (go_eqb k0 k) eqn:H0.
  - apply (go_eqb_plain_l _ _ Hk0) in H0 as ->. simpl.
    by destruct (go_eqb k k').
  - simpl. rewrite IH.
    destruct (go_eqb k0 k') eqn:H1; [|done].
    apply (go_eqb_plain_l _ _ Hk0) in H1 as ->.
    destruct (go_eqb k k') eqn:H2; [|done].
    apply (go_eqb_plain_l _ _ Hk) in H2 as ->.
    by rewrite (proj2 (go_eqb_plain_l k' k' Hk) eq_refl) in H0.
Qed.

Lemma SetMapIndex_keys mp k v :
  Forall (fun kv => plain_key (fst kv)) mp -> plain_key k ->
  NoDup (map fst mp) ->
  Forall (fun kv => plain_key (fst kv)) (SetMapIndex mp k v) /\
  NoDup (map fst (SetMapIndex mp k v)) /\
  length (SetMapIndex mp k v) <= S (length mp) /\
  (forall x, x ∈ map fst (SetMapIndex mp k v) -> x ∈ map fst mp \/ x = k).
Proof.
  intros Hmp Hk. induction Hmp as [|[k0 v0] mp Hk0 Hmp IH]; simpl.
  - intros _. repeat split.
    + by constructor.
    + apply NoDup_singleton.
    + lia.
    + intros x ->%list_elem_of_singleton. by right.
  - intros [Hnin Hnd]%NoDup_cons. simpl in Hk0.
    destruct (go_eqb k0 k) eqn:H0; simpl.
    + apply (go_eqb_plain_l _ _ Hk0) in H0 as <-. repeat split.
      * by constructor.
      * by apply NoDup_cons.
      * lia.
      * intros x Hx. by left.
    + destruct (IH Hnd) as (Hp & Hn & Hl & Hin).
      repeat split.
      * by constructor.
      * apply NoDup_cons. split; [|done].
        intros [Hx| ->]%Hin; [done|].
        by rewrite (proj2 (go_eqb_plain_l k k Hk0) eq_refl) in H0.
      * lia.
      * intros x [->|Hx]%elem_of_cons; [left; apply list_elem_of_here|].
        destruct (Hin x Hx) as [?| ->]; [left|by right].
        by apply list_elem_of_further.
Qed.

Lemma build_map_last_written kvs : forall mp,
  Forall (fun kv => plain_key (fst kv)) mp ->
  Forall (fun kv => plain_key (fst kv)) kvs ->
  NoDup (map fst mp) ->
  let mp' := foldl (fun mp kv => SetMapIndex mp (fst kv) (snd kv)) mp kvs in
  NoDup (map fst mp') /\
  length mp' <= length mp + length kvs /\
  forall k, MapIndex mp' k =
    match last_written kvs k with
    | Some w => Some w
    | None => MapIndex mp k
    end.
Proof.
  induction kvs as [|[k v] kvs IH]; intros mp Hmp Hkvs Hnd; simpl.
  - repeat split; [done|lia].
  - inversion_clear Hkvs as [|? ? Hk Hkvs']. simpl in Hk.
    destruct (SetMapIndex_keys mp k v Hmp Hk Hnd) as (Hp & Hn & Hl & _).
    destruct (IH (SetMapIndex mp k v) Hp Hkvs' Hn) as (Hn' & Hl' & Hi).
    split; [done|]. split; [simpl in *; lia|].
    intros k'. rewrite Hi. destruct (last_written kvs k'); [done|].
    rewrite MapIndex_SetMapIndex by done. by destruct (go_eqb k k').
Qed.

(** X8. In a map whose keys are text, booleans or integers, every key is
    there once, and the value read under a key is the one of the last pair of
    the raw string that decodes to this key: a key written twice, also in two
    spellings such as [1] and [0x1], keeps its later value. *)
Theorem processField_map_last_wins key elem value field mp :
  plain_key_kind (Kind key) = true ->
  processField (TMap key elem) value field
  = (VMap (Some mp), Return None) ->
  exists kvs,
    (if blank value then kvs = []
     else decode_pairs (processField key) (processField elem)
            (zero key) (zero elem) (strings.Split value ",") = inl kvs) /\
    NoDup (map fst mp) /\
    length mp <= length kvs /\
    forall k, MapIndex mp k = last_written kvs k.
Proof.
  intros Hk. rewrite processField_map. destruct (blank value).
  - intros [= <-]. exists []. repeat split; [constructor|done].
  - destruct (decode_pairs _ _ _ _ _) as [kvs|e] eqn:Hd; [|by inr_absurd Hd].
    intros [= <-]. exists kvs. split; [done|].
    assert (Forall (fun kv => plain_key (fst kv)) kvs) as Hkvs.
    { apply decode_pairs_Forall2 in Hd.
      induction Hd as [|p kv pairs kvs (ks & vs & _ & Hks & _) Hd IH];
        constructor; [|done].
      by apply (processField_plain key ks (zero key)). }
    destruct (build_map_last_written kvs [] (Forall_nil_2 _) Hkvs
                (NoDup_nil_2)) as (Hn & Hl & Hi).
    split; [done|]. split; [done|].
    intros k. rewrite Hi. by destruct (last_written kvs k).
Qed.

Lemma decode_pairs_malformed_first pfk pfv zk zv p rest : forall good kvs,
  decode_pairs pfk pfv zk zv good = inl kvs ->
  length (strings.Split p ":") <> 2 ->
  decode_pairs pfk pfv zk zv (good ++ p :: rest)
  = inr (Return (Some (fmt_Errorf "invalid map item: %q" p))).
Proof.
  induction good as [|g good IH]; intros kvs Hg Hp; simpl.
  - by destruct (strings.Split p ":") as [|ks [|vs [|? ?]]].
  - simpl in Hg.
    destruct (strings.Split g ":") as [|ks [|vs [|? ?]]]; try done.
    destruct (pfk ks zk) as [k [[e|]|t]]; [done| |done].
    destruct (pfv vs zv) as [v [[e|]|t]]; [done| |done].
    destruct (decode_pairs pfk pfv zk zv good) as [kvs'|e]; [|done].
    by rewrite (IH kvs').
Qed.

(** X17. An item of a map that does not hold exactly one colon is refused:
    the decoder fails with the field as it was, returning an error unless
    the type has a slice of a defined byte type in it, on which an earlier
    item makes it panic; and when the items before it decode the error names
    this item; neither a key nor a value can hold a colon or a comma. *)
Theorem processField_map_items key elem value field p :
  blank value = false ->
  In p (strings.Split value ",") ->
  occurrences ":" p <> 1 ->
  ((exists out, out <> Return None /\
      processField (TMap key elem) value field = (field, out)) /\
   (panic_free (TMap key elem) = true ->
    exists e,
      processField (TMap key elem) value field
      = (field, Return (Some e)))) /\
  (forall good rest kvs,
     strings.Split value "," = good ++ p :: rest ->
     decode_pairs (processField key) (processField elem)
       (zero key) (zero elem) good = inl kvs ->
     processField (TMap key elem) value field
     = (field, Return (Some (fmt_Errorf "invalid map item: %q" p)))).
Proof.
  intros Hb Hin Hc.
  assert (length (strings.Split p ":") <> 2) as Hl.
  { rewrite Split_length. lia. }
  split.
  - destruct (decode_pairs_malformed (processField key) (processField elem)
                (zero key) (zero elem) _ p Hin Hl) as [out Hd].
    pose proof (decode_pairs_inr _ _ _ _ _ _ Hd) as Hne.
    split.
    + exists out. split; [done|]. by rewrite processField_map, Hb, Hd.
    + intros Hpf.
      pose proof (processField_panic_free _ Hpf value field) as Hnp.
      rewrite processField_map, Hb, Hd in *.
      destruct out as [[e|]|t]; [by exists e|done|by destruct (Hnp t)].
  - intros good rest kvs Hs Hgood. rewrite processField_map, Hb, Hs.
    by rewrite (decode_pairs_malformed_first _ _ _ _ p rest good kvs).
Qed.

(** ** Durations *)

Lemma leadingInt_all_digits s : forall x,
  all_digits s = true ->
  time.leadingInt s x = None \/ exists v, time.leadingInt s x = Some (v, ""%string).
Proof.
  induction s as [|c s IH]; intros x; simpl; [by right; eexists|].
  intros [Hc Hs]%andb_prop. unfold between in Hc.
  apply andb_prop in Hc as [Hlo Hhi].
  apply Z.leb_le in Hlo, Hhi.
  replace ((byte c <? byte "0") || (byte c >? byte "9"))%Z with false.
  2:{ symmetry. apply orb_false_intro; [by apply Z.ltb_ge|].
      rewrite Z.gtb_ltb. by apply Z.ltb_ge. }
  destruct (x >? 2 ^ 63 / 10)%Z; [by left|].
  destruct (to_uint64 _ >? 2 ^ 63)%Z; [by left|].
  by apply IH.
Qed.

Lemma digit_not_sign c :
  between "0" (byte c) "9" = true ->
  Ascii.eqb c "-" || Ascii.eqb c "+" = false /\ Ascii.eqb c "." = false.
Proof.
  unfold between. intros [Hlo Hhi]%andb_prop. apply Z.leb_le in Hlo, Hhi.
  change (byte "0") with 48%Z in Hlo. change (byte "9") with 57%Z in Hhi.
  split; [apply orb_false_intro|]; apply Ascii.eqb_neq; intros ->;
    unfold byte in *; simpl in *; lia.
Qed.

Lemma ParseDuration_loop_digits orig c r :
  all_digits (String c r) = true ->
  exists e,
    time.ParseDuration_loop (String.length (String c r)) orig (String c r) 0
    = (0%Z, Some e) /\
    (e = time.invalid_duration orig \/
     e = time_error "time: missing unit in duration " [orig]).
Proof.
  intros Hd. pose proof Hd as [Hc _]%andb_prop.
  destruct (digit_not_sign c Hc) as [_ Hdot].
  cbn [String.length time.ParseDuration_loop].
  rewrite Hc, Hdot. cbn [orb negb].
  destruct (leadingInt_all_digits (String c r) 0%Z Hd) as [->|[v ->]].
  - eexists. split; [done|by left].
  - cbn [String.length Nat.eqb negb andb time.span_unit].
    eexists. split; [done|by right].
Qed.

(** X9. A duration field refuses a bare number: digits alone, with or
    without a sign, are an error that leaves the field as it was, except for
    the single digit [0]. *)
Theorem processField_duration_needs_unit sign digits field :
  sign = ""%string \/ sign = "-"%string \/ sign = "+"%string ->
  all_digits digits = true ->
  digits <> "0"%string ->
  exists e,
    processField TDuration (sign +:+ digits) field
    = (field, Return (Some e)) /\
    (e = time.invalid_duration (sign +:+ digits) \/
     e = time_error "time: missing unit in duration " [sign +:+ digits]).
Proof.
  intros Hsign Hd H0. rewrite processField_signed_case by done.
  change (isDuration TDuration) with true. cbn iota.
  set (orig := sign +:+ digits).
  assert (exists e, time.ParseDuration orig = (0%Z, Some e) /\
            (e = time.invalid_duration orig \/
             e = time_error "time: missing unit in duration " [orig]))
    as (e & -> & He); [|by exists e].
  apply String.eqb_neq in H0.
  assert (digits = ""%string \/
          exists e,
            time.ParseDuration_loop (String.length digits) orig digits 0
            = (0%Z, Some e) /\
            String.eqb digits "" = false /\
            (e = time.invalid_duration orig \/
             e = time_error "time: missing unit in duration " [orig]))
    as Hloop.
  { destruct digits as [|c r]; [by left|]. right.
    destruct (ParseDuration_loop_digits orig c r Hd) as (e & He & Hor).
    by exists e. }
  unfold time.ParseDuration. fold orig.
  destruct Hsign as [Hs|[Hs|Hs]]; subst sign.
  - change orig with digits in *.
    destruct Hloop as [->|(e & He & Hne & Hor)].
    { eexists. split; [done|by left]. }
    destruct digits as [|c r]; [done|].
    pose proof Hd as [Hc _]%andb_prop.
    destruct (digit_not_sign c Hc) as [-> _].
    cbn iota beta. rewrite H0, Hne, He. by exists e.
  - change orig with (String "-" digits) at 1.
    cbn [Ascii.eqb Bool.eqb andb orb]. cbn iota beta. rewrite H0.
    destruct Hloop as [->|(e & He & Hne & Hor)].
    { eexists. split; [done|by left]. }
    rewrite Hne, He. by exists e.
  - change orig with (String "+" digits) at 1.
    cbn [Ascii.eqb Bool.eqb andb orb]. cbn iota beta. rewrite H0.
    destruct Hloop as [->|(e & He & Hne & Hor)].
    { eexists. split; [done|by left]. }
    rewrite Hne, He. by exists e.
Qed.

(** ** Integers out of range *)

Section OutOfRange.
Import strconv.
Local Open Scope Z_scope.

Lemma ParseUint_loop_digit_range b0 base maxVal m d us :
  2 <= base <= 16 -> 0 <= m <= maxVal -> 0 <= d < base ->
  maxVal < m * base + d -> maxVal <= maxUint64 ->
  ParseUint_loop b0 base (maxUint64 / base + 1) maxVal
    (String (digit_char d) "") m us
  = loop_range.
Proof.
  intros Hb Hm Hd Hgt Hmax. cbn [ParseUint_loop].
  destruct (digit_char_spec d ltac:(lia)) as (-> & -> & _).
  cbn [andb].
  replace (d >=? base) with false
    by (symmetry; rewrite Z.geb_leb; apply Z.leb_gt; lia).
  destruct (m >=? maxUint64 / base + 1) eqn:Hcut; [done|].
  rewrite Z.geb_leb in Hcut. apply Z.leb_gt in Hcut.
  assert (m * base <= maxUint64) as Hmb.
  { pose proof (Z.mul_div_le maxUint64 base ltac:(lia)). nia. }
  unfold maxUint64 in *. unfold to_uint64.
  destruct (Z_lt_le_dec (m * base + d) (2 ^ 64)) as [Hs|Hl].
  - rewrite Z.mod_small by lia.
    replace (m * base + d >? maxVal) with true
      by (symmetry; rewrite Z.gtb_ltb; apply Z.ltb_lt; lia).
    by rewrite orb_true_r.
  - replace ((m * base + d) mod 2 ^ 64) with (m * base + d - 2 ^ 64).
    2:{ apply Z.mod_unique with 1; lia. }
    replace (m * base + d - 2 ^ 64 <? m * base) with true
      by (symmetry; apply Z.ltb_lt; lia).
    done.
Qed.

Lemma ParseUint_loop_FormatUint_range b0 base maxVal fuel : forall n,
  2 <= base <= 16 ->
  0 <= n < base ^ Z.of_nat fuel -> maxVal < n ->
  0 <= maxVal <= maxUint64 ->
  ParseUint_loop b0 base (maxUint64 / base + 1) maxVal
    (FormatUint_go base fuel n) 0 false
  = loop_range.
Proof.
  induction fuel as [|fuel IH]; intros n Hb Hn Hgt Hmax.
  - simpl in Hn. lia.
  - cbn [FormatUint_go].
    destruct (n <? base) eqn:Hlt.
    + apply Z.ltb_lt in Hlt.
      apply ParseUint_loop_digit_range; lia.
    + apply Z.ltb_ge in Hlt.
      rewrite ParseUint_loop_app.
      pose proof (Z.div_mod n base ltac:(lia)) as Hdm.
      pose proof (Z.mod_pos_bound n base ltac:(lia)) as Hmod.
      assert (0 <= n / base) by (apply Z.div_pos; lia).
      assert (n / base < base ^ Z.of_nat fuel) as Hq.
      { rewrite Nat2Z.inj_succ, Z.pow_succ_r in Hn by lia.
        apply Z.div_lt_upper_bound; lia. }
      destruct (Z_lt_le_dec maxVal (n / base)) as [Hbig|Hsmall].
      * by rewrite IH.
      * rewrite ParseUint_loop_FormatUint by (done || lia).
        apply ParseUint_loop_digit_range; lia.
Qed.

Lemma ParseUint_decimal_range n bitSize :
  width bitSize -> 2 ^ bitSize <= n ->
  ParseUint (FormatUint n 10) 0 bitSize
  = (2 ^ bitSize - 1, Some (rangeError fnParseUint (FormatUint n 10))).
Proof.
  intros Hw Hn.
  destruct (maxVal_of_width bitSize Hw) as (Hmax & Hle & Hz & Hbs).
  assert (0 < 2 ^ bitSize) as Hpos.
  { destruct Hw as [-> | [-> | [-> | ->]]]; lia. }
  destruct (FormatUint_head n 10) as (d & r & Hr & Hd & Hd1); [lia..|].
  rewrite Hr. unfold ParseUint.
  cbn [Z.eqb Z.leb andb Z.compare].
  rewrite base_prefix_nonzero by lia. rewrite <- Hr.
  cbv zeta. rewrite Hz, Hbs. fold (maxVal_of bitSize). rewrite Hmax.
  unfold FormatUint.
  rewrite ParseUint_loop_FormatUint_range; [done|lia| |lia|].
  - pose proof (FormatUint_fuel n 10). lia.
  - unfold maxUint64. lia.
Qed.

Lemma ParseInt_decimal_range i bitSize :
  width bitSize ->
  i < - 2 ^ (bitSize - 1) \/ 2 ^ (bitSize - 1) <= i ->
  snd (ParseInt (FormatInt i 10) 0 bitSize)
  = Some (rangeError fnParseInt (FormatInt i 10)).
Proof.
  intros Hw Hi.
  assert (to_uint64 (Z.shiftl 1 ((if bitSize =? 0 then IntSize else bitSize) - 1))
          = 2 ^ (bitSize - 1) /\ 0 < 2 ^ (bitSize - 1) <= 2 ^ 63)
    as [Hcut Hpos].
  { destruct Hw as [-> | [-> | [-> | ->]]]; (split; [reflexivity|lia]). }
  assert (width 64) as H64 by (unfold width; auto).
  assert (forall n, 0 <= n ->
    exists un err, ParseUint (FormatUint n 10) 0 64 = (un, err) /\
      (err = None \/ err = Some (rangeError fnParseUint (FormatUint n 10))) /\
      (n < 2 ^ 64 -> un = n) /\ (2 ^ 64 <= n -> un = 2 ^ 64 - 1)) as Hun.
  { intros n Hn. destruct (Z_lt_le_dec n (2 ^ 64)) as [Hs|Hl].
    - exists n, None. split; [|split; [by left|lia]].
      by apply (ParseUint_literal n 10 64);
        [right; right; left|done|lia].
    - eexists _, _. split; [by apply ParseUint_decimal_range|].
      split; [by right|lia]. }
  unfold FormatInt. destruct (i <? 0) eqn:Hneg.
  - apply Z.ltb_lt in Hneg. unfold ParseInt.
    change (Ascii.eqb "-" "+") with false.
    change (Ascii.eqb "-" "-") with true. cbn iota.
    destruct (Hun (- i) ltac:(lia)) as (un & err & -> & Herr & Hs & Hl).
    assert (un > 2 ^ (bitSize - 1)) as Hgt.
    { destruct (Z_lt_le_dec (- i) (2 ^ 64)); [rewrite Hs|rewrite Hl]; lia. }
    destruct Herr as [-> | ->]; unfold rangeError; cbn iota;
      rewrite Hcut; cbn [negb andb];
      replace (un >? 2 ^ (bitSize - 1)) with true
        by (symmetry; rewrite Z.gtb_ltb; apply Z.ltb_lt; lia);
      done.
  - apply Z.ltb_ge in Hneg.
    destruct (FormatUint_head i 10) as (d & r & Hr & Hd & _); [lia..|].
    destruct (digit_char_spec d ltac:(lia)) as (_ & _ & Hplus & Hminus).
    unfold ParseInt. rewrite Hr, Hplus, Hminus. rewrite <- Hr.
    destruct (Hun i ltac:(lia)) as (un & err & -> & Herr & Hs & Hl).
    assert (un >= 2 ^ (bitSize - 1)) as Hge.
    { destruct (Z_lt_le_dec i (2 ^ 64)); [rewrite Hs|rewrite Hl]; lia. }
    destruct Herr as [-> | ->]; unfold rangeError; cbn iota;
      rewrite Hcut; cbn [negb andb];
      replace (un >=? 2 ^ (bitSize - 1)) with true
        by (symmetry; rewrite Z.geb_leb; apply Z.leb_le; lia);
      done.
Qed.

End OutOfRange.

(** X20. An integer that does not fit the width of the field is refused and
    never wrapped around: its decimal text makes the decoder fail with a
    range error, and the field keeps its content. *)
Theorem processField_out_of_range typ field :
  (unsigned_kind (Kind typ) = true ->
   forall n, (2 ^ Bits typ <= n)%Z ->
     processField typ (FormatUint n 10) field
     = (field, Return (Some (NumError "ParseUint" (FormatUint n 10)
                               strconv_err.ErrRange)))) /\
  (signed_kind (Kind typ) = true -> isDuration typ = false ->
   forall i, (i < - 2 ^ (Bits typ - 1) \/ 2 ^ (Bits typ - 1) <= i)%Z ->
     processField typ (FormatInt i 10) field
     = (field, Return (Some (NumError "ParseInt" (FormatInt i 10)
                               strconv_err.ErrRange)))).
Proof.
  split.
  - intros Hk n Hn. rewrite processField_ParseUint by done.
    by rewrite ParseUint_decimal_range by (by apply unsigned_width || done).
  - intros Hk Hd i Hi.
    pose proof (ParseInt_decimal_range i (Bits typ) (signed_width typ Hk) Hi)
      as He.
    rewrite processField_signed_case, Hd by done.
    destruct (strconv.ParseInt _ 0 _) as [v err]. simpl in He.
    by rewrite He.
Qed.

(** ** Paths into a record *)

Lemma diverge_cons i p q : diverge p q -> diverge (i :: p) (i :: q).
Proof.
  intros (stem & a & b & p' & q' & -> & -> & Hab).
  by exists (i :: stem), a, b, p', q'.
Qed.

Lemma diverge_sym p q : diverge p q -> diverge q p.
Proof.
  intros (stem & a & b & p' & q' & -> & -> & Hab).
  by exists stem, b, a, q', p'.
Qed.

Lemma get_set_diverge p q new : forall r,
  diverge p q -> get_path (set_path r p new) q = get_path r q.
Proof.
  intros r (stem & i & j & p' & q' & -> & -> & Hij). revert r.
  induction stem as [|a stem IH]; intros r; simpl.
  - destruct r as [| | | | | | | | |fs|]; try done.
    destruct (fs !! i) as [w|] eqn:Hw; [|done].
    simpl. by rewrite list_lookup_insert_ne.
  - destruct r as [| | | | | | | | |fs|]; try done.
    destruct (fs !! a) as [w|] eqn:Hw; simpl; [|by rewrite Hw].
    rewrite list_lookup_insert_eq by (by eapply lookup_lt_Some).
    by rewrite IH.
Qed.

Lemma get_set_same p new : forall r,
  is_Some (get_path r p) -> get_path (set_path r p new) p = Some new.
Proof.
  induction p as [|i p IH]; intros r; simpl; [done|].
  destruct r as [| | | | | | | | |fs|]; try by intros [? [=]].
  destruct (fs !! i) as [w|] eqn:Hw; [|by intros [? [=]]].
  intros Hs. simpl.
  rewrite list_lookup_insert_eq by (by eapply lookup_lt_Some).
  by apply IH.
Qed.

Lemma set_get_id p : forall r cur,
  get_path r p = Some cur -> set_path r p cur = r.
Proof.
  induction p as [|i p IH]; intros r cur; simpl; [by intros [= ->]|].
  destruct r as [| | | | | | | | |fs|]; try done.
  destruct (fs !! i) as [w|] eqn:Hw; [|done].
  intros Hg. rewrite (IH _ _ Hg). by rewrite list_insert_id.
Qed.

Lemma not_struct_fields t : is_struct t = false -> fields_of t = [].
Proof. by destruct t. Qed.

Lemma descend_leaves rest : forall f rest' anc leaf anc' leaf',
  descend f rest = Some (anc, leaf) -> is_struct (Type_ leaf) = false ->
  descend f rest' = Some (anc', leaf') -> is_struct (Type_ leaf') = false ->
  rest = rest' \/ diverge rest rest'.
Proof.
  induction rest as [|j rest IH]; intros f rest' anc leaf anc' leaf'; simpl.
  - intros [= <- <-] Hl. destruct rest' as [|j' rest']; [by left|].
    simpl. by rewrite (not_struct_fields _ Hl).
  - destruct (fields_of (Type_ f) !! j) as [g|] eqn:Hg; [|done].
    destruct (descend g rest) as [[a l]|] eqn:Hd; [|done].
    intros [= <- <-] Hl. destruct rest' as [|j' rest']; simpl.
    { intros [= <- <-] Hl'. by rewrite (not_struct_fields _ Hl') in Hg. }
    destruct (decide (j = j')) as [<-|Hne].
    + rewrite Hg. destruct (descend g rest') as [[a' l']|] eqn:Hd'; [|done].
      intros [= <- <-] Hl'.
      destruct (IH g rest' a l a' l' Hd Hl Hd' Hl') as [->|Hdiv];
        [by left|right]. by apply diverge_cons.
    + intros _ _. right. by exists [], j, j', rest, rest'.
Qed.

Lemma resolve_leaves t p q anc leaf anc' leaf' :
  resolve t p = Some (anc, leaf) -> is_struct (Type_ leaf) = false ->
  resolve t q = Some (anc', leaf') -> is_struct (Type_ leaf') = false ->
  p = q \/ diverge p q.
Proof.
  destruct p as [|i p]; [done|]. destruct q as [|j q]; [done|]. simpl.
  destruct (decide (i = j)) as [<-|Hne].
  - destruct (fields_of t !! i) as [f|]; [|done].
    intros Hd Hl Hd' Hl'.
    destruct (descend_leaves p f q _ _ _ _ Hd Hl Hd' Hl') as [->|Hdiv];
      [by left|right]. by apply diverge_cons.
  - intros _ _ _ _. right. by exists [], i, j, p, q.
Qed.

Lemma bound_not_struct anc leaf :
  bound anc leaf = true -> is_struct (Type_ leaf) = false.
Proof.
  unfold bound. intros [[_ H]%andb_prop _]%andb_prop.
  by apply negb_true_iff in H.
Qed.

(** The fields of two keys of the mapping do not overlap. *)
Lemma walk_root_apart pfx t k1 k2 f1 f2 :
  walk_root pfx t !! k1 = Some f1 -> walk_root pfx t !! k2 = Some f2 ->
  k1 = k2 \/ diverge (v_path f1) (v_path f2).
Proof.
  intros H1 H2.
  destruct (walk_root_sound _ _ _ _ H1) as (a1 & l1 & Hr1 & Hb1 & -> & _).
  destruct (walk_root_sound _ _ _ _ H2) as (a2 & l2 & Hr2 & Hb2 & -> & _).
  destruct (resolve_leaves t _ _ _ _ _ _ Hr1 (bound_not_struct _ _ Hb1)
              Hr2 (bound_not_struct _ _ Hb2)) as [Heq|Hdiv]; [left|by right].
  rewrite Heq in Hr1. congruence.
Qed.

(** ** The loop over the parameters returned *)

Lemma processField_at_get root f value cur :
  get_path root (v_path f) = Some cur ->
  processField_at root f value
  = (set_path root (v_path f) (fst (processField (v_typ f) value cur)),
     snd (processField (v_typ f) value cur)).
Proof.
  intros Hg. unfold processField_at. rewrite Hg.
  by destruct (processField (v_typ f) value cur).
Qed.

Lemma processField_at_error root f value :
  snd (processField_at root f value) <> Return None ->
  fst (processField_at root f value) = root.
Proof.
  unfold processField_at.
  destruct (get_path root (v_path f)) as [cur|] eqn:Hg; [|done].
  destruct (processField (v_typ f) value cur) as [new out] eqn:Hp. simpl.
  intros Hne.
  pose proof (processField_failure_unchanged (v_typ f) value cur) as Hu.
  rewrite Hp in Hu. simpl in Hu. rewrite Hu by done.
  by apply set_get_id.
Qed.

Lemma range_Parameters_app infos ps qs : forall root,
  range_Parameters infos (ps ++ qs) root =
  match range_Parameters infos ps root with
  | (r, Return None) => range_Parameters infos qs r
  | (r, out) => (r, out)
  end.
Proof.
  induction ps as [|p ps IH]; intros root; simpl; [done|].
  destruct (infos !! aws.StringValue (ssm.Name p)) as [f|]; [|apply IH].
  destruct (processField_at root f _) as [r [[e|]|t]]; [done|apply IH|done].
Qed.

Lemma range_Parameters_filter infos params : forall root,
  range_Parameters infos params root
  = range_Parameters infos (List.filter (known infos) params) root.
Proof.
  induction params as [|p params IH]; intros root; simpl; [done|].
  unfold known at 1.
  destruct (infos !! aws.StringValue (ssm.Name p)) as [f|] eqn:Hf.
  - rewrite bool_decide_eq_true_2 by done. simpl. rewrite Hf.
    destruct (processField_at root f _) as [r [[e|]|t]];
      [done|apply IH|done].
  - rewrite bool_decide_eq_false_2 by (by intros [? [=]]). apply IH.
Qed.

Lemma range_Parameters_frame infos params q : forall root,
  (forall p f, In p params -> infos !! aws.StringValue (ssm.Name p) = Some f ->
     diverge (v_path f) q) ->
  get_path (fst (range_Parameters infos params root)) q = get_path root q.
Proof.
  induction params as [|p params IH]; intros root Hq; simpl; [done|].
  assert (forall r, get_path (fst (range_Parameters infos params r)) q
                    = get_path r q) as IH'.
  { intros r. apply IH. intros p' f' Hin. apply Hq. by right. }
  destruct (infos !! aws.StringValue (ssm.Name p)) as [f|] eqn:Hf; [|done].
  assert (get_path (fst (processField_at root f
                           (aws.StringValue (ssm.Value p)))) q
          = get_path root q) as Hstep.
  { unfold processField_at.
    destruct (get_path root (v_path f)) as [cur|]; [|done].
    destruct (processField (v_typ f) _ cur) as [new err]. simpl.
    apply get_set_diverge. apply (Hq p f); [by left|done]. }
  destruct (processField_at root f _) as [r [[e|]|t]]; simpl in *;
    [done| |done].
  by rewrite IH'.
Qed.

Section Handles.
Variable infos : gmap string Value.
Hypothesis Hapart : apart infos.

Lemma present_step root k f value :
  present infos root -> infos !! k = Some f ->
  present infos (fst (processField_at root f value)).
Proof.
  intros Hp Hf k' f' Hf'.
  destruct (Hp k f Hf) as [cur Hcur].
  rewrite (processField_at_get _ _ _ _ Hcur). simpl.
  destruct (Hapart k k' f f' Hf Hf') as [<-|Hdiv].
  - assert (f' = f) as -> by congruence.
    rewrite get_set_same; [done|by eexists].
  - rewrite get_set_diverge by done. by apply (Hp k').
Qed.

Lemma range_Parameters_present params : forall root,
  present infos root ->
  present infos (fst (range_Parameters infos params root)).
Proof.
  induction params as [|p params IH]; intros root Hp; simpl; [done|].
  destruct (infos !! aws.StringValue (ssm.Name p)) as [f|] eqn:Hf;
    [|by apply IH].
  pose proof (present_step root _ f (aws.StringValue (ssm.Value p)) Hp Hf)
    as Hp'.
  pose proof (processField_at_error root f (aws.StringValue (ssm.Value p)))
    as He.
  destruct (processField_at root f _) as [r [[e|]|t]]; simpl in *.
  - by rewrite He.
  - by apply IH.
  - by rewrite He.
Qed.

Lemma range_Parameters_first_outcome params : forall root,
  present infos root ->
  snd (range_Parameters infos params root) = first_outcome infos params.
Proof.
  induction params as [|p params IH]; intros root Hp; simpl; [done|].
  destruct (infos !! aws.StringValue (ssm.Name p)) as [f|] eqn:Hf;
    [|by apply IH].
  pose proof (present_step root _ f (aws.StringValue (ssm.Value p)) Hp Hf)
    as Hp'.
  destruct (Hp _ f Hf) as [cur Hcur].
  rewrite (processField_at_get _ _ _ _ Hcur) in *. simpl in Hp'.
  rewrite (processField_error_independent _ _ cur (zero (v_typ f))).
  destruct (snd (processField (v_typ f) _ (zero (v_typ f))))
    as [[e|]|t]; [done| |done].
  by apply IH.
Qed.

Lemma last_value_snoc key params p :
  last_value key (params ++ [p]) =
  if String.eqb (aws.StringValue (ssm.Name p)) key
  then Some (aws.StringValue (ssm.Value p))
  else last_value key params.
Proof.
  induction params as [|p' params IH]; simpl.
  - by destruct (String.eqb _ key).
  - rewrite IH. by destruct (String.eqb (aws.StringValue (ssm.Name p)) key).
Qed.

Lemma range_Parameters_assigns key f root cur params :
  infos !! key = Some f ->
  get_path root (v_path f) = Some cur ->
  snd (range_Parameters infos params root) = Return None ->
  get_path (fst (range_Parameters infos params root)) (v_path f)
  = Some match last_value key params with
         | Some value => fst (processField (v_typ f) value cur)
         | None => cur
         end.
Proof.
  intros Hf Hcur. induction params as [|p params IH] using rev_ind; [done|].
  rewrite range_Parameters_app, last_value_snoc.
  destruct (range_Parameters infos params root) as [r1 [[e|]|t]] eqn:Hr;
    [done| |done].
  simpl in IH. specialize (IH eq_refl). simpl.
  destruct (infos !! aws.StringValue (ssm.Name p)) as [g|] eqn:Hg.
  2:{ intros _. simpl. rewrite IH.
      destruct (String.eqb _ key) eqn:Heq; [|done].
      apply String.eqb_eq in Heq. congruence. }
  destruct (String.eqb _ key) eqn:Heq.
  - apply String.eqb_eq in Heq. rewrite Heq in Hg.
    assert (g = f) as -> by congruence.
    rewrite (processField_at_get _ _ _ _ IH).
    destruct (snd (processField (v_typ f) _ _)) as [[e|]|t] eqn:He;
      [done| |done].
    intros _. simpl. rewrite get_set_same by (by eexists). f_equal.
    destruct (decodable (Kind (v_typ f))) eqn:Hd.
    + by apply processField_value_independent.
    + rewrite !processField_not_decodable by done. simpl.
      destruct (last_value key params); [|done].
      by rewrite processField_not_decodable.
  - apply String.eqb_neq in Heq.
    destruct (Hapart _ _ _ _ Hg Hf) as [?|Hdiv]; [done|].
    pose proof (processField_at_error r1 g (aws.StringValue (ssm.Value p)))
      as He.
    assert (get_path (fst (processField_at r1 g
                             (aws.StringValue (ssm.Value p)))) (v_path f)
            = get_path r1 (v_path f)) as Hstep.
    { unfold processField_at.
      destruct (get_path r1 (v_path g)) as [c|]; [|done].
      destruct (processField (v_typ g) _ c) as [new err]. simpl.
      by apply get_set_diverge. }
    destruct (processField_at r1 g _) as [r2 [[e|]|t]]; [done| |done].
    intros _. simpl in *. by rewrite Hstep.
Qed.

End Handles.

Lemma walk_root_present pfx t root :
  shaped t root = true -> present (walk_root pfx t) root.
Proof. intros Hs k f Hf. by apply (get_path_walk_root pfx t root k). Qed.

Lemma walk_root_is_apart pfx t : apart (walk_root pfx t).
Proof. intros k1 k2 f1 f2. apply walk_root_apart. Qed.

Lemma Process_answered range_keys ssmsvc pfx elem s out :
  Kind elem = reflect.Struct ->
  ssmsvc (GetParametersInput_of range_keys (walk_root pfx elem))
  = (Some out, None) ->
  Process range_keys ssmsvc pfx (Some (TPtr elem, VPtr (Some s))) =
  mkProcessed
    (snd (range_Parameters (walk_root pfx elem) (ssm.Params out) s))
    (Some (TPtr elem,
           VPtr (Some (fst (range_Parameters (walk_root pfx elem)
                              (ssm.Params out) s)))))
    [GetParametersInput_of range_keys (walk_root pfx elem)].
Proof.
  intros Hk Hs. unfold Process. rewrite Hk, Hs. simpl.
  by destruct (range_Parameters _ _ _).
Qed.

(** ** [Process] on a record it accepts *)

(** X10. For a pointer to a record, [Process] sends one request whatever the
    store answers; it asks for decryption and for every qualified name of a
    bound leaf field once, and for nothing else. *)
Theorem Process_request range_keys ssmsvc pfx elem s :
  (forall infos,
     Permutation (range_keys infos) (map fst (map_to_list infos))) ->
  Kind elem = reflect.Struct ->
  exists names,
    requests (Process range_keys ssmsvc pfx (Some (TPtr elem, VPtr (Some s))))
    = [ssm.mkGetParametersInput (map aws.String names) (aws.Bool true)] /\
    NoDup names /\
    forall key, key ∈ names <->
      exists path anc leaf,
        resolve elem path = Some (anc, leaf) /\ bound anc leaf = true /\
        key = qualified_name pfx anc leaf.
Proof.
  intros Hperm Hk. exists (range_keys (walk_root pfx elem)).
  split; [|split].
  - unfold Process. rewrite Hk. simpl.
    destruct (ssmsvc _) as [[out|] [e|]]; try done.
    by destruct (range_Parameters _ _ _).
  - rewrite (Hperm _). apply NoDup_fst_map_to_list.
  - intros key. rewrite (Hperm _).
    assert (key ∈ map fst (map_to_list (walk_root pfx elem)) <->
            is_Some (walk_root pfx elem !! key)) as ->.
    { split.
      - intros ([k v] & -> & Hin)%list_elem_of_fmap.
        apply elem_of_map_to_list in Hin. by exists v.
      - intros [v Hv]. apply list_elem_of_fmap. exists (key, v).
        split; [done|]. by apply elem_of_map_to_list. }
    split.
    + intros [v Hv].
      apply walk_root_sound in Hv as (anc & leaf & Hr & Hb & -> & _).
      by exists (v_path v), anc, leaf.
    + intros (path & anc & leaf & Hr & Hb & ->).
      by apply (walk_root_complete pfx elem path).
Qed.

(** X11. Parameters the store returns under names that were not asked for
    have no effect, wherever they stand in the answer: two answers that agree
    on the parameters of known names give the same outcome and the same
    record. *)
Theorem Process_ignores_unknown range_keys ssmsvc ssmsvc' pfx elem s out out' :
  Kind elem = reflect.Struct ->
  ssmsvc (GetParametersInput_of range_keys (walk_root pfx elem))
  = (Some out, None) ->
  ssmsvc' (GetParametersInput_of range_keys (walk_root pfx elem))
  = (Some out', None) ->
  List.filter (known (walk_root pfx elem)) (ssm.Params out)
  = List.filter (known (walk_root pfx elem)) (ssm.Params out') ->
  Process range_keys ssmsvc pfx (Some (TPtr elem, VPtr (Some s)))
  = Process range_keys ssmsvc' pfx (Some (TPtr elem, VPtr (Some s))).
Proof.
  intros Hk Hs Hs' Hf.
  rewrite (Process_answered _ _ _ _ _ _ Hk Hs).
  rewrite (Process_answered _ _ _ _ _ _ Hk Hs').
  rewrite (range_Parameters_filter _ (ssm.Params out)).
  rewrite (range_Parameters_filter _ (ssm.Params out')).
  by rewrite Hf.
Qed.

Lemma first_outcome_returns infos params :
  (forall key f, infos !! key = Some f -> panic_free (v_typ f) = true) ->
  exists err, first_outcome infos params = Return err.
Proof.
  intros Hpf. induction params as [|p params IH]; simpl; [by eexists|].
  destruct (infos !! aws.StringValue (ssm.Name p)) as [f|] eqn:Hf; [|done].
  pose proof (processField_panic_free _ (Hpf _ f Hf)
                (aws.StringValue (ssm.Value p)) (zero (v_typ f))) as Hnp.
  destruct (snd (processField (v_typ f) _ _)) as [[e|]|t];
    [by eexists|done|by destruct (Hnp t)].
Qed.

(** X12. How [Process] ends on an answer of the store does not depend on
    what the record holds: it ends as the decoder does on the first
    parameter, in the order of the answer, whose value does not decode for
    the type of the field bound to its name, with the error returned or with
    the panic of [reflect]; and it returns nil when every value decodes. It
    returns, with an error or nil, when no bound field has a slice of a
    defined byte type in its type. *)
Theorem Process_outcome range_keys ssmsvc pfx elem s out :
  Kind elem = reflect.Struct ->
  shaped elem s = true ->
  ssmsvc (GetParametersInput_of range_keys (walk_root pfx elem))
  = (Some out, None) ->
  result (Process range_keys ssmsvc pfx (Some (TPtr elem, VPtr (Some s))))
  = first_outcome (walk_root pfx elem) (ssm.Params out) /\
  ((forall key f,
      walk_root pfx elem !! key = Some f -> panic_free (v_typ f) = true) ->
   exists err,
     result (Process range_keys ssmsvc pfx
               (Some (TPtr elem, VPtr (Some s))))
     = Return err).
Proof.
  intros Hk Hsh Hs. rewrite (Process_answered _ _ _ _ _ _ Hk Hs). simpl.
  assert (snd (range_Parameters (walk_root pfx elem) (ssm.Params out) s)
          = first_outcome (walk_root pfx elem) (ssm.Params out)) as ->.
  { apply range_Parameters_first_outcome.
    - apply walk_root_is_apart.
    - by apply walk_root_present. }
  split; [done|]. apply first_outcome_returns.
Qed.

(** X13. [Process] stops at the first parameter whose value does not decode
    and takes nothing back: it ends as the decoder does on this value, with
    its error or its panic, and the record is then as if the store had
    returned the parameters before that one and no other. *)
Theorem Process_partial_update range_keys ssmsvc pfx elem s out
    good p rest f res :
  Kind elem = reflect.Struct ->
  shaped elem s = true ->
  ssmsvc (GetParametersInput_of range_keys (walk_root pfx elem))
  = (Some out, None) ->
  ssm.Params out = good ++ p :: rest ->
  first_outcome (walk_root pfx elem) good = Return None ->
  walk_root pfx elem !! aws.StringValue (ssm.Name p) = Some f ->
  snd (processField (v_typ f) (aws.StringValue (ssm.Value p))
         (zero (v_typ f))) = res ->
  res <> Return None ->
  let r := Process range_keys ssmsvc pfx (Some (TPtr elem, VPtr (Some s))) in
  let r' := Process range_keys
              (mockSSM (Some (ssm.mkGetParametersOutput good)) None) pfx
              (Some (TPtr elem, VPtr (Some s))) in
  result r = res /\ result r' = Return None /\
  spec_after r = spec_after r'.
Proof.
  intros Hk Hsh Hs Hout Hgood Hf He Hne r r'. subst r r'.
  rewrite (Process_answered _ _ _ _ _ _ Hk Hs).
  rewrite (Process_answered _ _ _ _ _ (ssm.mkGetParametersOutput good) Hk
             eq_refl).
  simpl. rewrite Hout, range_Parameters_app.
  pose proof (walk_root_is_apart pfx elem) as Hap.
  pose proof (walk_root_present pfx elem s Hsh) as Hpr.
  pose proof (range_Parameters_first_outcome _ Hap good s Hpr) as Hfe.
  pose proof (range_Parameters_present _ Hap good s Hpr) as Hpr1.
  rewrite Hgood in Hfe.
  destruct (range_Parameters (walk_root pfx elem) good s) as [s1 out1].
  simpl in Hfe, Hpr1. subst out1. simpl. rewrite Hf.
  destruct (Hpr1 _ f Hf) as [cur Hcur].
  pose proof (processField_at_error s1 f (aws.StringValue (ssm.Value p)))
    as Hroot.
  rewrite (processField_at_get _ _ _ _ Hcur) in *. simpl in Hroot.
  rewrite (processField_error_independent _ _ cur (zero (v_typ f))) in *.
  rewrite He in *. rewrite Hroot by done.
  by destruct res as [[e|]|t].
Qed.

(** X14. After a call without error, a bound field holds what the last
    parameter returned under its name decodes to, and what it held before
    when no parameter of its name is returned. *)
Theorem Process_assigns range_keys ssmsvc pfx elem s out key f cur :
  Kind elem = reflect.Struct ->
  ssmsvc (GetParametersInput_of range_keys (walk_root pfx elem))
  = (Some out, None) ->
  walk_root pfx elem !! key = Some f ->
  get_path s (v_path f) = Some cur ->
  let r := Process range_keys ssmsvc pfx (Some (TPtr elem, VPtr (Some s))) in
  result r = Return None ->
  exists s',
    spec_after r = Some (TPtr elem, VPtr (Some s')) /\
    get_path s' (v_path f)
    = Some match last_value key (ssm.Params out) with
           | Some value => fst (processField (v_typ f) value cur)
           | None => cur
           end.
Proof.
  intros Hk Hs Hf Hcur r. subst r.
  rewrite (Process_answered _ _ _ _ _ _ Hk Hs). simpl.
  intros [= Hnone]. eexists. split; [done|].
  apply range_Parameters_assigns; [apply walk_root_is_apart|done..].
Qed.

(** X15. When the store answers, whether the values decode or not,
    [Process] writes to the fields bound to the names of the parameters
    returned and to no other: every other field that is not a sub-record
    holds afterwards what it held before. *)
Theorem Process_frame range_keys ssmsvc pfx elem s out q anc leaf :
  Kind elem = reflect.Struct ->
  ssmsvc (GetParametersInput_of range_keys (walk_root pfx elem))
  = (Some out, None) ->
  resolve elem q = Some (anc, leaf) ->
  is_struct (Type_ leaf) = false ->
  (forall p f,
     In p (ssm.Params out) ->
     walk_root pfx elem !! aws.StringValue (ssm.Name p) = Some f ->
     v_path f <> q) ->
  exists s',
    spec_after (Process range_keys ssmsvc pfx
                  (Some (TPtr elem, VPtr (Some s))))
    = Some (TPtr elem, VPtr (Some s')) /\
    get_path s' q = get_path s q.
Proof.
  intros Hk Hs Hq Hl Hne.
  rewrite (Process_answered _ _ _ _ _ _ Hk Hs). simpl.
  eexists. split; [done|].
  apply range_Parameters_frame. intros p f Hin Hf.
  destruct (walk_root_sound _ _ _ _ Hf) as (a & l & Hr & Hb & _).
  destruct (resolve_leaves elem _ _ _ _ _ _ Hr (bound_not_struct _ _ Hb)
              Hq Hl) as [Heq|Hdiv]; [|done].
  by destruct (Hne p f Hin Hf).
Qed.

(** X16. The call prefix is a name space and nothing more: the names bound
    under a prefix are the names bound under the empty prefix, each with the
    prefix in front. *)
Theorem walk_root_prefix pfx t key :
  is_Some (walk_root pfx t !! key) <->
  exists k, key = pfx +:+ k /\ is_Some (walk_root "" t !! k).
Proof.
  assert (forall anc leaf,
    qualified_name pfx anc leaf = pfx +:+ qualified_name "" anc leaf) as Hq.
  { done. }
  split.
  - intros [v Hv].
    apply walk_root_sound in Hv as (anc & leaf & Hr & Hb & -> & _).
    exists (qualified_name "" anc leaf). split; [done|].
    by apply (walk_root_complete "" t (v_path v)).
  - intros (k & -> & [v Hv]).
    apply walk_root_sound in Hv as (anc & leaf & Hr & Hb & -> & _).
    rewrite <- Hq. by apply (walk_root_complete pfx t (v_path v)).
Qed.


(** ** The order of the answer *)

Lemma set_path_commute stem i j p' q' a b : forall r,
  i <> j ->
  set_path (set_path r (stem ++ i :: p') a) (stem ++ j :: q') b
  = set_path (set_path r (stem ++ j :: q') b) (stem ++ i :: p') a.
Proof.
  intros r Hij. revert r.
  induction stem as [|c stem IH]; intros r; simpl.
  - destruct r as [| | | | | | | | |fs|]; try done.
    destruct (fs !! i) as [w|] eqn:Hw; destruct (fs !! j) as [u|] eqn:Hu;
      simpl; rewrite ?Hw, ?Hu; simpl;
      rewrite ?list_lookup_insert_ne, ?Hw, ?Hu by done; try done.
    by rewrite list_insert_insert_ne.
  - destruct r as [| | | | | | | | |fs|]; try done.
    destruct (fs !! c) as [w|] eqn:Hw; simpl; rewrite ?Hw; [|done].
    rewrite !list_lookup_insert_eq by (by eapply lookup_lt_Some).
    rewrite !list_insert_insert_eq. by rewrite IH.
Qed.

Lemma processField_at_absent root f value :
  get_path root (v_path f) = None ->
  processField_at root f value = (root, Return None).
Proof. intros Hg. unfold processField_at. by rewrite Hg. Qed.

Lemma processField_at_commute root f g vf vg :
  diverge (v_path f) (v_path g) ->
  snd (processField_at (fst (processField_at root f vf)) g vg)
  = snd (processField_at root g vg) /\
  snd (processField_at (fst (processField_at root g vg)) f vf)
  = snd (processField_at root f vf) /\
  fst (processField_at (fst (processField_at root f vf)) g vg)
  = fst (processField_at (fst (processField_at root g vg)) f vf).
Proof.
  intros Hdiv. pose proof (diverge_sym _ _ Hdiv) as Hdiv'.
  destruct (get_path root (v_path f)) as [cf|] eqn:Hf;
    destruct (get_path root (v_path g)) as [cg|] eqn:Hg.
  - rewrite (processField_at_get root f vf cf Hf).
    rewrite (processField_at_get root g vg cg Hg). simpl.
    rewrite (processField_at_get _ g vg cg)
      by (by rewrite get_set_diverge).
    rewrite (processField_at_get _ f vf cf)
      by (by rewrite get_set_diverge).
    simpl. split; [done|]. split; [done|].
    destruct Hdiv as (stem & i & j & p' & q' & Hp & Hq & Hij).
    rewrite Hp, Hq. by apply set_path_commute.
  - rewrite (processField_at_get root f vf cf Hf).
    rewrite (processField_at_absent root g vg Hg). simpl.
    rewrite (processField_at_absent _ g vg)
      by (by rewrite get_set_diverge).
    by rewrite (processField_at_get root f vf cf Hf).
  - rewrite (processField_at_absent root f vf Hf).
    rewrite (processField_at_get root g vg cg Hg). simpl.
    rewrite (processField_at_absent _ f vf)
      by (by rewrite get_set_diverge).
    by rewrite (processField_at_get root g vg cg Hg).
  - rewrite (processField_at_absent root f vf Hf).
    rewrite (processField_at_absent root g vg Hg). simpl.
    by rewrite (processField_at_absent root f vf Hf),
      (processField_at_absent root g vg Hg).
Qed.

Lemma range_Parameters_permutation infos params params' :
  apart infos ->
  Permutation params params' ->
  NoDup (map (fun p => aws.StringValue (ssm.Name p))
           (List.filter (known infos) params)) ->
  forall root,
    snd (range_Parameters infos params root) = Return None ->
    range_Parameters infos params' root = range_Parameters infos params root.
Proof.
  intros Hap Hperm.
  induction Hperm as [|x l l' Hperm IH|x y l|l l' l'' H1 IH1 H2 IH2];
    intros Hnd root.
  - done.
  - simpl. simpl in Hnd. unfold known at 1 in Hnd.
    destruct (infos !! aws.StringValue (ssm.Name x)) as [f|] eqn:Hf.
    + rewrite bool_decide_eq_true_2 in Hnd by done. simpl in Hnd.
      apply NoDup_cons in Hnd as [_ Hnd].
      destruct (processField_at root f _) as [r [[e|]|t]]; [done| |done].
      by apply IH.
    + rewrite bool_decide_eq_false_2 in Hnd by (by intros [? [=]]).
      by apply IH.
  - simpl. simpl in Hnd. unfold known at 1 2 in Hnd.
    destruct (infos !! aws.StringValue (ssm.Name x)) as [f|] eqn:Hf;
      destruct (infos !! aws.StringValue (ssm.Name y)) as [g|] eqn:Hg;
      try done.
    rewrite !bool_decide_eq_true_2 in Hnd by done. simpl in Hnd.
    apply NoDup_cons in Hnd as [Hne _].
    assert (aws.StringValue (ssm.Name y) <> aws.StringValue (ssm.Name x))
      as Hxy.
    { intros Heq. apply Hne. rewrite Heq. apply list_elem_of_here. }
    destruct (Hap _ _ _ _ Hg Hf) as [?|Hdiv]; [done|].
    destruct (processField_at_commute root g f
                (aws.StringValue (ssm.Value y))
                (aws.StringValue (ssm.Value x)) Hdiv) as (H1 & H2 & H3).
    destruct (processField_at root g _) as [r1 e1]. simpl in *.
    destruct (processField_at root f _) as [r2 e2]. simpl in *.
    destruct e1 as [[e1|]|t1]; [done| |done].
    destruct (processField_at r1 f _) as [r12 e12]. simpl in *.
    destruct (processField_at r2 g _) as [r21 e21]. simpl in *.
    subst. destruct e2 as [[e2|]|t2]; [done| |done]. done.
  - intros Hs.
    assert (NoDup (map (fun p => aws.StringValue (ssm.Name p))
                     (List.filter (known infos) l'))) as Hnd'.
    { eapply NoDup_Permutation_proper; [|exact Hnd]. symmetry.
      apply Permutation_map. clear -H1.
      induction H1; simpl; try done.
      - destruct (known infos x); [by constructor|done].
      - destruct (known infos x), (known infos y); try done. apply perm_swap.
      - by etrans. }
    rewrite <- (IH1 Hnd root Hs). apply (IH2 Hnd').
    by rewrite (IH1 Hnd root Hs).
Qed.

(** X19. The order in which the store returns the parameters does not
    matter, provided every value decodes and no known name is returned
    twice: the record and the outcome are the same for every order. *)
Theorem Process_order_independent range_keys ssmsvc ssmsvc' pfx elem s
    out out' :
  Kind elem = reflect.Struct ->
  ssmsvc (GetParametersInput_of range_keys (walk_root pfx elem))
  = (Some out, None) ->
  ssmsvc' (GetParametersInput_of range_keys (walk_root pfx elem))
  = (Some out', None) ->
  Permutation (ssm.Params out) (ssm.Params out') ->
  NoDup (map (fun p => aws.StringValue (ssm.Name p))
           (List.filter (known (walk_root pfx elem)) (ssm.Params out))) ->
  result (Process range_keys ssmsvc pfx (Some (TPtr elem, VPtr (Some s))))
  = Return None ->
  Process range_keys ssmsvc' pfx (Some (TPtr elem, VPtr (Some s)))
  = Process range_keys ssmsvc pfx (Some (TPtr elem, VPtr (Some s))).
Proof.
  intros Hk Hs Hs' Hperm Hnd.
  rewrite (Process_answered _ _ _ _ _ _ Hk Hs).
  rewrite (Process_answered _ _ _ _ _ _ Hk Hs'). simpl.
  intros [= Hnone].
  by rewrite (range_Parameters_permutation _ _ _
                (walk_root_is_apart pfx elem) Hperm Hnd s Hnone).
Qed.

(** * Further properties at concrete inputs *)

(** An 8-bit unsigned field, in hexadecimal and in binary. *)
Lemma processField_unsigned_uint8 :
  unsigned_kind (Kind (TBasic Tuint8)) = true /\
  processField (TBasic Tuint8) "0xff" (VUint 0) = (VUint 255, Return None) /\
  processField (TBasic Tuint8) "0b101" (VUint 0)
  = (VUint 5, Return None).
Proof.
  split; [reflexivity|]. split.
  - exact (proj1 (processField_unsigned (TBasic Tuint8) "0xff" (VUint 0)
                    eq_refl)).
  - refine (proj2 (proj2 (processField_unsigned (TBasic Tuint8) ""
                            (VUint 0) eq_refl)) 5%Z 2%Z _ _).
    + left; reflexivity.
    + change (0 <= 5 < 2 ^ 8)%Z. lia.
Defined.

(** [-1] for a [uint]. *)
Lemma processField_sign_refused_minus_one :
  unsigned_kind (Kind (TBasic Tuint)) = true /\
  processField (TBasic Tuint) "-1" (VUint 7)
  = (VUint 7,
     Return (Some (NumError "ParseUint" "-1" strconv_err.ErrSyntax))).
Proof.
  split; [reflexivity|].
  exact (processField_sign_refused (TBasic Tuint) "-" "1" (VUint 7)
           eq_refl (or_introl eq_refl)).
Defined.

(** Letters for an [int] that holds 7. *)
Lemma processField_error_keeps_field_abc :
  snd (processField (TBasic Tint) "abc" (VInt 7))
  = Return (Some (NumError "ParseInt" "abc" strconv_err.ErrSyntax)) /\
  processField (TBasic Tint) "abc" (VInt 7)
  = (VInt 7,
     Return (Some (NumError "ParseInt" "abc" strconv_err.ErrSyntax))).
Proof.
  split; [reflexivity|].
  exact (processField_error_keeps_field (TBasic Tint) "abc" (VInt 7) _
           eq_refl).
Defined.

(** A slice that holds an element already, and a pointer. *)
Lemma processField_overwrites_slice :
  fst (processField (TSlice (TBasic Tint)) "1,2" (VSlice (Some [VInt 9])))
  = fst (processField (TSlice (TBasic Tint)) "1,2" (VSlice None)) /\
  processField (TPtr (TBasic Tstring)) "text" (VPtr None)
  = (VPtr None, Return None).
Proof.
  split.
  - exact (proj1 (proj2 (processField_overwrites (TSlice (TBasic Tint)) "1,2"
                           (VSlice (Some [VInt 9])) (VSlice None)))
             eq_refl eq_refl).
  - exact (proj2 (proj2 (processField_overwrites (TPtr (TBasic Tstring))
                           "text" (VPtr None) (VPtr None)))
             eq_refl).
Defined.

(** Three integers. *)
Lemma processField_slice_length_three :
  reflect.Kind_eqb (Kind (TBasic Tint)) reflect.Uint8 = false /\
  processField (TSlice (TBasic Tint)) "1,2,3" (VSlice None)
  = (VSlice (Some [VInt 1; VInt 2; VInt 3]), Return None) /\
  exists vs, VSlice (Some [VInt 1; VInt 2; VInt 3]) = VSlice (Some vs) /\
    length vs = 3.
Proof.
  split; [reflexivity|]. split; [reflexivity|].
  exact (processField_slice_length (TBasic Tint) "1,2,3" (VSlice None) _
           eq_refl eq_refl).
Defined.

(** Two names, the second after a space. *)
Lemma processField_text_slice_names :
  Kind (TBasic Tstring) = reflect.String /\
  blank "a, b" = false /\
  exists segs,
    processField (TSlice (TBasic Tstring)) "a, b" (VSlice None)
    = (VSlice (Some (map VString segs)), Return None) /\
    String.concat "," segs = "a, b" /\
    Forall (fun seg => occurrences "," seg = 0) segs.
Proof.
  split; [reflexivity|]. split; [reflexivity|].
  exact (processField_text_slice (TBasic Tstring) "a, b" (VSlice None)
           eq_refl eq_refl).
Defined.

(** A slice of slices of integers. *)
Lemma processField_inner_slices_ints :
  reflect.Kind_eqb (Kind (TBasic Tint)) reflect.Uint8 = false /\
  Forall short_slice
    [VSlice (Some [VInt 1]); VSlice (Some [VInt 2]); VSlice (Some []);
     VSlice (Some [VInt 3])].
Proof.
  split; [reflexivity|].
  exact (proj1 (processField_inner_slices (TBasic Tint) "1,2, ,3"
                  (VSlice None) eq_refl) _ eq_refl).
Defined.

(** The key 1, written a second time as [0x1]. *)
Lemma processField_map_last_wins_hex :
  plain_key_kind (Kind (TBasic Tint)) = true /\
  processField (TMap (TBasic Tint) (TBasic Tstring)) "1:a,2:b,0x1:c"
    (VMap None)
  = (VMap (Some [(VInt 1, VString "c"); (VInt 2, VString "b")]),
     Return None) /\
  exists kvs,
    (if blank "1:a,2:b,0x1:c" then kvs = []
     else decode_pairs (processField (TBasic Tint))
            (processField (TBasic Tstring)) (zero (TBasic Tint))
            (zero (TBasic Tstring)) (strings.Split "1:a,2:b,0x1:c" ",")
          = inl kvs) /\
    NoDup (map fst [(VInt 1, VString "c"); (VInt 2, VString "b")]) /\
    length [(VInt 1, VString "c"); (VInt 2, VString "b")] <= length kvs /\
    forall k,
      MapIndex [(VInt 1, VString "c"); (VInt 2, VString "b")] k
      = last_written kvs k.
Proof.
  split; [reflexivity|]. split; [reflexivity|].
  exact (processField_map_last_wins (TBasic Tint) (TBasic Tstring)
           "1:a,2:b,0x1:c" (VMap None) _ eq_refl eq_refl).
Defined.

(** Thirty of nothing. *)
Lemma processField_duration_needs_unit_30 :
  all_digits "30" = true /\
  exists e,
    processField TDuration "30" (VInt 5) = (VInt 5, Return (Some e)) /\
    (e = time.invalid_duration "30" \/
     e = time_error "time: missing unit in duration " ["30"]).
Proof.
  split; [reflexivity|].
  exact (processField_duration_needs_unit "" "30" (VInt 5)
           (or_introl eq_refl) eq_refl ltac:(discriminate)).
Defined.

(** The request for [Config]. *)
Lemma Process_request_Config :
  Kind Config = reflect.Struct /\
  exists names,
    requests (Process keys_in_order (mockSSM None None) ""
                (Some (TPtr Config, VPtr (Some (zero Config)))))
    = [ssm.mkGetParametersInput (map aws.String names) (aws.Bool true)] /\
    NoDup names /\
    forall key, key ∈ names <->
      exists path anc leaf,
        resolve Config path = Some (anc, leaf) /\ bound anc leaf = true /\
        key = qualified_name "" anc leaf.
Proof.
  split; [reflexivity|].
  exact (Process_request keys_in_order (mockSSM None None) "" Config
           (zero Config) (fun infos => Permutation_refl _) eq_refl).
Defined.

(** [SmallConfig], with and without a parameter nobody asked for. *)
Lemma Process_ignores_unknown_SmallConfig :
  let spec := Some (TPtr SmallConfig, VPtr (Some (zero SmallConfig))) in
  let out := ssm.mkGetParametersOutput
               [ param "/other" "x";
                 param "/test/prefixnested/nested/key" "one" ] in
  let out' := ssm.mkGetParametersOutput
                [ param "/test/prefixnested/nested/key" "one";
                  param "/more" "y" ] in
  List.filter (known (walk_root "/test" SmallConfig)) (ssm.Params out)
  = List.filter (known (walk_root "/test" SmallConfig)) (ssm.Params out') /\
  Process keys_in_order (mockSSM (Some out) None) "/test" spec
  = Process keys_in_order (mockSSM (Some out') None) "/test" spec.
Proof.
  intros spec out out'.
  assert (List.filter (known (walk_root "/test" SmallConfig)) (ssm.Params out)
          = List.filter (known (walk_root "/test" SmallConfig))
              (ssm.Params out')) as H.
  { vm_compute. reflexivity. }
  split; [exact H|].
  exact (Process_ignores_unknown keys_in_order (mockSSM (Some out) None)
           (mockSSM (Some out') None) "/test" SmallConfig (zero SmallConfig)
           out out' eq_refl eq_refl eq_refl H).
Defined.

(** [Config], with letters for the number; and a record with a field of a
    defined byte type, on which the call panics. *)
Lemma Process_outcome_Config :
  let out := ssm.mkGetParametersOutput
               [ param "/test/key" "testkey"; param "/test/number" "abc";
                 param "/test/bool" "yes" ] in
  let Bytes := TStruct [fld "B" "/b" (TSlice (TNamed "main" "MyByte" Tuint8))]
  in
  shaped Config (zero Config) = true /\
  first_outcome (walk_root "" Config) (ssm.Params out)
  = Return (Some (NumError "ParseInt" "abc" strconv_err.ErrSyntax)) /\
  result (Process keys_in_order (mockSSM (Some out) None) ""
            (Some (TPtr Config, VPtr (Some (zero Config)))))
  = first_outcome (walk_root "" Config) (ssm.Params out) /\
  first_outcome (walk_root "" Bytes) [param "/b" "ab"]
  = Panic "reflect.Set: value of type []uint8 is not assignable to type []main.MyByte"
  /\
  result (Process keys_in_order
            (mockSSM (Some (ssm.mkGetParametersOutput [param "/b" "ab"]))
               None) ""
            (Some (TPtr Bytes, VPtr (Some (zero Bytes)))))
  = first_outcome (walk_root "" Bytes) [param "/b" "ab"].
Proof.
  intros out Bytes. split; [reflexivity|]. split; [vm_compute; reflexivity|].
  split; [|split; [vm_compute; reflexivity|]].
  - exact (proj1 (Process_outcome keys_in_order (mockSSM (Some out) None) ""
                    Config (zero Config) out eq_refl eq_refl eq_refl)).
  - exact (proj1 (Process_outcome keys_in_order
                    (mockSSM (Some (ssm.mkGetParametersOutput
                                      [param "/b" "ab"])) None) ""
                    Bytes (zero Bytes)
                    (ssm.mkGetParametersOutput [param "/b" "ab"])
                    eq_refl eq_refl eq_refl)).
Defined.

(** [Config]: the key is written, the number fails, the boolean is not
    reached. *)
Lemma Process_partial_update_Config :
  let spec := Some (TPtr Config, VPtr (Some (zero Config))) in
  let good := [param "/test/key" "testkey"] in
  let p := param "/test/number" "abc" in
  let rest := [param "/test/bool" "true"] in
  let e := NumError "ParseInt" "abc" strconv_err.ErrSyntax in
  let r := Process keys_in_order
             (mockSSM (Some (ssm.mkGetParametersOutput (good ++ p :: rest)))
                None) "" spec in
  let r' := Process keys_in_order
              (mockSSM (Some (ssm.mkGetParametersOutput good)) None) ""
              spec in
  first_outcome (walk_root "" Config) good = Return None /\
  walk_root "" Config !! "/test/number"
  = Some (mkValue [1] (TBasic Tint) true false false) /\
  result r = Return (Some e) /\ result r' = Return None /\
  spec_after r = spec_after r'.
Proof.
  intros spec good p rest e r r'.
  assert (first_outcome (walk_root "" Config) good = Return None) as Hgood.
  { vm_compute. reflexivity. }
  assert (walk_root "" Config !! "/test/number"
          = Some (mkValue [1] (TBasic Tint) true false false)) as Hf.
  { vm_compute. reflexivity. }
  split; [exact Hgood|]. split; [exact Hf|].
  refine (Process_partial_update keys_in_order
           (mockSSM (Some (ssm.mkGetParametersOutput (good ++ p :: rest)))
              None) "" Config (zero Config)
           (ssm.mkGetParametersOutput (good ++ p :: rest)) good p rest
           (mkValue [1] (TBasic Tint) true false false) (Return (Some e))
           eq_refl eq_refl eq_refl eq_refl Hgood Hf eq_refl _).
  discriminate.
Defined.

(** [SmallConfig], with the name of its one field returned twice. *)
Lemma Process_assigns_SmallConfig :
  let out := ssm.mkGetParametersOutput
               [ param "/test/prefixnested/nested/key" "one";
                 param "/test/prefixnested/nested/key" "two" ] in
  let r := Process keys_in_order (mockSSM (Some out) None) "/test"
             (Some (TPtr SmallConfig, VPtr (Some (zero SmallConfig)))) in
  result r = Return None /\
  exists s',
    spec_after r = Some (TPtr SmallConfig, VPtr (Some s')) /\
    get_path s' [0; 0] = Some (VString "two").
Proof.
  intros out r.
  assert (walk_root "/test" SmallConfig !! "/test/prefixnested/nested/key"
          = Some (mkValue [0; 0] (TBasic Tstring) true false false)) as Hf.
  { vm_compute. reflexivity. }
  assert (result r = Return None) as Hr.
  { vm_compute. reflexivity. }
  split; [exact Hr|].
  exact (Process_assigns keys_in_order (mockSSM (Some out) None) "/test"
           SmallConfig (zero SmallConfig) out
           "/test/prefixnested/nested/key"
           (mkValue [0; 0] (TBasic Tstring) true false false) (VString "")
           eq_refl eq_refl Hf eq_refl Hr).
Defined.

(** [Config]: the number is returned, the key is not. *)
Lemma Process_frame_Config :
  let out := ssm.mkGetParametersOutput [param "/test/number" "5"] in
  resolve Config [0] = Some ([], fld "TestKey" "/test/key" (TBasic Tstring)) /\
  exists s',
    spec_after (Process keys_in_order (mockSSM (Some out) None) ""
                  (Some (TPtr Config, VPtr (Some (zero Config)))))
    = Some (TPtr Config, VPtr (Some s')) /\
    get_path s' [0] = get_path (zero Config) [0].
Proof.
  intros out. split; [reflexivity|].
  refine (Process_frame keys_in_order (mockSSM (Some out) None) "" Config
            (zero Config) out [0] []
            (fld "TestKey" "/test/key" (TBasic Tstring))
            eq_refl eq_refl eq_refl eq_refl _).
  intros p f [<-|[]] Hf. vm_compute in Hf.
  injection Hf as <-. discriminate.
Defined.

(** An item with two colons, after an item that decodes. *)
Lemma processField_map_items_two_colons :
  blank "a:1,b:2:3" = false /\
  In "b:2:3" (strings.Split "a:1,b:2:3" ",") /\
  processField (TMap (TBasic Tstring) (TBasic Tstring)) "a:1,b:2:3"
    (VMap None)
  = (VMap None,
     Return (Some (fmt_Errorf "invalid map item: %q" "b:2:3"))).
Proof.
  assert (In "b:2:3" (strings.Split "a:1,b:2:3" ",")) as Hin.
  { right; left; reflexivity. }
  assert (occurrences ":" "b:2:3" <> 1) as Hc.
  { vm_compute. lia. }
  split; [reflexivity|]. split; [exact Hin|].
  exact (proj2 (processField_map_items (TBasic Tstring) (TBasic Tstring)
                  "a:1,b:2:3" (VMap None) "b:2:3" eq_refl Hin Hc)
           ["a:1"] [] [(VString "a", VString "1")] eq_refl eq_refl).
Defined.


(** [Config]: the key and the number, in either order. *)
Lemma Process_order_independent_Config :
  let spec := Some (TPtr Config, VPtr (Some (zero Config))) in
  let out := ssm.mkGetParametersOutput
               [param "/test/key" "testkey"; param "/test/number" "-314"] in
  let out' := ssm.mkGetParametersOutput
                [param "/test/number" "-314"; param "/test/key" "testkey"] in
  result (Process keys_in_order (mockSSM (Some out) None) "" spec)
  = Return None /\
  Process keys_in_order (mockSSM (Some out') None) "" spec
  = Process keys_in_order (mockSSM (Some out) None) "" spec.
Proof.
  intros spec out out'.
  assert (result (Process keys_in_order (mockSSM (Some out) None) "" spec)
          = Return None) as Hr.
  { vm_compute. reflexivity. }
  assert (NoDup (map (fun p => aws.StringValue (ssm.Name p))
                   (List.filter (known (walk_root "" Config))
                      (ssm.Params out)))) as Hnd.
  { apply (@bool_decide_unpack _ (NoDup_dec _)). vm_compute. exact I. }
  split; [exact Hr|].
  exact (Process_order_independent keys_in_order (mockSSM (Some out) None)
           (mockSSM (Some out') None) "" Config (zero Config) out out'
           eq_refl eq_refl eq_refl (perm_swap _ _ _) Hnd Hr).
Defined.

(** One past the largest byte, one below the smallest 8-bit integer, and one
    past the largest integers of 16 and of 32 bits. *)
Lemma processField_out_of_range_byte :
  processField (TBasic Tuint8) "256" (VUint 7)
  = (VUint 7,
     Return (Some (NumError "ParseUint" "256" strconv_err.ErrRange))) /\
  processField (TBasic Tint8) "-129" (VInt 7)
  = (VInt 7,
     Return (Some (NumError "ParseInt" "-129" strconv_err.ErrRange))) /\
  processField (TBasic Tint16) "32768" (VInt 7)
  = (VInt 7,
     Return (Some (NumError "ParseInt" "32768" strconv_err.ErrRange))) /\
  processField (TBasic Tuint32) "4294967296" (VUint 7)
  = (VUint 7,
     Return (Some (NumError "ParseUint" "4294967296" strconv_err.ErrRange))).
Proof.
  split; [|split; [|split]].
  - refine (proj1 (processField_out_of_range (TBasic Tuint8) (VUint 7))
              eq_refl 256%Z _).
    change (2 ^ 8 <= 256)%Z. lia.
  - refine (proj2 (processField_out_of_range (TBasic Tint8) (VInt 7))
              eq_refl eq_refl (-129)%Z _).
    left. change (-129 < - 2 ^ 7)%Z. lia.
  - refine (proj2 (processField_out_of_range (TBasic Tint16) (VInt 7))
              eq_refl eq_refl 32768%Z _).
    right. change (2 ^ 15 <= 32768)%Z. lia.
  - refine (proj1 (processField_out_of_range (TBasic Tuint32) (VUint 7))
              eq_refl 4294967296%Z _).
    change (2 ^ 32 <= 4294967296)%Z. lia.
Defined.

(** * The scenarios of the package's tests *)

(** "reads values from ssm": every field of [Config] receives its value. *)
Example Process_reads_values_from_ssm :
  let store :=
    mockSSM (Some (ssm.mkGetParametersOutput
      [ param "/test/key" "testkey"; param "/test/number" "-314";
        param "/test/uint" "314"; param "/test/bool" "true";
        param "/test/float" "3.14159";
        param "/test/floatslice" "3.14159,2.618034,2.718";
        param "/test/duration" "5m";
        param "/test/map"
          "first_name:Test,last_name:McTest,email:Test@test.com";
        param "/nested/key" "nestedkey";
        param "/inline/key" "inlinekey" ])) None in
  let r := Process keys_in_order store ""
             (Some (TPtr Config, VPtr (Some (zero Config)))) in
  result r = Return None /\
  spec_after r =
    Some (TPtr Config, VPtr (Some (VStruct
      [ VString "testkey"; VInt (-314); VUint 314; VBool true;
        VFloat (S754_finite false 7074231776675438 (-51));
        VSlice (Some [ VFloat (S754_finite false 7074231776675438 (-51));
                       VFloat (S754_finite false 5895288473421645 (-51));
                       VFloat (S754_finite false 6120391893596504 (-51)) ]);
        VInt (5 * time.Minute);
        VMap (Some [ (VString "first_name", VString "Test");
                     (VString "last_name", VString "McTest");
                     (VString "email", VString "Test@test.com") ]);
        VStruct [VString "nestedkey"];
        VStruct [VString "inlinekey"] ]))) /\
  Permutation (ssm.Names (hd (ssm.mkGetParametersInput [] None) (requests r)))
    (map aws.String
       [ "/test/key"; "/test/number"; "/test/uint"; "/test/bool";
         "/test/float"; "/test/floatslice"; "/test/duration"; "/test/map";
         "/nested/key"; "/inline/key" ]).
Proof.
  cbv zeta. split; [vm_compute; reflexivity|].
  split; [vm_compute; reflexivity|].
  apply (@bool_decide_unpack _ (Permutation_dec _ _)). vm_compute. exact I.
Qed.

(** "prefixs should build as process traverses config object". *)
Example Process_builds_prefixes :
  let store :=
    mockSSM (Some (ssm.mkGetParametersOutput
      [param "/test/prefixnested/nested/key" "nestedkey"])) None in
  Process keys_in_order store "/test"
    (Some (TPtr SmallConfig, VPtr (Some (zero SmallConfig))))
  = mkProcessed (Return None)
      (Some (TPtr SmallConfig,
             VPtr (Some (VStruct [VStruct [VString "nestedkey"]]))))
      [ssm.mkGetParametersInput [Some "/test/prefixnested/nested/key"]
         (Some true)].
Proof. vm_compute. reflexivity. Qed.

(** "errs if bad param config is nil" and "errs if bad param config not
    struct", the latter with [aws.Int(1)]. *)
Example Process_errs_on_bad_config :
  result (Process keys_in_order (mockSSM None None) "" None)
  = Return (Some (errors_New "spec must be non-nil pointer")) /\
  result (Process keys_in_order (mockSSM None None) ""
            (Some (TPtr (TBasic Tint), VPtr (Some (VInt 1)))))
  = Return (Some (errors_New "spec must be a struct type")).
Proof. split; reflexivity. Qed.

(** The mapping for [SmallConfig] under ["/test"] has the one key. *)
Example walk_root_SmallConfig :
  map_to_list (walk_root "/test" SmallConfig)
  = [("/test/prefixnested/nested/key",
      mkValue [0; 0] (TBasic Tstring) true false false)].
Proof. vm_compute. reflexivity. Qed.

(** A field that is not exported is passed over, with all below it. *)
Example walk_root_unexported :
  walk_root ""
    (TStruct [ mkField "hidden" "/hidden" false false (TBasic Tstring);
               mkField "nested" "/n" false true NestedStringConfig;
               fld "Shown" "/shown" (TBasic Tstring) ])
  = {[ "/shown" := mkValue [2] (TBasic Tstring) true false false ]}.
Proof. vm_compute. reflexivity. Qed.

(** * Literals the decoder reads *)

(** Integers in base 0: decimal, and the prefixes [0x], [0o], [0b] and
    [0]. *)
Example ParseInt_base_prefixes :
  map (fun s => strconv.ParseInt s 0 64)
    ["-314"; "0x1F"; "0o17"; "0b101"; "017"; "-0x80"; "1_000"]
  = map (fun n => (n, None)) [-314; 31; 15; 5; 15; -128; 1000]%Z.
Proof. vm_compute. reflexivity. Qed.

Example ParseInt_failures :
  map (fun s => snd (strconv.ParseInt s 0 8)) ["128"; "abc"; ""; "08"]
  = [ Some (NumError "ParseInt" "128" strconv_err.ErrRange);
      Some (NumError "ParseInt" "abc" strconv_err.ErrSyntax);
      Some (NumError "ParseInt" "" strconv_err.ErrSyntax);
      Some (NumError "ParseInt" "08" strconv_err.ErrSyntax) ].
Proof. vm_compute. reflexivity. Qed.

(** Durations: ["5m"] is five minutes, ["1h30m"] ninety, and fractions are
    read to the nanosecond. *)
Example ParseDuration_literals :
  map time.ParseDuration ["5m"; "1h30m"; "1.5s"; "-2h45m"; "0"]
  = map (fun n => (n, None))
      [5 * time.Minute; 90 * time.Minute; 1500 * time.Millisecond;
       - (165 * time.Minute); 0]%Z.
Proof. vm_compute. reflexivity. Qed.

Example ParseDuration_failures :
  map (fun s => snd (time.ParseDuration s)) ["5"; "five"; "1d"]
  = [ Some (time_error "time: missing unit in duration " ["5"]);
      Some (time_error "time: invalid duration " ["five"]);
      Some (time_error "time: unknown unit " ["d"; "1d"]) ].
Proof. vm_compute. reflexivity. Qed.

(** The three literals of the specification: the integer -314, the
    [float64] nearest to 3.14159, which is 7074231776675438 * 2^-51, and five
    minutes. *)
Example processField_scalar_literals :
  processField (TBasic Tint) "-314" (VInt 0) = (VInt (-314), Return None) /\
  processField (TBasic Tfloat64) "3.14159" (VFloat (S754_zero false))
  = (VFloat (S754_finite false 7074231776675438 (-51)), Return None) /\
  processField TDuration "5m" (VInt 0) = (VInt (5 * time.Minute), Return None).
Proof. repeat split; vm_compute; reflexivity. Qed.

(** A duration field takes no plain integer, and an integer field no
    duration. *)
Example processField_duration_is_not_integer :
  processField TDuration "300" (VInt 7)
  = (VInt 7,
     Return (Some (time_error "time: missing unit in duration " ["300"])))
  /\
  processField (TBasic Tint64) "5m" (VInt 7)
  = (VInt 7,
     Return (Some (NumError "ParseInt" "5m" strconv_err.ErrSyntax))).
Proof. split; vm_compute; reflexivity. Qed.

(** Bytes are taken verbatim, commas included. *)
Example processField_bytes :
  processField (TSlice (TBasic Tuint8)) "a,b" (VSlice None)
  = (VSlice (Some [VUint 97; VUint 44; VUint 98]), Return None).
Proof. vm_compute. reflexivity. Qed.


(** A [float32] field holds the nearest [float32]: 16777217 is not one. *)
Example processField_float32 :
  processField (TBasic Tfloat32) "16777217" (VFloat (S754_zero false))
  = (VFloat (S754_finite false 8388608 1), Return None) /\
  processField (TBasic Tfloat64) "16777217" (VFloat (S754_zero false))
  = (VFloat (S754_finite false 4503599895805952 (-28)), Return None).
Proof. split; vm_compute; reflexivity. Qed.

(** The zero value of [Config] has its shape. *)
Example zero_Config_shaped : shaped Config (zero Config) = true.
Proof. reflexivity. Qed.

(** What [Duration.String] writes is read back: ["5m0s"], ["1h30m0s"],
    ["1.000000001s"], ["1.5ms"] and one microsecond, with the micro sign
    U+00B5. *)
Example ParseDuration_of_String :
  map time.ParseDuration
    ["5m0s"; "1h30m0s"; "1.000000001s"; "1.5ms";
     "1" +:+ String "194" (String "181" "s"); "-2562047h47m16.854775808s"]
  = map (fun n => (n, None))
      [5 * time.Minute; 90 * time.Minute; time.Second + 1;
       1500 * time.Microsecond; time.Microsecond; - 2 ^ 63]%Z.
Proof. vm_compute. reflexivity. Qed.

(** What [strconv.FormatFloat(f, 'g', -1, 64)] writes is read back: one
    tenth, [1e+23], which lies halfway between two floats, the smallest and
    the largest finite [float64], and the infinities. *)
Example ParseFloat_of_FormatFloat :
  map (fun s => strconv.ParseFloat s 64)
    ["0.1"; "1e+23"; "5e-324"; "1.7976931348623157e+308"; "+Inf"; "-Inf"]
  = map (fun f => (f, None))
      [ S754_finite false 7205759403792794 (-56);
        S754_finite false 5960464477539062 24;
        S754_finite false 1 (-1074);
        S754_finite false 9007199254740991 971;
        S754_infinity false; S754_infinity true ].
Proof. vm_compute. reflexivity. Qed.

(** What [Duration.String] writes: the units below a second, the hours and
    minutes left out when zero, and the largest magnitude. *)
Example Duration_String_texts :
  map Duration_String
    [0; 1; 1500; 1500000; 1000000001; 5 * time.Minute; 90 * time.Minute;
     - (100 * time.Hour + time.Millisecond); - 2 ^ 63]%Z
  = ["0s"; "1ns"; "1.5" +:+ micro_sign +:+ "s"; "1.5ms"; "1.000000001s";
     "5m0s"; "1h30m0s"; "-100h0m0.001s"; "-2562047h47m16.854775808s"].
Proof. vm_compute. reflexivity. Qed.
